(** * proxy-kp: balancer, health checker, response cache and rate limiter

  A shallow embedding of the Go packages [pkg/balancer], [pkg/health],
  [pkg/cache] and [pkg/ratelimit] and of the dispatcher
  ([Handler.ServeHTTP] of [internal/proxy]), and the properties of the
  design document that concern them.

  Conventions.
  - Go's [int] and [time.Duration] are 64-bit two's complement (the
    proxy is built for 64-bit Linux); they are values of [Z] and every
    arithmetic operation of the source is written with its wrap-around
    ([GoInt.wrap]).
  - A [time.Time] obtained from [time.Now()] is an instant on one time
    line, counted in nanoseconds ([Z]); [t.After(u)] is [u < t] and
    [t.Sub(u)] is the difference saturated to the range of a Duration.
    The functions that read the clock take the reading as an argument.
  - A [*Backend] stored in the balancer's slice is identified by its
    position in the slice; every position holds an object of its own, as
    in [NewServer], which adds one [NewBackend] per configuration entry.
  - A Go [map] is a [gmap]; reading an absent key gives the zero value,
    which is written out where the source relies on it.
  - The methods of a component run one after another, as they do under
    the lock of the component; the lock of the health checker is part
    of its state, because [checkBackend] calls other methods of the
    checker while it holds it.
  - [float64(requestsPerMinute) / 60.0] is a rational number. *)

From Stdlib Require Import ZArith Lia QArith Lqa.
From stdpp Require Import gmap strings list fin_maps.

Local Open Scope Z_scope.

(** ** Go integers *)

Module GoInt.

Definition min_int : Z := - 2 ^ 63.
Definition max_int : Z := 2 ^ 63 - 1.

(** Reduction of a mathematical integer to the 64-bit signed range. *)
Definition wrap (z : Z) : Z := (z + 2 ^ 63) mod 2 ^ 64 - 2 ^ 63.

Definition add (a b : Z) : Z := wrap (a + b).
Definition sub (a b : Z) : Z := wrap (a - b).

Definition in_range (z : Z) : Prop := min_int <= z <= max_int.

(** Saturation, as [time.Time.Sub] does it for Durations. *)
Definition saturate (z : Z) : Z :=
  if z <? min_int then min_int
  else if max_int <? z then max_int
  else z.

End GoInt.

(** ** pkg/balancer *)

Module Balancer.

Record Backend := mkBackend {
  URL : string;
  Weight : Z;
  CurrentWeight : Z;
  Healthy : bool
}.

Definition NewBackend (url : string) (weight : Z) : Backend :=
  {| URL := url; Weight := weight; CurrentWeight := 0; Healthy := true |}.

(** [Backend.SetHealthy], [Backend.IsHealthy]. *)
Definition SetHealthy (healthy : bool) (b : Backend) : Backend :=
  {| URL := URL b; Weight := Weight b;
     CurrentWeight := CurrentWeight b; Healthy := healthy |}.

Definition IsHealthy (b : Backend) : bool := Healthy b.

Inductive error := ErrNoHealthyBackends.

#[global] Instance error_eq_dec : EqDecision error.
Proof. solve_decision. Defined.

(** The balancer: its slice of backends. *)
Abbreviation SRR := (list Backend).

Definition NewSRR : SRR := [].

Definition AddBackend (s : SRR) (backend : Backend) : SRR := s ++ [backend].

(** [SRR.RemoveBackend]: the first backend with that URL is cut out. *)
Fixpoint RemoveBackend (s : SRR) (url : string) : bool * SRR :=
  match s with
  | [] => (false, [])
  | b :: rest =>
      if String.eqb (URL b) url then (true, rest)
      else let '(r, rest') := RemoveBackend rest url in (r, b :: rest')
  end.

(** [SRR.SetHealthy]: the first backend with that URL gets the flag. *)
Fixpoint SRR_SetHealthy (s : SRR) (url : string) (healthy : bool) : bool * SRR :=
  match s with
  | [] => (false, [])
  | b :: rest =>
      if String.eqb (URL b) url then (true, SetHealthy healthy b :: rest)
      else let '(r, rest') := SRR_SetHealthy rest url healthy in (r, b :: rest')
  end.

Definition GetBackends (s : SRR) : list Backend := s.

Definition HealthyCount (s : SRR) : nat := length (filter (λ b, IsHealthy b = true) s).

(** What [NextBackend] returns: the chosen backend, as its position in
    the slice, or the error value. *)
Inductive outcome :=
| Selected (i : nat)
| Failed (e : error).

#[global] Instance outcome_eq_dec : EqDecision outcome.
Proof. solve_decision. Defined.

(** [b.CurrentWeight += b.Weight] *)
Definition bump (b : Backend) : Backend :=
  {| URL := URL b; Weight := Weight b;
     CurrentWeight := GoInt.add (CurrentWeight b) (Weight b);
     Healthy := Healthy b |}.

(** [best.CurrentWeight -= totalWeight] *)
Definition charge (totalWeight : Z) (b : Backend) : Backend :=
  {| URL := URL b; Weight := Weight b;
     CurrentWeight := GoInt.sub (CurrentWeight b) totalWeight;
     Healthy := Healthy b |}.

(** First loop of [NextBackend]: every healthy backend adds its weight
    to [totalWeight] and to its own [CurrentWeight]. *)
Fixpoint accumulate (bs : list Backend) (totalWeight : Z) : Z * list Backend :=
  match bs with
  | [] => (totalWeight, [])
  | b :: rest =>
      if negb (IsHealthy b) then
        let '(t, rest') := accumulate rest totalWeight in (t, b :: rest')
      else
        let '(t, rest') := accumulate rest (GoInt.add totalWeight (Weight b)) in
        (t, bump b :: rest')
  end.

(** Second loop: [best] is the position and current weight of the best
    healthy backend seen so far; a later one replaces it only when its
    current weight is strictly greater. *)
Fixpoint pick_best (bs : list Backend) (i : nat) (best : option (nat * Z))
  : option (nat * Z) :=
  match bs with
  | [] => best
  | b :: rest =>
      if negb (IsHealthy b) then pick_best rest (S i) best
      else
        match best with
        | None => pick_best rest (S i) (Some (i, CurrentWeight b))
        | Some (_, bw) =>
            if bw <? CurrentWeight b
            then pick_best rest (S i) (Some (i, CurrentWeight b))
            else pick_best rest (S i) best
        end
  end.

Definition NextBackend (s : SRR) : outcome * SRR :=
  match s with
  | [] => (Failed ErrNoHealthyBackends, s)
  | _ =>
      let '(totalWeight, s1) := accumulate s 0 in
      if totalWeight =? 0 then (Failed ErrNoHealthyBackends, s1)
      else
        match pick_best s1 0%nat None with
        | None => (Failed ErrNoHealthyBackends, s1)
        | Some (i, _) => (Selected i, alter (charge totalWeight) i s1)
        end
  end.

(** [n] consecutive calls: what each returned, and the final pool. *)
Fixpoint calls (n : nat) (s : SRR) : list outcome * SRR :=
  match n with
  | O => ([], s)
  | S n' =>
      let '(r, s1) := NextBackend s in
      let '(rs, s2) := calls n' s1 in
      (r :: rs, s2)
  end.

(** How often position [i] was returned. *)
Definition selections (i : nat) (rs : list outcome) : nat :=
  length (filter (λ r, r = Selected i) rs).

(** The operations on the balancer and its backends that do not remove
    a backend: [AddBackend] of a new backend, [SetHealthy] by URL,
    [SetHealthy] on the backend at a position (as the health checker
    calls it on the pointers it got from [GetBackends]), [NextBackend]. *)
Inductive op :=
| OpAdd (url : string) (weight : Z)
| OpSetHealthy (url : string) (healthy : bool)
| OpSetHealthyAt (i : nat) (healthy : bool)
| OpNext.

Definition apply_op (s : SRR) (o : op) : SRR :=
  match o with
  | OpAdd url weight => AddBackend s (NewBackend url weight)
  | OpSetHealthy url healthy => snd (SRR_SetHealthy s url healthy)
  | OpSetHealthyAt i healthy => alter (SetHealthy healthy) i s
  | OpNext => snd (NextBackend s)
  end.

Definition run (ops : list op) : SRR := fold_left apply_op ops NewSRR.

(** Sums: over mathematical integers, and as a Go loop over [int]
    computes them. *)
Definition sumZ (l : list Z) : Z := foldr Z.add 0 l.
Definition sum_int (l : list Z) : Z := fold_left GoInt.add l 0.

(** The two effects of the first loop, each on its own. *)
Definition bump_healthy (b : Backend) : Backend :=
  if IsHealthy b then bump b else b.

Definition healthy_total (bs : list Backend) (totalWeight : Z) : Z :=
  fold_left (λ t b, if IsHealthy b then GoInt.add t (Weight b) else t) bs totalWeight.

(** The pool of healthy backends with weights [ws] after [t] calls of
    which [cnt j] returned position [j]: every current weight is
    [t·w_j − W·cnt j] and lies above [−W], and they add up to zero. *)
Definition fair_state (ws : list Z) (t : Z) (cnt : nat → Z) (s : SRR) : Prop :=
  Weight <$> s = ws ∧
  Forall (λ b, IsHealthy b = true ∧ 0 < Weight b ∧ - sumZ ws < CurrentWeight b) s ∧
  sumZ (CurrentWeight <$> s) = 0 ∧
  ∀ j b, s !! j = Some b → CurrentWeight b = t * Weight b - sumZ ws * cnt j.

(** What a call that returns position [k] makes of the backend at
    position [j], when nothing wraps. *)
Definition served (total : Z) (k j : nat) (b : Backend) : Backend :=
  {| URL := URL b; Weight := Weight b;
     CurrentWeight := CurrentWeight b + Weight b - (if decide (j = k) then total else 0);
     Healthy := Healthy b |}.

Definition poolABC : SRR :=
  [NewBackend "A" 1; NewBackend "B" 2; NewBackend "C" 3].

End Balancer.


(** ** Ranging over a map and deleting from it

    The shape shared by the loops of [Cache.CleanupExpired] and
    [Limiter.CleanupStale]. *)

Definition sweep_step {A : Type} (dead : A → bool) (k : string) (x : A)
    (st : nat * gmap string A) : nat * gmap string A :=
  if dead x then (S (fst st), delete k (snd st)) else st.

(** ** pkg/cache *)

Module Cache.

(** [http.Header]: a map from header names to their values. *)
Abbreviation http_Header := (gmap string (list string)).

Record Entry := mkEntry {
  Key : string;
  Value : list Byte.byte;
  Header : http_Header;
  ExpiresAt : Z;
  CreatedAt : Z
}.

(** [NewEntry], with the reading of the clock it takes. *)
Definition NewEntry (now : Z) (key : string) (value : list Byte.byte)
    (header : http_Header) (ttl : Z) : Entry :=
  {| Key := key; Value := value; Header := header;
     CreatedAt := now; ExpiresAt := now + ttl |}.

(** [time.Now().After(e.ExpiresAt)] *)
Definition IsExpired (now : Z) (e : Entry) : bool := ExpiresAt e <? now.

Record Cache := mkCache {
  entries : gmap string Entry;
  ttl : Z
}.

Definition NewCache (ttl : Z) : Cache := {| entries := ∅; ttl := ttl |}.

(** [Get] returns [(value, header, true)] or [(nil, nil, false)]; the
    latter is [None]. *)
Definition Get (now : Z) (c : Cache) (key : string)
  : option (list Byte.byte * http_Header) :=
  match entries c !! key with
  | None => None
  | Some entry =>
      if IsExpired now entry then None
      else Some (Value entry, Header entry)
  end.

(** [Cache.Set] ([Set] is a keyword of Rocq). *)
Definition Set_ (now : Z) (c : Cache) (key : string) (value : list Byte.byte)
    (header : http_Header) : Cache :=
  {| entries := <[key := NewEntry now key value header (ttl c)]> (entries c);
     ttl := ttl c |}.

Definition Delete (c : Cache) (key : string) : Cache :=
  {| entries := delete key (entries c); ttl := ttl c |}.

(** One iteration of the loop of [CleanupExpired]. [count] cannot exceed
    the number of entries of the map, so [count++] never wraps. *)
Definition cleanup_step (now : Z) (key : string) (entry : Entry)
    (st : nat * gmap string Entry) : nat * gmap string Entry :=
  if ExpiresAt entry <? now then (S (fst st), delete key (snd st)) else st.

(** [CleanupExpired]: the loop ranges over the entries the map had when
    it started; deleting the current key during a [range] is allowed in
    Go and hides no other entry. *)
Definition CleanupExpired (now : Z) (c : Cache) : nat * Cache :=
  let '(count, m) := map_fold (cleanup_step now) (O, entries c) (entries c) in
  (count, {| entries := m; ttl := ttl c |}).

Definition Size (c : Cache) : nat := size (entries c).

Definition Clear (c : Cache) : Cache := {| entries := ∅; ttl := ttl c |}.

End Cache.

(** ** pkg/ratelimit *)

Module RateLimit.

(** The token bucket of [golang.org/x/time/rate], which the limiter
    creates with [rate.NewLimiter] and asks with [Allow]. *)
Class TokenBucket (B : Type) := {
  rate_NewLimiter : Q → Z → B;
  rate_Allow : Z → B → bool * B
}.

(** Modelled from the spec: the package [golang.org/x/time/rate] is not
    part of the sources. A bucket has capacity [burst] and refills at
    [rate] tokens per second; on each [allow] it is advanced to [now],
    adding [rate × Δt] tokens capped at [burst]; if [tokens ≥ 1] one
    token is consumed and the answer is [true], else the answer is
    [false] (section 4.4). A fresh bucket is full: with a burst of 10,
    the first 10 immediate requests of a client pass (scenario S4). *)
Record bucket := mkBucket {
  capacity : Z;
  rate : Q;
  tokens : Q;
  last : option Z
}.

Definition bucket_new (r : Q) (b : Z) : bucket :=
  {| capacity := b; rate := r; tokens := inject_Z b; last := None |}.

(** Seconds between the last advance and [now], none for a bucket that
    was never advanced. *)
Definition elapsed (now : Z) (b : bucket) : Q :=
  match last b with
  | None => 0%Q
  | Some t => (inject_Z (now - t) / inject_Z 1000000000)%Q
  end.

Definition advance (now : Z) (b : bucket) : Q :=
  let t := (tokens b + rate b * elapsed now b)%Q in
  if Qle_bool (inject_Z (capacity b)) t then inject_Z (capacity b) else t.

Definition bucket_allow (now : Z) (b : bucket) : bool * bucket :=
  let t := advance now b in
  if Qle_bool 1 t
  then (true, {| capacity := capacity b; rate := rate b;
                 tokens := (t - 1)%Q; last := Some now |})
  else (false, {| capacity := capacity b; rate := rate b;
                  tokens := t; last := Some now |}).

#[global] Instance spec_bucket : TokenBucket bucket :=
  {| rate_NewLimiter := bucket_new; rate_Allow := bucket_allow |}.

Section Limiter.
Context {B : Type} `{TokenBucket B}.

Record clientLimiter := mkClientLimiter {
  limiter : B;
  lastSeen : Z
}.

Record Limiter := mkLimiter {
  limiters : gmap string clientLimiter;
  limit : Q;
  burst : Z
}.

(** [float64(requestsPerMinute) / 60.0], as a rational. *)
Definition NewLimiter (requestsPerMinute : Z) (burst : Z) : Limiter :=
  {| limiters := ∅;
     limit := (inject_Z requestsPerMinute / 60)%Q;
     burst := burst |}.

Definition with_limiters (r : Limiter) (m : gmap string clientLimiter) : Limiter :=
  {| limiters := m; limit := limit r; burst := burst r |}.

(** [limiter.lastSeen = time.Now(); return limiter.limiter.Allow()] on
    the bucket stored under [ip]. *)
Definition touch (now : Z) (r : Limiter) (ip : string) (l : clientLimiter)
  : bool * Limiter :=
  let '(ok, b) := rate_Allow now (limiter l) in
  (ok, with_limiters r (<[ip := {| limiter := b; lastSeen := now |}]> (limiters r))).

Definition createNewLimiter (now : Z) (r : Limiter) (ip : string) : bool * Limiter :=
  match limiters r !! ip with
  | Some l => touch now r ip l
  | None =>
      let l := {| limiter := rate_NewLimiter (limit r) (burst r); lastSeen := now |} in
      touch now (with_limiters r (<[ip := l]> (limiters r))) ip l
  end.

Definition Allow (now : Z) (r : Limiter) (ip : string) : bool * Limiter :=
  match limiters r !! ip with
  | None => createNewLimiter now r ip
  | Some l => touch now r ip l
  end.

(** [now.Sub(limiter.lastSeen) > idleTimeout] *)
Definition stale (now idleTimeout : Z) (l : clientLimiter) : bool :=
  idleTimeout <? GoInt.saturate (now - lastSeen l).

Definition stale_step (now idleTimeout : Z) (ip : string) (l : clientLimiter)
    (st : nat * gmap string clientLimiter) : nat * gmap string clientLimiter :=
  if stale now idleTimeout l then (S (fst st), delete ip (snd st)) else st.

Definition CleanupStale (now idleTimeout : Z) (r : Limiter) : nat * Limiter :=
  let '(count, m) := map_fold (stale_step now idleTimeout) (O, limiters r) (limiters r) in
  (count, with_limiters r m).

Definition Size (r : Limiter) : nat := size (limiters r).

End Limiter.

Arguments clientLimiter : clear implicits.
Arguments Limiter : clear implicits.

(** Scenario S5: a limiter that has seen one request from each of five
    addresses at time 0. *)
Definition five_clients : Limiter bucket :=
  fold_left (λ r ip, snd (Allow 0 r ip)) ["1"; "2"; "3"; "4"; "5"] (NewLimiter 60 10).

End RateLimit.

(** ** pkg/health *)

Module Health.

Import Balancer.

Record Checker := mkChecker {
  failureThreshold : Z;
  recoveryInterval : Z;
  failures : gmap string Z;
  lastCheck : gmap string Z;
  mu : bool                     (* is [c.mu] held? *)
}.

Definition NewChecker (failureThreshold recoveryInterval : Z) : Checker :=
  {| failureThreshold := failureThreshold; recoveryInterval := recoveryInterval;
     failures := ∅; lastCheck := ∅; mu := false |}.

(** What one goroutine running a method of the checker sees: the checker
    and the backend it was given. *)
Record State := mkState {
  chk : Checker;
  be : Backend
}.

(** A method either returns, or blocks for ever in [c.mu.Lock()] because
    the lock is held and its holder is the goroutine itself. *)
Inductive res (A : Type) :=
| Returns (a : A) (st : State)
| Deadlock (st : State).
Arguments Returns {A}.
Arguments Deadlock {A}.

Definition M (A : Type) : Type := State → res A.

Definition ret {A} (a : A) : M A := λ st, Returns a st.

Definition bind {A B} (m : M A) (k : A → M B) : M B :=
  λ st, match m st with
        | Returns a st' => k a st'
        | Deadlock st' => Deadlock st'
        end.

#[global] Instance M_ret : MRet M := @ret.
#[global] Instance M_bind : MBind M := λ A B k m, bind m k.

Definition get : M State := λ st, Returns st st.

Definition set_mu (held : bool) (c : Checker) : Checker :=
  {| failureThreshold := failureThreshold c; recoveryInterval := recoveryInterval c;
     failures := failures c; lastCheck := lastCheck c; mu := held |}.

Definition set_failures (f : gmap string Z) (c : Checker) : Checker :=
  {| failureThreshold := failureThreshold c; recoveryInterval := recoveryInterval c;
     failures := f; lastCheck := lastCheck c; mu := mu c |}.

Definition set_lastCheck (l : gmap string Z) (c : Checker) : Checker :=
  {| failureThreshold := failureThreshold c; recoveryInterval := recoveryInterval c;
     failures := failures c; lastCheck := l; mu := mu c |}.

(** [c.mu.Lock()]: a [sync.RWMutex] is not reentrant. *)
Definition Lock : M unit :=
  λ st, if mu (chk st) then Deadlock st
        else Returns tt {| chk := set_mu true (chk st); be := be st |}.

Definition Unlock : M unit :=
  λ st, Returns tt {| chk := set_mu false (chk st); be := be st |}.

(** [c.failures[url]], zero for an absent key. *)
Definition failure_count (c : Checker) (url : string) : Z :=
  default 0 (failures c !! url).

Definition modify_chk (f : Checker → Checker) : M unit :=
  λ st, Returns tt {| chk := f (chk st); be := be st |}.

Definition modify_be (f : Backend → Backend) : M unit :=
  λ st, Returns tt {| chk := chk st; be := f (be st) |}.

Definition handleFailure : M unit :=
  Lock ;;
  st ← get ;
  let url := URL (be st) in
  modify_chk (set_failures
    (<[url := GoInt.add (failure_count (chk st) url) 1]> (failures (chk st)))) ;;
  st ← get ;
  (if failureThreshold (chk st) <=? failure_count (chk st) url
   then if IsHealthy (be st) then modify_be (SetHealthy false) else ret tt
   else ret tt) ;;
  Unlock.

Definition handleSuccess : M unit :=
  Lock ;;
  st ← get ;
  let url := URL (be st) in
  (if 0 <? failure_count (chk st) url
   then modify_chk (set_failures (<[url := 0]> (failures (chk st))))
   else ret tt) ;;
  st ← get ;
  (if negb (IsHealthy (be st)) then modify_be (SetHealthy true) else ret tt) ;;
  Unlock.

(** How a probe ends: the request cannot be built, the transport fails,
    or a response with a status code arrives. *)
Inductive probe :=
| RequestError
| TransportError
| Response (status : Z).

Definition StatusOK : Z := 200.

(** [time.Since(lastCheck)]: the zero [time.Time] (a key absent from
    [c.lastCheck]) lies further in the past than a Duration can tell. *)
Definition since (now : Z) (t : option Z) : Z :=
  match t with
  | None => GoInt.max_int
  | Some t => GoInt.saturate (now - t)
  end.

(** Is the probe of this tick made, or skipped for the recovery interval? *)
Definition probed (now : Z) (c : Checker) (b : Backend) : bool :=
  negb (negb (IsHealthy b) && (since now (lastCheck c !! URL b) <? recoveryInterval c)).

(** [checkBackend]; [now] is the clock when the recovery interval is
    looked at, [now'] the clock when the response is recorded. *)
Definition checkBackend (now now' : Z) (p : probe) : M unit :=
  Lock ;;
  st ← get ;
  let wasHealthy := IsHealthy (be st) in
  let last := lastCheck (chk st) !! URL (be st) in
  Unlock ;;
  if negb wasHealthy && (since now last <? recoveryInterval (chk st)) then ret tt
  else
    match p with
    | RequestError => handleFailure
    | TransportError => handleFailure
    | Response status =>
        Lock ;;
        st ← get ;
        modify_chk (set_lastCheck (<[URL (be st) := now']> (lastCheck (chk st)))) ;;
        (if status =? StatusOK then handleSuccess else handleFailure) ;;
        Unlock
    end.

End Health.

(** ** internal/proxy: the dispatcher *)

Module Proxy.

Import Balancer.

Definition StatusOK : Z := 200.
Definition StatusBadGateway : Z := 502.
Definition StatusServiceUnavailable : Z := 503.

Record Request := mkRequest {
  Method : string;
  URLString : string            (* [r.URL.String()] *)
}.

(** How the exchange with the chosen backend ends: its URL does not
    parse, the upstream request cannot be built, the transport fails, or
    a response arrives, whose body may fail to be read. *)
Inductive exchange :=
| BadURL
| BadRequest
| TransportError
| Response (status : Z) (header : Cache.http_Header) (body : option (list Byte.byte)).

Record Handler := mkHandler {
  balancer : SRR;
  cache : Cache.Cache;
  cacheEnabled : bool
}.

Definition getCacheKey (r : Request) : string := Method r +:+ ":" +:+ URLString r.

(** What the client receives: the status code and the body written. *)
Record Reply := mkReply {
  status : Z;
  body : list Byte.byte
}.

Definition text (s : string) : list Byte.byte := String.list_byte_of_string s.

(** [http.Error(w, msg, code)] writes the message followed by a newline. *)
Definition http_Error (msg : string) (code : Z) : Reply :=
  {| status := code; body := text (msg +:+ String (Ascii.ascii_of_nat 10) "") |}.

Definition ServeHTTP (now : Z) (upstream : nat → exchange) (h : Handler) (r : Request)
  : Reply * Handler :=
  match NextBackend (balancer h) with
  | (Failed _, s) =>
      (http_Error "Service Unavailable" StatusServiceUnavailable,
       {| balancer := s; cache := cache h; cacheEnabled := cacheEnabled h |})
  | (Selected i, s) =>
      let h1 := {| balancer := s; cache := cache h; cacheEnabled := cacheEnabled h |} in
      match upstream i with
      | BadURL | BadRequest | TransportError =>
          (http_Error "Bad Gateway" StatusBadGateway, h1)
      | Response code header None => ({| status := code; body := [] |}, h1)
      | Response code header (Some bytes) =>
          let c :=
            if cacheEnabled h && String.eqb (Method r) "GET" && (code =? StatusOK)
            then Cache.Set_ now (cache h) (getCacheKey r) bytes header
            else cache h in
          ({| status := code; body := bytes |},
           {| balancer := s; cache := c; cacheEnabled := cacheEnabled h |})
      end
  end.

End Proxy.

(** ** Runs of the limiter and of the health checker *)

Module Runs.

(** A run of requests through [Limiter.Allow], each with the reading of
    the clock and the address of the client. *)
Definition allow_all {B : Type} `{RateLimit.TokenBucket B} (reqs : list (Z * string))
    (r : RateLimit.Limiter B) : RateLimit.Limiter B :=
  fold_left (λ r req, snd (RateLimit.Allow req.1 r req.2)) reqs r.

(** Probes of one backend made one after another, each with its two
    readings of the clock and its outcome. A goroutine that blocks keeps
    [c.mu], and nothing changes any more. *)
Fixpoint probes (ps : list (Z * Z * Health.probe)) (st : Health.State)
  : Health.res unit :=
  match ps with
  | [] => Health.Returns tt st
  | (now, now', p) :: rest =>
      match Health.checkBackend now now' p st with
      | Health.Returns _ st' => probes rest st'
      | Health.Deadlock st' => Health.Deadlock st'
      end
  end.

End Runs.

(** ** pkg/health: [GetFailureCount] and the monitor *)

Module Monitor.

Import Balancer Health.

(** [c.mu.RLock()] blocks while the lock is held for writing;
    [RLock] and [RUnlock] come in pairs with no other use of the lock in
    between, so the readers need not be counted. *)
Definition RLock : M unit :=
  λ st, if mu (chk st) then Deadlock st else Returns tt st.

Definition RUnlock : M unit := ret tt.

Definition GetFailureCount (url : string) : M Z :=
  RLock ;;
  st ← get ;
  RUnlock ;;
  ret (failure_count (chk st) url).

Record BackendStatus := mkBackendStatus {
  StatusURL : string;           (* [URL] *)
  StatusHealthy : bool;         (* [Healthy] *)
  FailureCount : Z
}.

(** The loop of [GetStatus] over the backends of the balancer. *)
Fixpoint status_loop (backends : list Backend) : M (list BackendStatus) :=
  match backends with
  | [] => ret []
  | b :: rest =>
      n ← GetFailureCount (URL b) ;
      tl ← status_loop rest ;
      ret ({| StatusURL := URL b; StatusHealthy := IsHealthy b; FailureCount := n |} :: tl)
  end.

Definition GetStatus (s : SRR) : M (list BackendStatus) := status_loop (GetBackends s).

Definition HealthyCount (s : SRR) : nat := Balancer.HealthyCount s.

Definition TotalCount (s : SRR) : nat := length (GetBackends s).

End Monitor.

(** ** internal/config *)

Module Config.

Record ServerConfig := mkServerConfig {
  Port : Z;
  Host : string;
  HTTPPort : Z;
  HTTPSPort : Z;
  ReadTimeout : Z;
  WriteTimeout : Z
}.

Record TLSConfig := mkTLSConfig {
  TLSEnabled : bool;            (* [TLS.Enabled] *)
  CertFile : string;
  KeyFile : string
}.

Record BackendConfig := mkBackendConfig {
  BackendURL : string;          (* [URL] *)
  BackendWeight : Z             (* [Weight] *)
}.

Record HealthCheckConfig := mkHealthCheckConfig {
  Interval : Z;
  Timeout : Z;
  Endpoint : string;
  FailureThreshold : Z;
  RecoveryInterval : Z
}.

Record CacheConfig := mkCacheConfig {
  CacheEnabled : bool;          (* [Cache.Enabled] *)
  TTL : Z
}.

Record RateLimitConfig := mkRateLimitConfig {
  RateLimitEnabled : bool;      (* [RateLimit.Enabled] *)
  RequestsPerMinute : Z;
  Burst : Z
}.

Record LoggingConfig := mkLoggingConfig {
  Level : string;
  Format : string
}.

Record Config := mkConfig {
  Server : ServerConfig;
  TLS : TLSConfig;
  Backends : list BackendConfig;
  HealthCheck : HealthCheckConfig;
  CacheCfg : CacheConfig;       (* [Cache] *)
  RateLimitCfg : RateLimitConfig; (* [RateLimit] *)
  Logging : LoggingConfig
}.

(** The errors of [Validate], one for each message. *)
Inductive error :=
| ErrHostEmpty
| ErrHTTPPort (port : Z)
| ErrHTTPSPort (port : Z)
| ErrSamePorts
| ErrNoBackends
| ErrBackendURL (i : nat)
| ErrBackendWeight (i : nat)
| ErrCertRequired
| ErrKeyRequired
| ErrCertMissing (file : string)
| ErrKeyMissing (file : string)
| ErrInterval
| ErrTimeout
| ErrThreshold
| ErrRecovery
| ErrTTL
| ErrRequestsPerMinute
| ErrBurst.

Definition second : Z := 1000000000.

(** The loop of [Validate] over the backends, from index [i] on. *)
Fixpoint check_backends (i : nat) (backends : list BackendConfig) : option error :=
  match backends with
  | [] => None
  | backend :: rest =>
      if String.eqb (BackendURL backend) "" then Some (ErrBackendURL i)
      else if BackendWeight backend <=? 0 then Some (ErrBackendWeight i)
      else check_backends (S i) rest
  end.

(** The check of the TLS files; [missing f] is
    [os.IsNotExist] of the error of [os.Stat(f)]. *)
Definition check_tls (missing : string → bool) (t : TLSConfig) : option error :=
  if TLSEnabled t then
    if String.eqb (CertFile t) "" then Some ErrCertRequired
    else if String.eqb (KeyFile t) "" then Some ErrKeyRequired
    else if missing (CertFile t) then Some (ErrCertMissing (CertFile t))
    else if missing (KeyFile t) then Some (ErrKeyMissing (KeyFile t))
    else None
  else None.

Definition check_rest (c : Config) : option error :=
  if Interval (HealthCheck c) <=? 0 then Some ErrInterval
  else if Timeout (HealthCheck c) <=? 0 then Some ErrTimeout
  else if FailureThreshold (HealthCheck c) <=? 0 then Some ErrThreshold
  else if RecoveryInterval (HealthCheck c) <=? 0 then Some ErrRecovery
  else if TTL (CacheCfg c) <? 0 then Some ErrTTL
  else if RequestsPerMinute (RateLimitCfg c) <=? 0 then Some ErrRequestsPerMinute
  else if Burst (RateLimitCfg c) <=? 0 then Some ErrBurst
  else None.

(** [Validate]: [None] is the [nil] error. *)
Definition Validate (missing : string → bool) (c : Config) : option error :=
  if String.eqb (Host (Server c)) "" then Some ErrHostEmpty
  else if (HTTPPort (Server c) <=? 0) || (65535 <? HTTPPort (Server c))
  then Some (ErrHTTPPort (HTTPPort (Server c)))
  else if (HTTPSPort (Server c) <=? 0) || (65535 <? HTTPSPort (Server c))
  then Some (ErrHTTPSPort (HTTPSPort (Server c)))
  else if TLSEnabled (TLS c) && (HTTPPort (Server c) =? HTTPSPort (Server c))
  then Some ErrSamePorts
  else if Nat.eqb (length (Backends c)) 0 then Some ErrNoBackends
  else
    match check_backends 0 (Backends c) with
    | Some e => Some e
    | None =>
        match check_tls missing (TLS c) with
        | Some e => Some e
        | None => check_rest c
        end
    end.

Definition or_default (x d : Z) : Z := if x =? 0 then d else x.
Definition or_default_string (x d : string) : string :=
  if String.eqb x "" then d else x.

Definition setDefaults (c : Config) : Config :=
  {| Server :=
       {| Port := Port (Server c); Host := Host (Server c);
          HTTPPort := or_default (HTTPPort (Server c)) 8080;
          HTTPSPort := or_default (HTTPSPort (Server c)) 8443;
          ReadTimeout := or_default (ReadTimeout (Server c)) (10 * second);
          WriteTimeout := or_default (WriteTimeout (Server c)) (10 * second) |};
     TLS := TLS c;
     Backends := Backends c;
     HealthCheck :=
       {| Interval := or_default (Interval (HealthCheck c)) (5 * second);
          Timeout := or_default (Timeout (HealthCheck c)) (2 * second);
          Endpoint := or_default_string (Endpoint (HealthCheck c)) "/healthz";
          FailureThreshold := or_default (FailureThreshold (HealthCheck c)) 3;
          RecoveryInterval := or_default (RecoveryInterval (HealthCheck c)) (15 * second) |};
     CacheCfg :=
       {| CacheEnabled := CacheEnabled (CacheCfg c);
          TTL := or_default (TTL (CacheCfg c)) (60 * second) |};
     RateLimitCfg :=
       {| RateLimitEnabled := RateLimitEnabled (RateLimitCfg c);
          RequestsPerMinute := or_default (RequestsPerMinute (RateLimitCfg c)) 600;
          Burst := or_default (Burst (RateLimitCfg c)) 100 |};
     Logging :=
       {| Level := or_default_string (Level (Logging c)) "info";
          Format := or_default_string (Format (Logging c)) "json" |} |}.

Inductive load_error :=
| ErrRead
| ErrParse
| ErrValidation (e : error).

Inductive loaded :=
| Loaded (c : Config)
| LoadFailed (e : load_error).

(** [Load]; [file] is what [os.ReadFile] and [yaml.Unmarshal] make of
    the path: nothing when the file cannot be read, no configuration
    when it does not parse. *)
Definition Load (missing : string → bool) (file : option (option Config)) : loaded :=
  match file with
  | None => LoadFailed ErrRead
  | Some None => LoadFailed ErrParse
  | Some (Some cfg) =>
      match Validate missing cfg with
      | Some e => LoadFailed (ErrValidation e)
      | None => Loaded (setDefaults cfg)
      end
  end.

End Config.

(** ** internal/proxy: the middleware, the forwarded headers, the server *)

Module Middleware.

Import Balancer Proxy.

Definition StatusTooManyRequests : Z := 429.

Section Chain.
Context {B : Type} `{RateLimit.TokenBucket B}.

(** The middleware; its cache is the cache of the handler ([NewServer]
    gives the same pointer to both), so it is read from there. *)
Record Middleware := mkMiddleware {
  limiter : option (RateLimit.Limiter B);
  cacheEnabled : bool
}.

(** The handler returned by [Chain(next)], with [next] the dispatcher.
    [ip] is [getClientIP(r)]; [tAllow], [tGet] and [tSet] are the
    readings of the clock in [Allow], in [Get] and in [Set]. *)
Definition Chain (tAllow tGet tSet : Z) (ip : string) (upstream : nat → exchange)
    (m : Middleware) (h : Handler) (r : Request) : Reply * (Middleware * Handler) :=
  let '(allowed, m1) :=
    match limiter m with
    | None => (true, m)
    | Some l =>
        let '(ok, l') := RateLimit.Allow tAllow l ip in
        (ok, {| limiter := Some l'; cacheEnabled := cacheEnabled m |})
    end in
  if negb allowed
  then ({| status := StatusTooManyRequests; body := text "Rate limit exceeded" |}, (m1, h))
  else
    let hit :=
      if cacheEnabled m && String.eqb (Method r) "GET"
      then Cache.Get tGet (cache h) (getCacheKey r)
      else None in
    match hit with
    | Some (cachedData, _) => ({| status := StatusOK; body := cachedData |}, (m1, h))
    | None =>
        let '(reply, h') := ServeHTTP tSet upstream h r in
        (reply, (m1, h'))
    end.

End Chain.

Arguments Middleware : clear implicits.

End Middleware.

Module Forward.

(** What [copyHeader] and [setProxyHeaders] read of the incoming
    request; [ClientIP] is [getClientIP(r)]. Header names are in the
    canonical form in which the server stores them, so that [Add] and
    [Set] use them as they are. *)
Record Incoming := mkIncoming {
  Header : Cache.http_Header;
  Host : string;
  TLS : bool;                   (* [r.TLS != nil] *)
  ClientIP : string;
  RawPath : string
}.

(** The upstream request as far as these functions write it. *)
Record Outgoing := mkOutgoing {
  OutHeader : Cache.http_Header;
  OutRawPath : string
}.

Definition header_Add (h : Cache.http_Header) (k v : string) : Cache.http_Header :=
  <[k := default [] (h !! k) ++ [v]]> h.

Definition header_Set (h : Cache.http_Header) (k v : string) : Cache.http_Header :=
  <[k := [v]]> h.

(** The inner loop of [copyHeader]. *)
Definition add_values (k : string) (vv : list string) (dst : Cache.http_Header)
  : Cache.http_Header :=
  fold_left (λ d v, header_Add d k v) vv dst.

Definition copyHeader (dst src : Cache.http_Header) : Cache.http_Header :=
  map_fold add_values dst src.

Definition getScheme (r : Incoming) : string := if TLS r then "https" else "http".

Definition setProxyHeaders (originalReq : Incoming) (proxyReq : Outgoing) : Outgoing :=
  let h1 := header_Set (OutHeader proxyReq) "X-Forwarded-For" (ClientIP originalReq) in
  let h2 := header_Set h1 "X-Forwarded-Host" (Host originalReq) in
  let h3 := header_Set h2 "X-Forwarded-Proto" (getScheme originalReq) in
  let h4 := if negb (String.eqb (Host originalReq) "")
            then header_Set h3 "X-Forwarded-Server" (Host originalReq) else h3 in
  {| OutHeader := h4;
     OutRawPath := if negb (String.eqb (RawPath originalReq) "")
                   then RawPath originalReq else OutRawPath proxyReq |}.

(** The headers of the upstream request as [ServeHTTP] builds them: the
    new request has no header, the client's are copied, the forwarding
    headers are set. *)
Definition forwarded (r : Incoming) (rawPath : string) : Outgoing :=
  setProxyHeaders r {| OutHeader := copyHeader ∅ (Header r); OutRawPath := rawPath |}.

End Forward.

Module Server.

Import Balancer.

(** The loop of [NewServer] over the configured backends. *)
Definition build_balancer (backends : list Config.BackendConfig) : SRR :=
  fold_left
    (λ b backendCfg,
       AddBackend b (NewBackend (Config.BackendURL backendCfg)
                                (Config.BackendWeight backendCfg)))
    backends NewSRR.

Section NewServer.
Context {B : Type} `{RateLimit.TokenBucket B}.

(** What [NewServer] builds. The health checker is absent when the
    interval is not positive (the source then keeps a zero [Checker]);
    the cleanup manager holds its interval and its idle timeout. *)
Record Server := mkServer {
  handler : Proxy.Handler;
  middleware : Middleware.Middleware B;
  healthChecker : option Health.Checker;
  cleanupManager : option (Z * Z)
}.

Definition NewServer (cfg : Config.Config) : Server :=
  let b := build_balancer (Config.Backends cfg) in
  let c := Cache.NewCache (Config.TTL (Config.CacheCfg cfg)) in
  let limiter :=
    if Config.RateLimitEnabled (Config.RateLimitCfg cfg)
    then Some (RateLimit.NewLimiter (Config.RequestsPerMinute (Config.RateLimitCfg cfg))
                                    (Config.Burst (Config.RateLimitCfg cfg)))
    else None in
  {| handler := {| Proxy.balancer := b; Proxy.cache := c;
                   Proxy.cacheEnabled := Config.CacheEnabled (Config.CacheCfg cfg) |};
     middleware := {| Middleware.limiter := limiter;
                      Middleware.cacheEnabled := Config.CacheEnabled (Config.CacheCfg cfg) |};
     healthChecker :=
       if 0 <? Config.Interval (Config.HealthCheck cfg)
       then Some (Health.NewChecker (Config.FailureThreshold (Config.HealthCheck cfg))
                                    (Config.RecoveryInterval (Config.HealthCheck cfg)))
       else None;
     cleanupManager :=
       match limiter with
       | Some _ => Some (5 * 60 * Config.second, 5 * 60 * Config.second)
       | None => None
       end |}.

End NewServer.

Arguments Server : clear implicits.

End Server.

(** * Predicates used in the statements *)

Module Specs.

(** The state of the checker and of a backend after [n] probes that all
    ended in an error before any response. *)
Definition after_errors (th ri : Z) (url : string) (n : Z) (st : Health.State) : Prop :=
  Health.mu (Health.chk st) = false ∧ Health.failureThreshold (Health.chk st) = th ∧
  Health.recoveryInterval (Health.chk st) = ri ∧
  Health.lastCheck (Health.chk st) = ∅ ∧ Balancer.URL (Health.be st) = url ∧
  Health.failure_count (Health.chk st) url = n ∧ (Balancer.IsHealthy (Health.be st) = true ↔ n < th).

(** What [Validate] asks of a backend of the configuration. *)
Definition backend_ok (b : Config.BackendConfig) : Prop :=
  Config.BackendURL b ≠ "" ∧ 0 < Config.BackendWeight b.

(** What [Validate] asks of the TLS section. *)
Definition tls_ok (missing : string → bool) (t : Config.TLSConfig) : Prop :=
  Config.TLSEnabled t = true →
  Config.CertFile t ≠ "" ∧ Config.KeyFile t ≠ "" ∧
  missing (Config.CertFile t) = false ∧ missing (Config.KeyFile t) = false.

(** All the conditions of [Validate] together. *)
Definition valid (missing : string → bool) (c : Config.Config) : Prop :=
  Config.Host (Config.Server c) ≠ "" ∧
  0 < Config.HTTPPort (Config.Server c) <= 65535 ∧
  0 < Config.HTTPSPort (Config.Server c) <= 65535 ∧
  (Config.TLSEnabled (Config.TLS c) = true →
   Config.HTTPPort (Config.Server c) ≠ Config.HTTPSPort (Config.Server c)) ∧
  Config.Backends c ≠ [] ∧
  Forall backend_ok (Config.Backends c) ∧
  tls_ok missing (Config.TLS c) ∧
  0 < Config.Interval (Config.HealthCheck c) ∧
  0 < Config.Timeout (Config.HealthCheck c) ∧
  0 < Config.FailureThreshold (Config.HealthCheck c) ∧
  0 < Config.RecoveryInterval (Config.HealthCheck c) ∧
  0 <= Config.TTL (Config.CacheCfg c) ∧
  0 < Config.RequestsPerMinute (Config.RateLimitCfg c) ∧
  0 < Config.Burst (Config.RateLimitCfg c).

(** A configuration file that names two backends and leaves the
    timeouts, the endpoint, the TTL and the logging section out. *)
Definition sample_config : Config.Config :=
  Config.mkConfig
    (Config.mkServerConfig 0 "0.0.0.0" 8080 8443 0 0)
    (Config.mkTLSConfig false "" "")
    [Config.mkBackendConfig "http://a" 1; Config.mkBackendConfig "http://b" 2]
    (Config.mkHealthCheckConfig (5 * Config.second) (2 * Config.second) "" 3
       (15 * Config.second))
    (Config.mkCacheConfig true 0)
    (Config.mkRateLimitConfig true 600 100)
    (Config.mkLoggingConfig "" "").

(** The values that [copyHeader] leaves under a key of the source: a
    key without values is not created. *)
Definition copied (vv : option (list string)) : option (list string) :=
  match vv with
  | Some (v :: rest) => Some (v :: rest)
  | _ => None
  end.

(** The healthy backends of a pool, in the order of the pool, and the
    position that the backend at position [i] has among them. *)
Definition healthy_part (s : Balancer.SRR) : Balancer.SRR :=
  filter (λ b, Balancer.IsHealthy b = true) s.

Definition rank (s : Balancer.SRR) (i : nat) : nat := length (healthy_part (take i s)).

Definition relabel (f : nat → nat) (r : Balancer.outcome) : Balancer.outcome :=
  match r with
  | Balancer.Selected i => Balancer.Selected (f i)
  | Balancer.Failed e => Balancer.Failed e
  end.

(** The running maximum over the pool and over its healthy part agree,
    up to the renumbering of the positions. *)
Definition same_best (f : nat → nat) (best best' : option (nat * Z)) : Prop :=
  match best, best' with
  | None, None => True
  | Some (j, v), Some (j', v') => v' = v ∧ j' = f j
  | _, _ => False
  end.

(** The sum of the absolute values of the weights of a pool, the same
    for the backends that a sequence of operations adds, and the number
    of [NextBackend] calls in it. *)
Definition abs_weight (s : Balancer.SRR) : Z :=
  Balancer.sumZ (Z.abs <$> (Balancer.Weight <$> s)).

Definition added_weight (ops : list Balancer.op) : Z :=
  Balancer.sumZ
    ((λ o, match o with Balancer.OpAdd _ weight => Z.abs weight | _ => 0 end) <$> ops).

Definition next_calls (ops : list Balancer.op) : Z :=
  Balancer.sumZ ((λ o, match o with Balancer.OpNext => 1 | _ => 0 end) <$> ops).

(** The limiter of the middleware, if there is one, lets the request
    of [ip] at [tAllow] through. *)
Definition lets_through {B : Type} `{RateLimit.TokenBucket B} (tAllow : Z) (ip : string)
    (m : Middleware.Middleware B) : Prop :=
  match Middleware.limiter m with
  | None => True
  | Some l => fst (RateLimit.Allow tAllow l ip) = true
  end.

End Specs.

(** * Properties *)

Import Balancer.

(** ** Go integers *)

Section GoIntFacts.
Import GoInt.

Lemma wrap_in_range z : in_range z → wrap z = z.
Proof.
  unfold in_range, min_int, max_int, wrap. intros H.
  rewrite Z.mod_small by lia. lia.
Qed.

Lemma wrap_range z : in_range (wrap z).
Proof.
  unfold in_range, min_int, max_int, wrap.
  pose proof (Z.mod_pos_bound (z + 2 ^ 63) (2 ^ 64) ltac:(lia)). lia.
Qed.

Lemma wrap_mod z : wrap z mod 2 ^ 64 = z mod 2 ^ 64.
Proof.
  unfold wrap.
  rewrite Zminus_mod, Z.mod_mod by lia.
  rewrite <- Zminus_mod. f_equal. lia.
Qed.

Lemma wrap_congr a b : a mod 2 ^ 64 = b mod 2 ^ 64 → wrap a = wrap b.
Proof.
  intros H. unfold wrap.
  rewrite (Zplus_mod a), (Zplus_mod b), H. reflexivity.
Qed.

Lemma wrap_add_l a b : wrap (wrap a + b) = wrap (a + b).
Proof.
  apply wrap_congr. rewrite Zplus_mod, wrap_mod, <- Zplus_mod. reflexivity.
Qed.

Lemma saturate_in_range z : in_range z → saturate z = z.
Proof.
  unfold in_range, saturate. intros H.
  destruct (Z.ltb_spec z min_int); [lia|].
  destruct (Z.ltb_spec max_int z); lia.
Qed.

End GoIntFacts.

(** ** The two loops of [NextBackend] *)

Section Loops.

Lemma accumulate_spec bs t :
  accumulate bs t = (healthy_total bs t, bump_healthy <$> bs).
Proof.
  revert t. induction bs as [|b rest IH]; intros t; simpl; [reflexivity|].
  unfold bump_healthy at 1.
  destruct (IsHealthy b); simpl; rewrite IH; reflexivity.
Qed.

Lemma pick_best_None bs i best :
  pick_best bs i best = None ↔ best = None ∧ Forall (λ b, IsHealthy b = false) bs.
Proof.
  revert i best. induction bs as [|b rest IH]; intros i best; simpl.
  - split; [intros ->; split; constructor | intros [-> _]; reflexivity].
  - destruct (IsHealthy b) eqn:Hb; simpl.
    + split.
      * intros H. destruct best as [[k0 v0]|].
        -- destruct (v0 <? CurrentWeight b); apply IH in H as [H _]; discriminate.
        -- apply IH in H as [H _]; discriminate.
      * intros [_ H]. inversion H; congruence.
    + rewrite IH. split; intros [H1 H2]; split; auto.
      inversion H2; assumption.
Qed.

Lemma pick_best_Some bs i best k v :
  pick_best bs i best = Some (k, v) →
  (best = Some (k, v) ∨
   ∃ b, (i ≤ k)%nat ∧ bs !! (k - i)%nat = Some b ∧ IsHealthy b = true ∧ CurrentWeight b = v)
  ∧ (∀ b, b ∈ bs → IsHealthy b = true → CurrentWeight b ≤ v)
  ∧ (∀ k0 v0, best = Some (k0, v0) → v0 ≤ v).
Proof.
  revert i best. induction bs as [|b rest IH]; intros i best; simpl.
  - intros ->. split; [left; reflexivity|]. split.
    + intros b Hb. inversion Hb.
    + intros k0 v0 [= -> ->]. lia.
  - assert (Hshift : ∀ b', (S i ≤ k)%nat → rest !! (k - S i)%nat = Some b' →
                        (b :: rest) !! (k - i)%nat = Some b').
    { intros b' Hle Hl. replace (k - i)%nat with (S (k - S i)) by lia. exact Hl. }
    destruct (IsHealthy b) eqn:Hb; simpl.
    + destruct best as [[k0 v0]|].
      * destruct (Z.ltb_spec v0 (CurrentWeight b)) as [Hlt|Hge]; intros H;
          apply IH in H as (Hsrc & Hmax & Hbest).
        -- split; [|split].
           ++ right. destruct Hsrc as [[= <- <-]|(b' & Hle & Hl & Hh & Hv)].
              ** exists b. rewrite Nat.sub_diag. auto.
              ** exists b'. split; [lia|]. eauto.
           ++ intros b' Hin Hh. apply elem_of_cons in Hin as [->|Hin]; [|eauto].
              eapply Hbest; reflexivity.
           ++ intros ? ? [= <- <-]. specialize (Hbest _ _ eq_refl). lia.
        -- split; [|split].
           ++ destruct Hsrc as [Heq|(b' & Hle & Hl & Hh & Hv)]; [left; assumption|].
              right. exists b'. split; [lia|]. eauto.
           ++ intros b' Hin Hh. apply elem_of_cons in Hin as [->|Hin]; [|eauto].
              specialize (Hbest _ _ eq_refl). lia.
           ++ exact Hbest.
      * intros H. apply IH in H as (Hsrc & Hmax & Hbest).
        split; [|split].
        -- right. destruct Hsrc as [[= <- <-]|(b' & Hle & Hl & Hh & Hv)].
           ++ exists b. rewrite Nat.sub_diag. auto.
           ++ exists b'. split; [lia|]. eauto.
        -- intros b' Hin Hh. apply elem_of_cons in Hin as [->|Hin]; [|eauto].
           eapply Hbest; reflexivity.
        -- intros ? ? [=].
    + intros H. apply IH in H as (Hsrc & Hmax & Hbest).
      split; [|split].
      * destruct Hsrc as [Heq|(b' & Hle & Hl & Hh & Hv)]; [left; assumption|].
        right. exists b'. split; [lia|]. eauto.
      * intros b' Hin Hh. apply elem_of_cons in Hin as [->|Hin]; [congruence|eauto].
      * exact Hbest.
Qed.

(** What a call does when it selects a backend, and when it fails. *)
Lemma NextBackend_Selected s k s' :
  NextBackend s = (Selected k, s') →
  let s1 := bump_healthy <$> s in
  let total := healthy_total s 0 in
  total ≠ 0 ∧ s' = alter (charge total) k s1 ∧
  ∃ b, s1 !! k = Some b ∧ IsHealthy b = true ∧
       ∀ b', b' ∈ s1 → IsHealthy b' = true → CurrentWeight b' ≤ CurrentWeight b.
Proof.
  unfold NextBackend. destruct s as [|b0 rest]; [discriminate|].
  rewrite accumulate_spec.
  destruct (Z.eqb_spec (healthy_total (b0 :: rest) 0) 0) as [|Hne]; [discriminate|].
  destruct (pick_best _ _ _) as [[i v]|] eqn:Hp; [|discriminate].
  intros H. injection H as <- <-. simpl. split; [exact Hne|]. split; [reflexivity|].
  apply pick_best_Some in Hp as (Hsrc & Hmax & _).
  destruct Hsrc as [|(b & _ & Hl & Hh & Hv)]; [discriminate|].
  rewrite Nat.sub_0_r in Hl. exists b. subst v. auto.
Qed.

Lemma NextBackend_Failed s e s' :
  NextBackend s = (Failed e, s') →
  e = ErrNoHealthyBackends ∧ s' = bump_healthy <$> s ∧
  (healthy_total s 0 = 0 ∨ Forall (λ b, IsHealthy b = false) s).
Proof.
  destruct e. unfold NextBackend. destruct s as [|b0 rest].
  - intros [= <-]. split; [reflexivity|]. split; [reflexivity|]. right. constructor.
  - rewrite accumulate_spec.
    destruct (Z.eqb_spec (healthy_total (b0 :: rest) 0) 0) as [Hz|Hne].
    + intros [= <-]. auto.
    + destruct (pick_best _ _ _) as [[i v]|] eqn:Hp; [discriminate|].
      intros [= <-]. split; [reflexivity|]. split; [reflexivity|]. right.
      apply pick_best_None in Hp as [_ Hall].
      rewrite Forall_fmap in Hall. eapply Forall_impl; [exact Hall|].
      intros b. unfold bump_healthy, compose. simpl.
      destruct (IsHealthy b) eqn:Hb; [|auto].
      unfold IsHealthy, bump in *. simpl. congruence.
Qed.

End Loops.

(** ** Frame conditions of the liveness flag *)

Section Frame.

Lemma fmap_alter_frame {A B} (f : A → B) (g : A → A) i (l : list A) :
  (∀ x, f (g x) = f x) → f <$> alter g i l = f <$> l.
Proof.
  intros Hfg. apply list_eq. intros j. rewrite !list_lookup_fmap.
  destruct (decide (i = j)) as [->|Hne].
  - rewrite list_lookup_alter_eq. destruct (l !! j); simpl; [|reflexivity].
    rewrite Hfg. reflexivity.
  - rewrite list_lookup_alter_ne by exact Hne. reflexivity.
Qed.

Lemma SRR_SetHealthy_frame s url h :
  let s' := snd (SRR_SetHealthy s url h) in
  URL <$> s' = URL <$> s ∧ Weight <$> s' = Weight <$> s ∧
  CurrentWeight <$> s' = CurrentWeight <$> s.
Proof.
  induction s as [|b rest IH]; simpl; [auto|].
  destruct (String.eqb (URL b) url); simpl; [auto|].
  destruct (SRR_SetHealthy rest url h) as [r rest'] eqn:E. simpl in *.
  destruct IH as (IH1 & IH2 & IH3).
  repeat split; f_equal; assumption.
Qed.

Lemma SRR_SetHealthy_other s url h i b :
  s !! i = Some b → URL b ≠ url → snd (SRR_SetHealthy s url h) !! i = Some b.
Proof.
  revert i. induction s as [|b0 rest IH]; intros i Hi Hne; [discriminate|].
  simpl. destruct (String.eqb_spec (URL b0) url) as [Heq|Hneq]; simpl.
  - destruct i as [|i]; simpl in *; [|exact Hi]. congruence.
  - destruct (SRR_SetHealthy rest url h) as [r rest'] eqn:E. simpl in *.
    destruct i as [|i]; simpl in *; [exact Hi|]. apply IH; assumption.
Qed.

Lemma bump_healthy_unhealthy b : IsHealthy b = false → bump_healthy b = b.
Proof. unfold bump_healthy. intros ->. reflexivity. Qed.

Lemma bump_healthy_fields b :
  URL (bump_healthy b) = URL b ∧ Weight (bump_healthy b) = Weight b ∧
  IsHealthy (bump_healthy b) = IsHealthy b.
Proof. unfold bump_healthy. destruct (IsHealthy b) eqn:E; simpl; auto. Qed.

Lemma NextBackend_unhealthy_frame s i b :
  s !! i = Some b → IsHealthy b = false → snd (NextBackend s) !! i = Some b.
Proof.
  intros Hl Hb.
  assert (H1 : (bump_healthy <$> s) !! i = Some b).
  { rewrite list_lookup_fmap, Hl. simpl. f_equal. apply bump_healthy_unhealthy, Hb. }
  destruct (NextBackend s) as [[k|e] s'] eqn:E; simpl.
  - apply NextBackend_Selected in E as (_ & -> & bk & Hk & Hh & _).
    destruct (decide (k = i)) as [->|Hne]; [congruence|].
    rewrite list_lookup_alter_ne by exact Hne. exact H1.
  - apply NextBackend_Failed in E as (_ & -> & _). exact H1.
Qed.

End Frame.

(** C6. [SetHealthy] on a backend, directly or through the balancer's
    [SetHealthy] by URL, changes only the [Healthy] flag: the URL, the
    weight and the current weight of every backend of the pool stay as
    they are, and a backend with another URL is not touched at all; and
    [NextBackend] leaves a backend that is not healthy exactly as it is,
    so that it keeps its current weight until it recovers. *)
Theorem SetHealthy_changes_only_Healthy :
  (∀ b h, URL (SetHealthy h b) = URL b ∧ Weight (SetHealthy h b) = Weight b ∧
          CurrentWeight (SetHealthy h b) = CurrentWeight b ∧
          IsHealthy (SetHealthy h b) = h) ∧
  (∀ s url h, URL <$> snd (SRR_SetHealthy s url h) = URL <$> s ∧
              Weight <$> snd (SRR_SetHealthy s url h) = Weight <$> s ∧
              CurrentWeight <$> snd (SRR_SetHealthy s url h) = CurrentWeight <$> s) ∧
  (∀ s url h i b, s !! i = Some b → URL b ≠ url →
                  snd (SRR_SetHealthy s url h) !! i = Some b) ∧
  (∀ s i b, s !! i = Some b → IsHealthy b = false →
            snd (NextBackend s) !! i = Some b).
Proof.
  split; [|split; [|split]].
  - intros b h. simpl. auto.
  - intros s url h. apply SRR_SetHealthy_frame.
  - apply SRR_SetHealthy_other.
  - apply NextBackend_unhealthy_frame.
Qed.

(** A pool whose second backend was taken out with a current weight of
    its own keeps that weight over a call and over its recovery. *)
Lemma SetHealthy_changes_only_Healthy_witness :
  let s := [mkBackend "A" 1 (-2) true; mkBackend "B" 2 4 false] in
  snd (NextBackend s) !! 1%nat = Some (mkBackend "B" 2 4 false) ∧
  CurrentWeight <$> snd (SRR_SetHealthy s "B" true) = [-2; 4].
Proof.
  split.
  - apply (proj2 (proj2 (proj2 SetHealthy_changes_only_Healthy))); reflexivity.
  - rewrite (proj2 (proj2 (proj1 (proj2 SetHealthy_changes_only_Healthy) _ _ _))).
    reflexivity.
Defined.

(** ** Liveness of [NextBackend] *)

Section Liveness.
Import GoInt.

Lemma healthy_total_unhealthy s t :
  Forall (λ b, IsHealthy b = false) s → healthy_total s t = t.
Proof.
  intros H. revert t. induction H as [|b rest Hb _ IH]; intros t; simpl; [reflexivity|].
  rewrite Hb. apply IH.
Qed.

Lemma sumZ_nonneg l : Forall (λ x, 0 <= x) l → 0 <= sumZ l.
Proof. induction 1; simpl; lia. Qed.

Lemma healthy_weights_nonneg s :
  Forall (λ b, 0 <= Weight b) s →
  0 <= sumZ (Weight <$> filter (λ b, IsHealthy b = true) s).
Proof.
  induction 1 as [|b rest Hb _ IH]; simpl; [lia|].
  rewrite filter_cons. destruct (decide (IsHealthy b = true)); [|exact IH].
  rewrite fmap_cons. simpl. lia.
Qed.

(** Without wrap-around the total is the sum of the healthy weights. *)
Lemma healthy_total_exact s t :
  Forall (λ b, 0 <= Weight b) s → 0 <= t →
  t + sumZ (Weight <$> filter (λ b, IsHealthy b = true) s) <= max_int →
  healthy_total s t = t + sumZ (Weight <$> filter (λ b, IsHealthy b = true) s).
Proof.
  intros Hw. revert t. induction Hw as [|b rest Hb Hrest IH]; intros t Ht Hmax; simpl.
  - lia.
  - rewrite filter_cons in Hmax |- *.
    pose proof (healthy_weights_nonneg rest Hrest) as Hnn.
    destruct (decide (IsHealthy b = true)) as [Hh|Hh].
    + rewrite Hh. rewrite fmap_cons in Hmax |- *. simpl in Hmax |- *.
      unfold add. rewrite wrap_in_range by (unfold in_range, min_int, max_int in *; lia).
      rewrite IH by lia. lia.
    + apply not_true_is_false in Hh. rewrite Hh. apply IH; assumption.
Qed.

Lemma NextBackend_returns_healthy s :
  healthy_total s 0 ≠ 0 →
  ∃ i b, fst (NextBackend s) = Selected i ∧ s !! i = Some b ∧ IsHealthy b = true.
Proof.
  intros Hne. destruct (NextBackend s) as [[k|e] s'] eqn:E; simpl.
  - apply NextBackend_Selected in E as (_ & _ & b1 & Hk & Hh & _).
    rewrite list_lookup_fmap in Hk.
    destruct (s !! k) as [b|] eqn:Hl; [|discriminate].
    injection Hk as <-. exists k, b. split; [reflexivity|]. split; [exact Hl|].
    destruct (bump_healthy_fields b) as (_ & _ & <-). exact Hh.
  - apply NextBackend_Failed in E as (_ & _ & [Hz|Hall]); [contradiction|].
    rewrite healthy_total_unhealthy in Hne by exact Hall. contradiction.
Qed.

Lemma NextBackend_fails s :
  healthy_total s 0 = 0 ∨ Forall (λ b, IsHealthy b = false) s →
  fst (NextBackend s) = Failed ErrNoHealthyBackends.
Proof.
  intros H.
  assert (Hz : healthy_total s 0 = 0).
  { destruct H as [H|H]; [exact H|]. apply healthy_total_unhealthy, H. }
  destruct (NextBackend s) as [[k|e] s'] eqn:E; simpl.
  - apply NextBackend_Selected in E as (Hne & _). contradiction.
  - destruct e. reflexivity.
Qed.

End Liveness.

(** C2, as the code has it. [NextBackend] returns a backend that is
    healthy whenever the total weight of the healthy backends, as the
    first loop computes it, is not zero; that is the case as soon as one
    backend is healthy, the weights are positive and their sum is an
    [int]. When no backend is healthy (the empty pool included) or that
    total is zero, it returns the error value [ErrNoHealthyBackends], and
    the dispatcher then answers 503. *)
Theorem NextBackend_liveness (s : SRR) :
  (healthy_total s 0 ≠ 0 →
   ∃ i b, fst (NextBackend s) = Selected i ∧ s !! i = Some b ∧ IsHealthy b = true) ∧
  (Exists (λ b, IsHealthy b = true) s → Forall (λ b, 0 < Weight b) s →
   sumZ (Weight <$> filter (λ b, IsHealthy b = true) s) <= GoInt.max_int →
   healthy_total s 0 ≠ 0) ∧
  (healthy_total s 0 = 0 ∨ Forall (λ b, IsHealthy b = false) s →
   fst (NextBackend s) = Failed ErrNoHealthyBackends ∧
   ∀ now upstream c enabled r,
     Proxy.status (fst (Proxy.ServeHTTP now upstream (Proxy.mkHandler s c enabled) r))
     = Proxy.StatusServiceUnavailable).
Proof.
  split; [apply NextBackend_returns_healthy|]. split.
  - intros Hex Hpos Hmax Hz.
    rewrite healthy_total_exact in Hz.
    + assert (0 < sumZ (Weight <$> filter (λ b, IsHealthy b = true) s)); [|lia].
      clear Hmax Hz. induction Hpos as [|b rest Hb Hrest IH]; [inversion Hex|].
      rewrite filter_cons.
      assert (Hnn : 0 <= sumZ (Weight <$> filter (λ b, IsHealthy b = true) rest)).
      { apply healthy_weights_nonneg.
        eapply Forall_impl; [exact Hrest|]. intros x Hx. simpl in Hx. lia. }
      destruct (decide (IsHealthy b = true)) as [Hh|Hh].
      * rewrite fmap_cons. simpl. lia.
      * apply IH. inversion Hex; [contradiction|assumption].
    + eapply Forall_impl; [exact Hpos|]. intros x Hx. simpl in Hx. lia.
    + lia.
    + lia.
  - intros H. pose proof (NextBackend_fails s H) as Hf. split; [exact Hf|].
    intros now upstream c enabled r. unfold Proxy.ServeHTTP. simpl.
    destruct (NextBackend s) as [[k|e] s'] eqn:E; simpl in *; [discriminate|reflexivity].
Qed.

Lemma NextBackend_liveness_witness :
  (∃ i b, fst (NextBackend poolABC) = Selected i ∧ poolABC !! i = Some b ∧
          IsHealthy b = true) ∧
  fst (NextBackend [mkBackend "A" 1 0 false]) = Failed ErrNoHealthyBackends.
Proof.
  split.
  - apply (proj1 (NextBackend_liveness poolABC)). vm_compute. discriminate.
  - apply (proj2 (proj2 (NextBackend_liveness [mkBackend "A" 1 0 false]))).
    right. repeat constructor.
Defined.

(** A healthy backend whose weight is zero is never returned; neither
    are four healthy backends of weight [2^62], whose total wraps to
    zero. *)
Lemma NextBackend_liveness_counterexample :
  let s := [NewBackend "http://a" 0] in
  let s' := [NewBackend "A" (2 ^ 62); NewBackend "B" (2 ^ 62);
             NewBackend "C" (2 ^ 62); NewBackend "D" (2 ^ 62)] in
  (Exists (λ b, IsHealthy b = true) s ∧
   fst (NextBackend s) = Failed ErrNoHealthyBackends) ∧
  (Forall (λ b, IsHealthy b = true ∧ 0 < Weight b) s' ∧
   fst (NextBackend s') = Failed ErrNoHealthyBackends).
Proof.
  split; (split; [|reflexivity]).
  - left. reflexivity.
  - repeat constructor.
Qed.

(** ** The sum of the current weights *)

Section WeightSum.
Import GoInt.

Lemma wrap_repr z : ∃ k, wrap z = z + k * 2 ^ 64.
Proof.
  exists (- ((z + 2 ^ 63) / 2 ^ 64)). unfold wrap.
  pose proof (Z.div_mod (z + 2 ^ 63) (2 ^ 64) ltac:(lia)). lia.
Qed.

Lemma wrap_multiple k : wrap (k * 2 ^ 64) = 0.
Proof.
  unfold wrap. rewrite Z.add_comm, Z.mod_add by lia.
  rewrite Z.mod_small by lia. lia.
Qed.

Lemma sum_int_wrap l a : in_range a → fold_left add l a = wrap (a + sumZ l).
Proof.
  revert a. induction l as [|x l IH]; intros a Ha; simpl.
  - rewrite Z.add_0_r, wrap_in_range by exact Ha. reflexivity.
  - rewrite IH by apply wrap_range. unfold add.
    rewrite wrap_add_l. f_equal. lia.
Qed.

Lemma sumZ_alter {A} (f : A → Z) (g : A → A) l i x :
  l !! i = Some x →
  sumZ (f <$> alter g i l) = sumZ (f <$> l) - f x + f (g x).
Proof.
  revert i. induction l as [|y l IH]; intros [|i] Hl; try discriminate.
  - injection Hl as ->. simpl. lia.
  - specialize (IH i Hl).
    change (f y + sumZ (f <$> alter g i l) = f y + sumZ (f <$> l) - f x + f (g x)).
    lia.
Qed.

Lemma sumZ_app l1 l2 : sumZ (l1 ++ l2) = sumZ l1 + sumZ l2.
Proof. induction l1 as [|x l1 IH]; simpl; lia. Qed.

(** A sum of small numbers is small. *)
Lemma sumZ_abs_scaled n M l :
  Forall (λ x, Z.of_nat n * Z.abs x < M) l →
  Z.of_nat n * Z.abs (sumZ l) <= Z.of_nat (length l) * (M - 1).
Proof.
  induction 1 as [|x l Hx _ IH]; simpl length; simpl sumZ; [lia|]. nia.
Qed.

Lemma sumZ_abs_small M l :
  0 < M → Forall (λ x, Z.of_nat (length l) * Z.abs x < M) l → Z.abs (sumZ l) < M.
Proof.
  intros HM Hall. pose proof (sumZ_abs_scaled _ _ _ Hall) as H.
  destruct l as [|x l]; [simpl; lia|].
  assert (0 < Z.of_nat (length (x :: l))) by (simpl length; lia). nia.
Qed.

(** The first loop adds to the current weights what it adds to
    [totalWeight], up to wrap-around. *)
Lemma accumulate_sum s t :
  ∃ k, sumZ (CurrentWeight <$> (bump_healthy <$> s)) + t =
       sumZ (CurrentWeight <$> s) + healthy_total s t + k * 2 ^ 64.
Proof.
  revert t. induction s as [|b rest IH]; intros t; simpl.
  - exists 0. lia.
  - unfold bump_healthy at 1. destruct (IsHealthy b); simpl.
    + destruct (IH (add t (Weight b))) as [k Hk].
      destruct (wrap_repr (CurrentWeight b + Weight b)) as [k1 Hk1].
      destruct (wrap_repr (t + Weight b)) as [k2 Hk2].
      unfold add in *. exists (k1 + k - k2). unfold fmap in *. lia.
    + destruct (IH t) as [k Hk]. exists k. unfold fmap in *. lia.
Qed.

Lemma NextBackend_sum s :
  ∃ k, sumZ (CurrentWeight <$> snd (NextBackend s)) =
       sumZ (CurrentWeight <$> s) + k * 2 ^ 64.
Proof.
  destruct (accumulate_sum s 0) as [k0 Hk0].
  destruct (NextBackend s) as [[i|e] s'] eqn:E; simpl.
  - apply NextBackend_Selected in E as (_ & -> & b & Hi & _).
    rewrite (sumZ_alter CurrentWeight _ _ _ _ Hi). simpl.
    destruct (wrap_repr (CurrentWeight b - healthy_total s 0)) as [k1 Hk1].
    unfold sub. exists (k0 + k1). lia.
  - apply NextBackend_Failed in E as (_ & -> & Hz).
    assert (healthy_total s 0 = 0) as Hz'.
    { destruct Hz as [Hz|Hz]; [exact Hz|]. apply healthy_total_unhealthy, Hz. }
    exists k0. lia.
Qed.

Lemma apply_op_sum s o :
  ∃ k, sumZ (CurrentWeight <$> apply_op s o) = sumZ (CurrentWeight <$> s) + k * 2 ^ 64.
Proof.
  destruct o as [url w|url h|i h|]; simpl.
  - exists 0. unfold AddBackend. rewrite fmap_app, sumZ_app. simpl. lia.
  - exists 0. destruct (SRR_SetHealthy_frame s url h) as (_ & _ & ->). lia.
  - exists 0. rewrite fmap_alter_frame by reflexivity. lia.
  - apply NextBackend_sum.
Qed.

Lemma run_sum ops s :
  ∃ k, sumZ (CurrentWeight <$> fold_left apply_op ops s) =
       sumZ (CurrentWeight <$> s) + k * 2 ^ 64.
Proof.
  revert s. induction ops as [|o ops IH]; intros s; simpl.
  - exists 0. lia.
  - destruct (IH (apply_op s o)) as [k1 Hk1].
    destruct (apply_op_sum s o) as [k2 Hk2].
    exists (k1 + k2). lia.
Qed.

End WeightSum.

(** ** The sum of the current weights when nothing wraps *)

Section ExactSum.
Import GoInt Specs.

Lemma abs_weight_cons b (s : SRR) : abs_weight (b :: s) = Z.abs (Weight b) + abs_weight s.
Proof. reflexivity. Qed.

Lemma abs_weight_nonneg (s : SRR) : 0 <= abs_weight s.
Proof. induction s as [|b rest IH]; [reflexivity|]. rewrite abs_weight_cons. lia. Qed.

Lemma abs_weight_lookup (s : SRR) : ∀ k b, s !! k = Some b → Z.abs (Weight b) <= abs_weight s.
Proof.
  induction s as [|a rest IH]; intros [|k] b Hk; try discriminate;
    rewrite abs_weight_cons; pose proof (abs_weight_nonneg rest).
  - injection Hk as ->. lia.
  - specialize (IH k b Hk). lia.
Qed.

Lemma healthy_sum_cons b (s : SRR) :
  sumZ (Weight <$> filter (λ x, IsHealthy x = true) (b :: s))
  = (if IsHealthy b then Weight b else 0)
    + sumZ (Weight <$> filter (λ x, IsHealthy x = true) s).
Proof.
  rewrite filter_cons. destruct (decide (IsHealthy b = true)) as [->|Hn].
  - reflexivity.
  - apply not_true_is_false in Hn. rewrite Hn. lia.
Qed.

Lemma healthy_sum_abs (s : SRR) :
  Z.abs (sumZ (Weight <$> filter (λ x, IsHealthy x = true) s)) <= abs_weight s.
Proof.
  induction s as [|b rest IH]; [cbv; discriminate|].
  rewrite healthy_sum_cons, abs_weight_cons. destruct (IsHealthy b); lia.
Qed.

(** The healthy weights without the one of a healthy backend. *)
Lemma healthy_sum_minus (s : SRR) : ∀ k b,
  s !! k = Some b → IsHealthy b = true →
  Z.abs (sumZ (Weight <$> filter (λ x, IsHealthy x = true) s) - Weight b)
  <= abs_weight s - Z.abs (Weight b).
Proof.
  induction s as [|a rest IH]; intros [|k] b Hk Hb; try discriminate;
    rewrite healthy_sum_cons, abs_weight_cons.
  - injection Hk as ->. rewrite Hb. pose proof (healthy_sum_abs rest). lia.
  - specialize (IH k b Hk Hb). destruct (IsHealthy a); lia.
Qed.

Lemma healthy_total_no_wrap (s : SRR) : ∀ t,
  Z.abs t + abs_weight s <= max_int →
  healthy_total s t = t + sumZ (Weight <$> filter (λ x, IsHealthy x = true) s).
Proof.
  induction s as [|b rest IH]; intros t Ht.
  - simpl. lia.
  - rewrite healthy_sum_cons. rewrite abs_weight_cons in Ht.
    pose proof (abs_weight_nonneg rest). unfold healthy_total in *. simpl.
    destruct (IsHealthy b).
    + unfold add. rewrite wrap_in_range by (unfold in_range, min_int, max_int in *; lia).
      rewrite IH by lia. lia.
    + rewrite IH by lia. lia.
Qed.

Lemma bump_healthy_no_wrap b c W :
  Z.abs (CurrentWeight b) <= c → Z.abs (Weight b) <= W → c + W <= max_int →
  CurrentWeight (bump_healthy b)
  = CurrentWeight b + (if IsHealthy b then Weight b else 0).
Proof.
  intros Hc Hw Hmax. unfold bump_healthy. destruct (IsHealthy b); simpl; [|lia].
  unfold add. apply wrap_in_range. unfold in_range, min_int, max_int in *. lia.
Qed.

Lemma bump_healthy_sum (s : SRR) c W :
  Forall (λ b, Z.abs (CurrentWeight b) <= c ∧ Z.abs (Weight b) <= W) s →
  c + W <= max_int →
  sumZ (CurrentWeight <$> (bump_healthy <$> s))
  = sumZ (CurrentWeight <$> s) + sumZ (Weight <$> filter (λ x, IsHealthy x = true) s).
Proof.
  intros Hall Hmax. induction Hall as [|b rest [Hc Hw] _ IH]; [reflexivity|].
  rewrite healthy_sum_cons, !fmap_cons. simpl sumZ.
  rewrite (bump_healthy_no_wrap b c W Hc Hw Hmax), IH. lia.
Qed.

Lemma bump_healthy_weights (s : SRR) : Weight <$> (bump_healthy <$> s) = Weight <$> s.
Proof.
  rewrite <- list_fmap_compose. apply list_fmap_ext. intros i b _. simpl.
  destruct (bump_healthy_fields b) as (_ & H & _). exact H.
Qed.

Lemma abs_weight_ext (s s' : SRR) : Weight <$> s' = Weight <$> s → abs_weight s' = abs_weight s.
Proof. unfold abs_weight. intros ->. reflexivity. Qed.

(** One call when nothing wraps: the sum of the current weights is
    kept, and no current weight moves by more than the weight of the
    pool. *)
Lemma NextBackend_no_wrap (s : SRR) c W :
  Forall (λ b, Z.abs (CurrentWeight b) <= c) s → abs_weight s <= W →
  c + W <= max_int →
  sumZ (CurrentWeight <$> snd (NextBackend s)) = sumZ (CurrentWeight <$> s) ∧
  Forall (λ b, Z.abs (CurrentWeight b) <= c + W) (snd (NextBackend s)) ∧
  Weight <$> snd (NextBackend s) = Weight <$> s.
Proof.
  intros Hc HW Hmax.
  pose proof (abs_weight_nonneg s) as Hnn.
  assert (Hcw : Forall (λ b, Z.abs (CurrentWeight b) <= c ∧ Z.abs (Weight b) <= W) s).
  { apply Forall_lookup. intros j b Hj. split.
    - exact (proj1 (Forall_lookup _ _) Hc j b Hj).
    - pose proof (abs_weight_lookup s j b Hj). lia. }
  assert (Hcpos : 0 <= c ∨ s = []).
  { destruct s as [|b rest]; [right; reflexivity|left].
    inversion Hc as [|? ? Hb _]; subst. lia. }
  assert (Htot : healthy_total s 0 = sumZ (Weight <$> filter (λ x, IsHealthy x = true) s)).
  { destruct Hcpos as [Hcpos| ->]; [|reflexivity].
    rewrite healthy_total_no_wrap by (simpl; lia). lia. }
  pose proof (bump_healthy_sum s c W Hcw Hmax) as Hsum.
  assert (Hbumped : Forall (λ b, Z.abs (CurrentWeight b) <= c + W) (bump_healthy <$> s)).
  { apply Forall_fmap, Forall_lookup. intros j b Hj. simpl.
    destruct (proj1 (Forall_lookup _ _) Hcw j b Hj) as [Hb Hw].
    rewrite (bump_healthy_no_wrap b c W Hb Hw Hmax). destruct (IsHealthy b); lia. }
  destruct (NextBackend s) as [[k|e] s'] eqn:E; simpl.
  - apply NextBackend_Selected in E as (_ & -> & b1 & Hk & Hh & _).
    rewrite list_lookup_fmap in Hk.
    destruct (s !! k) as [b0|] eqn:Hk0; [|discriminate]. injection Hk as <-.
    destruct (bump_healthy_fields b0) as (_ & Hw0 & Hh0). rewrite Hh0 in Hh.
    destruct (proj1 (Forall_lookup _ _) Hcw k b0 Hk0) as [Hb0 HW0].
    pose proof (bump_healthy_no_wrap b0 c W Hb0 HW0 Hmax) as Hb1. rewrite Hh in Hb1.
    pose proof (healthy_sum_minus s k b0 Hk0 Hh) as Hminus.
    assert (Hsub : sub (CurrentWeight (bump_healthy b0)) (healthy_total s 0)
                   = CurrentWeight (bump_healthy b0) - healthy_total s 0).
    { unfold sub. apply wrap_in_range. unfold in_range, min_int, max_int in *. lia. }
    assert (Hlook : (bump_healthy <$> s) !! k = Some (bump_healthy b0))
      by (rewrite list_lookup_fmap, Hk0; reflexivity).
    split; [|split].
    + rewrite (sumZ_alter CurrentWeight _ _ _ _ Hlook). simpl. rewrite Hsub. lia.
    + apply Forall_alter; [exact Hbumped|]. intros x Hx _.
      rewrite Hlook in Hx. injection Hx as <-. simpl. rewrite Hsub. lia.
    + rewrite fmap_alter_frame by reflexivity. apply bump_healthy_weights.
  - apply NextBackend_Failed in E as (_ & -> & Hz).
    assert (healthy_total s 0 = 0) as Hz'.
    { destruct Hz as [Hz|Hz]; [exact Hz|]. apply healthy_total_unhealthy, Hz. }
    split; [lia|]. split; [exact Hbumped|apply bump_healthy_weights].
Qed.

Lemma added_weight_nonneg ops : 0 <= added_weight ops.
Proof.
  unfold added_weight. induction ops as [|o ops IH]; [reflexivity|].
  rewrite fmap_cons. simpl sumZ. destruct o; lia.
Qed.

Lemma next_calls_nonneg ops : 0 <= next_calls ops.
Proof.
  unfold next_calls. induction ops as [|o ops IH]; [reflexivity|].
  rewrite fmap_cons. simpl sumZ. destruct o; lia.
Qed.

(** A run when nothing wraps. *)
Lemma run_no_wrap ops : ∀ (s : SRR) c W,
  Forall (λ b, Z.abs (CurrentWeight b) <= c) s → 0 <= c →
  abs_weight s + added_weight ops <= W →
  c + next_calls ops * W <= max_int →
  sumZ (CurrentWeight <$> fold_left apply_op ops s) = sumZ (CurrentWeight <$> s).
Proof.
  induction ops as [|o ops IH]; intros s c W Hc Hc0 HW Hmax; [reflexivity|].
  pose proof (abs_weight_nonneg s) as Hs. pose proof (added_weight_nonneg ops) as Ha.
  pose proof (next_calls_nonneg ops) as Hn.
  unfold added_weight, next_calls in HW, Hmax. rewrite fmap_cons in HW, Hmax.
  simpl sumZ in HW, Hmax. fold (added_weight ops) in HW. fold (next_calls ops) in Hmax.
  simpl fold_left. destruct o as [url w|url h|i h|]; simpl apply_op.
  - rewrite (IH _ c W).
    + unfold AddBackend. rewrite fmap_app, sumZ_app. simpl. lia.
    + unfold AddBackend. apply Forall_app. split; [exact Hc|].
      constructor; [simpl; lia|constructor].
    + exact Hc0.
    + unfold AddBackend, abs_weight. rewrite !fmap_app, sumZ_app. simpl.
      fold (abs_weight s). lia.
    + exact Hmax.
  - destruct (SRR_SetHealthy_frame s url h) as (_ & Hw & Hcw).
    rewrite (IH _ c W).
    + rewrite Hcw. reflexivity.
    + apply Forall_lookup. intros j b Hj.
      assert (Hl : (CurrentWeight <$> snd (SRR_SetHealthy s url h)) !! j
                   = Some (CurrentWeight b)) by (rewrite list_lookup_fmap, Hj; reflexivity).
      rewrite Hcw, list_lookup_fmap in Hl.
      destruct (s !! j) as [b0|] eqn:Hj0; [|discriminate]. injection Hl as <-.
      exact (proj1 (Forall_lookup _ _) Hc j b0 Hj0).
    + exact Hc0.
    + rewrite (abs_weight_ext s _ Hw). lia.
    + exact Hmax.
  - rewrite (IH _ c W).
    + rewrite fmap_alter_frame by reflexivity. reflexivity.
    + apply Forall_alter; [exact Hc|]. intros x _ Hx. exact Hx.
    + exact Hc0.
    + rewrite (abs_weight_ext s) by (apply fmap_alter_frame; reflexivity). lia.
    + exact Hmax.
  - assert (HW0 : 0 <= W) by lia.
    destruct (NextBackend_no_wrap s c W Hc ltac:(lia) ltac:(nia)) as (Hsum & Hbound & Hw).
    rewrite (IH _ (c + W) W).
    + exact Hsum.
    + exact Hbound.
    + lia.
    + rewrite (abs_weight_ext s _ Hw). lia.
    + lia.
Qed.

End ExactSum.

(** C9, as the code has it. Starting from the empty balancer, after
    any sequence of [AddBackend] (of a new backend), [SetHealthy] (by
    URL or on a backend) and [NextBackend] in which no [int] operation
    wraps, the sum of the current weights of the pool is zero; nothing
    wraps when the number of [NextBackend] calls times the sum of the
    absolute values of the weights added is at most the greatest [int].
    Without that bound the sum is still a multiple of [2^64], and zero
    when it is added up in Go's [int] arithmetic. *)
Theorem current_weight_sum_zero (ops : list op) :
  (Specs.next_calls ops * Specs.added_weight ops <= GoInt.max_int →
   sumZ (CurrentWeight <$> run ops) = 0) ∧
  sum_int (CurrentWeight <$> run ops) = 0 ∧
  sumZ (CurrentWeight <$> run ops) mod 2 ^ 64 = 0.
Proof.
  destruct (run_sum ops NewSRR) as [k Hk]. simpl in Hk.
  fold (run ops) in Hk. split; [|split].
  - intros Hmax. unfold run.
    rewrite (run_no_wrap ops NewSRR 0 (Specs.added_weight ops)).
    + reflexivity.
    + constructor.
    + lia.
    + change (Specs.abs_weight NewSRR) with 0. lia.
    + lia.
  - unfold sum_int.
    rewrite sum_int_wrap by (unfold GoInt.in_range, GoInt.min_int, GoInt.max_int; lia).
    rewrite Hk. simpl. apply wrap_multiple.
  - rewrite Hk. simpl. apply Z.mod_mul. lia.
Qed.

Lemma current_weight_sum_zero_witness :
  sumZ (CurrentWeight <$> run [OpAdd "A" 5; OpAdd "B" 1; OpNext; OpSetHealthy "B" false;
                               OpNext; OpSetHealthyAt 1 true; OpNext]) = 0.
Proof.
  apply (proj1 (current_weight_sum_zero _)). vm_compute. discriminate.
Defined.

(** Three backends of weight [2^62] and two calls: the total wraps to
    [-2^62], the current weights end as [0], [-2^63] and [-2^63], and
    their sum is [-2^64]. *)
Lemma current_weight_sum_zero_counterexample :
  let ops := [OpAdd "A" (2 ^ 62); OpAdd "B" (2 ^ 62); OpAdd "C" (2 ^ 62); OpNext; OpNext] in
  CurrentWeight <$> run ops = [0; - 2 ^ 63; - 2 ^ 63] ∧
  sumZ (CurrentWeight <$> run ops) = - 2 ^ 64 ∧
  sumZ (CurrentWeight <$> run ops) ≠ 0.
Proof.
  intros ops. split; [vm_compute; reflexivity|]. split; [vm_compute; reflexivity|].
  vm_compute. discriminate.
Qed.

Example weights_after_toggle_example :
  CurrentWeight <$> run [OpAdd "A" 5; OpAdd "B" 1; OpAdd "C" 1; OpNext; OpNext;
                         OpSetHealthy "B" false; OpNext; OpNext; OpNext]
  = [-1; 2; -1].
Proof. vm_compute. reflexivity. Qed.

(** ** Fairness of the smooth weighted round-robin *)

Section Fairness.
Import GoInt.

Lemma sumZ_lower lo l :
  Forall (λ x, lo <= x) l → Z.of_nat (length l) * lo <= sumZ l.
Proof. induction 1 as [|x l Hx _ IH]; simpl length; simpl sumZ; nia. Qed.

Lemma sumZ_upper hi l :
  Forall (λ x, x <= hi) l → sumZ l <= Z.of_nat (length l) * hi.
Proof. induction 1 as [|x l Hx _ IH]; simpl length; simpl sumZ; nia. Qed.

(** An element of a list bounded below is bounded above by the sum. *)
Lemma sumZ_elem_upper lo l x :
  Forall (λ x, lo <= x) l → x ∈ l →
  x <= sumZ l - (Z.of_nat (length l) - 1) * lo.
Proof.
  induction 1 as [|y l Hy Hl IH]; intros Hin; [inversion Hin|].
  pose proof (sumZ_lower lo l Hl) as Hlow.
  apply elem_of_cons in Hin as [->|Hin]; simpl length; simpl sumZ.
  - nia.
  - specialize (IH Hin). nia.
Qed.

Lemma sumZ_zero_nonneg l :
  Forall (λ x, 0 <= x) l → sumZ l = 0 → Forall (λ x, x = 0) l.
Proof.
  induction 1 as [|x l Hx Hl IH]; simpl; intros Hs; [constructor|].
  pose proof (sumZ_nonneg l Hl). constructor; [lia|]. apply IH. lia.
Qed.

Lemma sumZ_zeros l : Forall (λ x, x = 0) l → sumZ l = 0.
Proof. induction 1 as [|x l Hx _ IH]; simpl; lia. Qed.

Lemma filter_all {A} (P : A → Prop) `{∀ x, Decision (P x)} (l : list A) :
  Forall P l → filter P l = l.
Proof.
  induction 1 as [|x l Hx _ IH]; [reflexivity|].
  rewrite filter_cons_True by exact Hx. rewrite IH. reflexivity.
Qed.

(** The sum of the weights bounds each of them. *)
Lemma weight_le_total s b :
  Forall (λ b, 0 < Weight b) s → b ∈ s → 0 < Weight b <= sumZ (Weight <$> s).
Proof.
  intros Hpos Hin.
  assert (Hnn : Forall (λ x, 0 <= x) (Weight <$> s)).
  { apply Forall_fmap. eapply Forall_impl; [exact Hpos|]. intros x Hx. simpl in *. lia. }
  pose proof (sumZ_elem_upper 0 (Weight <$> s) (Weight b) Hnn
                (list_elem_of_fmap_2 Weight s b Hin)) as Hup.
  rewrite Forall_forall in Hpos. specialize (Hpos b Hin). lia.
Qed.

(** The first loop without wrap-around. *)
Lemma bump_sum_exact s :
  Forall (λ b, IsHealthy b = true ∧ in_range (CurrentWeight b + Weight b)) s →
  sumZ (CurrentWeight <$> (bump_healthy <$> s)) =
  sumZ (CurrentWeight <$> s) + sumZ (Weight <$> s).
Proof.
  induction 1 as [|b s [Hh Hr] _ IH]; [reflexivity|].
  rewrite !fmap_cons. unfold bump_healthy at 1. rewrite Hh.
  change (add (CurrentWeight b) (Weight b) + sumZ (CurrentWeight <$> (bump_healthy <$> s)) =
          CurrentWeight b + sumZ (CurrentWeight <$> s) + (Weight b + sumZ (Weight <$> s))).
  unfold add. rewrite wrap_in_range by exact Hr. lia.
Qed.

(** One call on a fair state: it returns some position [k] and leaves a
    fair state, with one more call and one more selection of [k]. *)
Lemma fair_step ws t cnt s :
  ws ≠ [] → Z.of_nat (length ws) * sumZ ws <= max_int →
  fair_state ws t cnt s →
  ∃ k s', NextBackend s = (Selected k, s') ∧
          fair_state ws (t + 1) (λ j, cnt j + (if decide (j = k) then 1 else 0)) s'.
Proof.
  intros Hne Hmax (Hws & Hall & Hsum & Hcnt).
  set (W := sumZ ws) in *.
  assert (Hlen : length s = length ws) by (rewrite <- Hws, length_fmap; reflexivity).
  assert (Hn : 1 <= Z.of_nat (length ws)) by (destruct ws; [congruence|simpl length; lia]).
  assert (Hpos : Forall (λ b, 0 < Weight b) s).
  { eapply Forall_impl; [exact Hall|]. intros b (_ & H & _). exact H. }
  assert (Hhealthy : Forall (λ b, IsHealthy b = true) s).
  { eapply Forall_impl; [exact Hall|]. intros b (H & _). exact H. }
  assert (HW : 0 < W).
  { destruct s as [|b0 rest]; [simpl in Hws; congruence|].
    unfold W. rewrite <- Hws.
    pose proof (weight_le_total (b0 :: rest) b0 Hpos ltac:(left)). lia. }
  assert (Hel : ∀ b, b ∈ s →
            IsHealthy b = true ∧ 0 < Weight b <= W ∧ - W < CurrentWeight b ∧
            in_range (CurrentWeight b + Weight b)).
  { intros b Hin. rewrite Forall_forall in Hall. destruct (Hall b Hin) as (Hh & Hw & Hc).
    pose proof (weight_le_total s b Hpos Hin) as Hwt. rewrite Hws in Hwt. fold W in Hwt.
    assert (Hlow : Forall (λ x, 1 - W <= x) (CurrentWeight <$> s)).
    { apply Forall_fmap. rewrite Forall_forall. intros x Hx.
      destruct (Hall x Hx) as (_ & _ & ?). simpl. lia. }
    pose proof (sumZ_elem_upper (1 - W) _ (CurrentWeight b) Hlow
                  (list_elem_of_fmap_2 CurrentWeight s b Hin)) as Hup.
    rewrite Hsum, length_fmap, Hlen in Hup.
    split; [exact Hh|]. split; [lia|]. split; [exact Hc|].
    unfold in_range, min_int, max_int in *. split; nia. }
  assert (Htot : healthy_total s 0 = W).
  { rewrite healthy_total_exact; rewrite ?(filter_all _ s Hhealthy), ?Hws; fold W.
    - lia.
    - eapply Forall_impl; [exact Hpos|]. intros x Hx. simpl in Hx. lia.
    - lia.
    - nia. }
  destruct (NextBackend s) as [[k|e] s'] eqn:E.
  2:{ apply NextBackend_Failed in E as (_ & _ & [Hz|Hun]); [lia|].
      destruct s as [|b0 rest]; [simpl in Hws; congruence|].
      inversion Hun; subst. destruct (Hel b0 ltac:(left)) as (Hh & _). congruence. }
  apply NextBackend_Selected in E as (_ & -> & b1 & Hk & Hh1 & Hmaxk).
  rewrite Htot. exists k, (alter (charge W) k (bump_healthy <$> s)).
  split; [reflexivity|].
  rewrite list_lookup_fmap in Hk.
  destruct (s !! k) as [bk|] eqn:Hlk; [|discriminate]. simpl in Hk. injection Hk as <-.
  assert (Hink : bk ∈ s) by (eapply list_elem_of_lookup_2; exact Hlk).
  destruct (Hel bk Hink) as (Hhk & Hwk & Hck & Hrk).
  assert (Hbk : CurrentWeight (bump_healthy bk) = CurrentWeight bk + Weight bk).
  { unfold bump_healthy. rewrite Hhk. simpl. unfold add. apply wrap_in_range, Hrk. }
  assert (Hsum1 : sumZ (CurrentWeight <$> (bump_healthy <$> s)) = W).
  { rewrite bump_sum_exact; [rewrite Hsum, Hws; fold W; lia|].
    rewrite Forall_forall. intros b Hb. destruct (Hel b Hb) as (? & _ & _ & ?). auto. }
  assert (Hbest : 0 < CurrentWeight bk + Weight bk).
  { destruct (Z.lt_ge_cases 0 (CurrentWeight bk + Weight bk)) as [|Hle]; [assumption|exfalso].
    assert (Hup : Forall (λ x, x <= 0) (CurrentWeight <$> (bump_healthy <$> s))).
    { apply Forall_fmap, Forall_fmap. rewrite Forall_forall. intros b Hb. simpl.
      specialize (Hmaxk (bump_healthy b) (list_elem_of_fmap_2 _ _ _ Hb)).
      destruct (bump_healthy_fields b) as (_ & _ & Hhb).
      destruct (Hel b Hb) as (Hh & _). rewrite Hh in Hhb.
      specialize (Hmaxk Hhb). lia. }
    pose proof (sumZ_upper 0 _ Hup). lia. }
  assert (Hcharge : wrap (CurrentWeight bk + Weight bk - W) = CurrentWeight bk + Weight bk - W).
  { apply wrap_in_range. unfold in_range, min_int, max_int in *. split; nia. }
  assert (Hs' : alter (charge W) k (bump_healthy <$> s) = imap (served W k) s).
  { apply list_eq. intros j. rewrite list_lookup_imap.
    destruct (decide (k = j)) as [<-|Hkj].
    - rewrite list_lookup_alter_eq, list_lookup_fmap, Hlk. simpl. f_equal.
      unfold charge, served. rewrite Hbk. rewrite decide_True by reflexivity.
      unfold sub. rewrite Hcharge.
      destruct (bump_healthy_fields bk) as (-> & -> & Hhb).
      unfold IsHealthy in Hhb. rewrite Hhb. reflexivity.
    - rewrite list_lookup_alter_ne by exact Hkj. rewrite list_lookup_fmap.
      destruct (s !! j) as [b|] eqn:Hlj; [|reflexivity]. simpl. f_equal.
      destruct (Hel b (list_elem_of_lookup_2 _ _ _ Hlj)) as (Hh & _ & _ & Hr).
      unfold bump_healthy. rewrite Hh. unfold bump, served.
      rewrite decide_False by (intros ->; congruence).
      unfold add. rewrite wrap_in_range by exact Hr. f_equal. lia. }
  split; [|split; [|split]].
  - rewrite fmap_alter_frame by reflexivity. rewrite <- Hws.
    apply list_eq. intros j. rewrite !list_lookup_fmap.
    destruct (s !! j); [|reflexivity]. simpl.
    destruct (bump_healthy_fields b) as (_ & -> & _). reflexivity.
  - rewrite Hs'. apply Forall_lookup. intros j b' Hj.
    rewrite list_lookup_imap in Hj.
    destruct (s !! j) as [b|] eqn:Hlj; [|discriminate]. simpl in Hj. injection Hj as <-.
    destruct (Hel b (list_elem_of_lookup_2 _ _ _ Hlj)) as (Hh & Hw & Hc & _).
    unfold served, IsHealthy in *. simpl. split; [exact Hh|]. split; [lia|].
    destruct (decide (j = k)) as [->|_]; [|lia].
    assert (b = bk) by congruence. subst b. lia.
  - rewrite (sumZ_alter CurrentWeight (charge W) _ k (bump_healthy bk)).
    + rewrite Hsum1. simpl. rewrite Hbk. unfold sub. rewrite Hcharge. lia.
    + rewrite list_lookup_fmap, Hlk. reflexivity.
  - rewrite Hs'. intros j b' Hj. rewrite list_lookup_imap in Hj.
    destruct (s !! j) as [b|] eqn:Hlj; [|discriminate]. simpl in Hj. injection Hj as <-.
    specialize (Hcnt j b Hlj). unfold served. simpl. rewrite Hcnt.
    destruct (decide (j = k)); lia.
Qed.

End Fairness.

Section FairRuns.
Import GoInt.

Lemma selections_cons i r rs :
  selections i (r :: rs) =
  ((if decide (r = Selected i) then 1 else 0) + selections i rs)%nat.
Proof.
  unfold selections. rewrite filter_cons.
  destruct (decide (r = Selected i)); reflexivity.
Qed.

Lemma fair_state_ext ws t t' cnt cnt' s :
  t = t' → (∀ j, cnt j = cnt' j) → fair_state ws t cnt s → fair_state ws t' cnt' s.
Proof.
  intros <- Hext (H1 & H2 & H3 & H4). repeat split; try assumption.
  intros j b Hj. rewrite <- Hext. apply H4, Hj.
Qed.

(** Any number of calls on a fair state. *)
Lemma fair_calls ws n : ∀ t cnt s,
  ws ≠ [] → Z.of_nat (length ws) * sumZ ws <= max_int →
  fair_state ws t cnt s →
  fair_state ws (t + Z.of_nat n)
    (λ j, cnt j + Z.of_nat (selections j (fst (calls n s)))) (snd (calls n s)).
Proof.
  induction n as [|n IH]; intros t cnt s Hne Hmax Hfair.
  - simpl. eapply fair_state_ext; [| |exact Hfair]; [lia|].
    intros j. change (selections j []) with O. lia.
  - destruct (fair_step ws t cnt s Hne Hmax Hfair) as (k & s1 & E & Hfair1).
    specialize (IH _ _ _ Hne Hmax Hfair1).
    simpl calls. rewrite E. destruct (calls n s1) as [rs s2]. simpl in *.
    eapply fair_state_ext; [| |exact IH]; [lia|].
    intros j. simpl. rewrite selections_cons.
    destruct (decide (j = k)) as [->|Hjk].
    + rewrite decide_True by reflexivity. lia.
    + rewrite decide_False by congruence. lia.
Qed.

Lemma healthy_total_bump s t :
  healthy_total (bump_healthy <$> s) t = healthy_total s t.
Proof.
  revert t. induction s as [|b rest IHs]; intros t; [reflexivity|].
  rewrite fmap_cons. simpl.
  destruct (bump_healthy_fields b) as (_ & -> & ->).
  destruct (IsHealthy b); apply IHs.
Qed.

(** When the total weight of the healthy backends wraps to zero, every
    call fails. *)
Lemma calls_all_fail n : ∀ s,
  healthy_total s 0 = 0 →
  Forall (λ r, r = Failed ErrNoHealthyBackends) (fst (calls n s)).
Proof.
  induction n as [|n IH]; intros s Hz; simpl; [constructor|].
  destruct (NextBackend s) as [r s1] eqn:E.
  pose proof (NextBackend_fails s (or_introl Hz)) as Hr. rewrite E in Hr. simpl in Hr.
  subst r. apply NextBackend_Failed in E as (_ & -> & _).
  assert (Hz1 : healthy_total (bump_healthy <$> s) 0 = 0).
  { rewrite healthy_total_bump. exact Hz. }
  specialize (IH _ Hz1). destruct (calls n (bump_healthy <$> s)) as [rs s2].
  simpl in *. constructor; [reflexivity|exact IH].
Qed.

Lemma selections_all_fail i rs :
  Forall (λ r, r = Failed ErrNoHealthyBackends) rs → selections i rs = O.
Proof.
  induction 1 as [|r rs Hr _ IH]; [reflexivity|].
  rewrite selections_cons, IH, decide_False; [reflexivity|]. rewrite Hr. discriminate.
Qed.

End FairRuns.

(** C1, as the code has it. In a pool of healthy backends with positive
    weights [w_1 … w_n] whose current weights are zero, and with
    [n · Σw] no larger than the greatest [int], [k · Σw] consecutive
    calls of [NextBackend] return the backend at each position [i]
    exactly [k · w_i] times. *)
Theorem SWRR_fairness (s : SRR) (k : nat) :
  Forall (λ b, IsHealthy b = true ∧ 0 < Weight b ∧ CurrentWeight b = 0) s →
  Z.of_nat (length s) * sumZ (Weight <$> s) <= GoInt.max_int →
  ∀ i b, s !! i = Some b →
    Z.of_nat (selections i (fst (calls (k * Z.to_nat (sumZ (Weight <$> s))) s)))
    = Z.of_nat k * Weight b.
Proof.
  intros Hinit Hmax i b Hi.
  set (ws := Weight <$> s) in *. set (W := sumZ ws) in *.
  assert (Hne : ws ≠ []) by (destruct s; [discriminate|unfold ws; discriminate]).
  assert (Hpos : Forall (λ b, 0 < Weight b) s).
  { eapply Forall_impl; [exact Hinit|]. intros x (_ & H & _). exact H. }
  assert (HW : 0 < W).
  { pose proof (weight_le_total s b Hpos (list_elem_of_lookup_2 _ _ _ Hi)).
    unfold W, ws. lia. }
  assert (Hfair0 : fair_state ws 0 (λ _, 0) s).
  { split; [reflexivity|]. split; [|split].
    - eapply Forall_impl; [exact Hinit|]. intros x (Hh & Hw & Hc). fold W.
      split; [exact Hh|]. split; [exact Hw|]. lia.
    - apply sumZ_zeros, Forall_fmap. eapply Forall_impl; [exact Hinit|].
      intros x (_ & _ & Hc). exact Hc.
    - intros j x Hj. rewrite Forall_forall in Hinit.
      destruct (Hinit x (list_elem_of_lookup_2 _ _ _ Hj)) as (_ & _ & ->). lia. }
  assert (Hlen : length ws = length s) by (unfold ws; apply length_fmap).
  rewrite <- Hlen in Hmax.
  pose proof (fair_calls ws (k * Z.to_nat W) 0 (λ _, 0) s Hne Hmax Hfair0)
    as (Hws & Hall & Hsum & Hcnt).
  destruct (calls (k * Z.to_nat W) s) as [rs s'] eqn:E. simpl in *.
  replace (0 + Z.of_nat (k * Z.to_nat W)) with (Z.of_nat k * W) in Hcnt by lia.
  fold W in Hall.
  (* every current weight is non-negative, hence zero *)
  assert (Hnn : Forall (λ x, 0 <= x) (CurrentWeight <$> s')).
  { apply Forall_fmap, Forall_lookup. intros j x Hj. simpl.
    rewrite Forall_forall in Hall.
    destruct (Hall x (list_elem_of_lookup_2 _ _ _ Hj)) as (_ & _ & Hlo).
    specialize (Hcnt j x Hj). fold W in Hcnt.
    assert (0 <= Z.of_nat k * Weight x - Z.of_nat (selections j rs)) by nia.
    nia. }
  pose proof (sumZ_zero_nonneg _ Hnn Hsum) as Hzero.
  assert (Hi' : ∃ b', s' !! i = Some b' ∧ Weight b' = Weight b).
  { assert (Hw : (Weight <$> s') !! i = (Weight <$> s) !! i) by (rewrite Hws; reflexivity).
    rewrite !list_lookup_fmap, Hi in Hw.
    destruct (s' !! i) as [b'|]; [|discriminate]. injection Hw as Hw. eauto. }
  destruct Hi' as (b' & Hi' & Hwb).
  specialize (Hcnt i b' Hi'). rewrite Hwb in Hcnt.
  rewrite Forall_fmap, Forall_forall in Hzero.
  specialize (Hzero b' (list_elem_of_lookup_2 _ _ _ Hi')). simpl in Hzero.
  fold W in Hcnt. nia.
Qed.

(** Scenario S1: weights 1, 2 and 3; 60 calls return them 10, 20 and 30
    times. *)
Lemma SWRR_fairness_witness :
  let rs := fst (calls 60 poolABC) in
  Z.of_nat (selections 0 rs) = 10 ∧ Z.of_nat (selections 1 rs) = 20 ∧
  Z.of_nat (selections 2 rs) = 30.
Proof.
  assert (Hinit : Forall (λ b, IsHealthy b = true ∧ 0 < Weight b ∧ CurrentWeight b = 0)
                    poolABC).
  { repeat constructor. }
  assert (Hmax : Z.of_nat (length poolABC) * sumZ (Weight <$> poolABC) <= GoInt.max_int).
  { vm_compute. discriminate. }
  split; [|split].
  - exact (SWRR_fairness poolABC 10 Hinit Hmax 0%nat (NewBackend "A" 1) eq_refl).
  - exact (SWRR_fairness poolABC 10 Hinit Hmax 1%nat (NewBackend "B" 2) eq_refl).
  - exact (SWRR_fairness poolABC 10 Hinit Hmax 2%nat (NewBackend "C" 3) eq_refl).
Defined.

(** Four healthy backends of weight [2^62]: their total weight wraps to
    zero, every call fails and none of them is ever returned. *)
Lemma SWRR_fairness_counterexample :
  let s := [NewBackend "A" (2 ^ 62); NewBackend "B" (2 ^ 62);
            NewBackend "C" (2 ^ 62); NewBackend "D" (2 ^ 62)] in
  Forall (λ b, IsHealthy b = true ∧ 0 < Weight b ∧ CurrentWeight b = 0) s ∧
  Z.of_nat (selections 0 (fst (calls (1 * Z.to_nat (sumZ (Weight <$> s))) s)))
  ≠ Z.of_nat 1 * 2 ^ 62.
Proof.
  intros s. split; [repeat constructor|].
  rewrite (selections_all_fail 0).
  - discriminate.
  - apply calls_all_fail. reflexivity.
Qed.

(** ** The health checker *)

Section HealthFacts.
Import Health.

Ltac run_checker :=
  unfold checkBackend, handleFailure, handleSuccess, mbind, M_bind, bind,
    Lock, Unlock, get, modify_chk, modify_be, ret; simpl.

(** [handleFailure], entered with [c.mu] free: the counter of the
    backend's URL is incremented, and the backend is taken out exactly
    when it was healthy and the counter has reached the threshold. *)
Lemma handleFailure_spec c b :
  mu c = false →
  let n := GoInt.add (failure_count c (URL b)) 1 in
  handleFailure (mkState c b) =
  Returns tt
    (mkState (set_failures (<[URL b := n]> (failures c)) c)
             (if (failureThreshold c <=? n) && IsHealthy b
              then SetHealthy false b else b)).
Proof.
  intros Hmu. destruct c as [th ri f lc m]. simpl in Hmu. subst m.
  run_checker. unfold failure_count. simpl. rewrite lookup_insert_eq. simpl.
  destruct (th <=? _); simpl; [|reflexivity].
  destruct (IsHealthy b); reflexivity.
Qed.

(** [handleSuccess], entered with [c.mu] free: a positive counter is
    reset and a backend that was out is healthy again. *)
Lemma handleSuccess_spec c b :
  mu c = false →
  handleSuccess (mkState c b) =
  Returns tt
    (mkState (if 0 <? failure_count c (URL b)
              then set_failures (<[URL b := 0]> (failures c)) c else c)
             (if IsHealthy b then b else SetHealthy true b)).
Proof.
  intros Hmu. destruct c as [th ri f lc m]. simpl in Hmu. subst m.
  run_checker. unfold failure_count. simpl.
  destruct (0 <? default 0 (f !! URL b)); simpl; destruct (IsHealthy b); reflexivity.
Qed.

(** Both handlers block when they are entered with [c.mu] held. *)
Lemma handlers_block_under_lock c b :
  mu c = true →
  handleFailure (mkState c b) = Deadlock (mkState c b) ∧
  handleSuccess (mkState c b) = Deadlock (mkState c b).
Proof. intros Hmu. run_checker. rewrite Hmu. split; reflexivity. Qed.

(** A probe that ends in an error before any response goes through
    [handleFailure] and nothing else: [c.lastCheck] stays as it was. *)
Lemma checkBackend_error c b now now' p :
  mu c = false → probed now c b = true → p = RequestError ∨ p = TransportError →
  checkBackend now now' p (mkState c b) = handleFailure (mkState c b).
Proof.
  intros Hmu Hp Hperr. unfold probed in Hp. apply negb_true_iff in Hp.
  destruct c as [th ri f lc m]. simpl in *. subst m.
  unfold checkBackend, mbind, M_bind, bind, Lock, Unlock, get, ret. simpl.
  unfold IsHealthy in *. rewrite Hp. unfold set_mu. simpl.
  destruct Hperr as [-> | ->]; reflexivity.
Qed.

Lemma checkBackend_error_lastCheck c b now now' p :
  mu c = false → probed now c b = true → p = RequestError ∨ p = TransportError →
  ∃ st, checkBackend now now' p (mkState c b) = Returns tt st ∧
        lastCheck (chk st) = lastCheck c ∧
        failure_count (chk st) (URL b) = GoInt.add (failure_count c (URL b)) 1.
Proof.
  intros Hmu Hp Hperr.
  rewrite checkBackend_error, handleFailure_spec by assumption.
  eexists. split; [reflexivity|]. simpl. split; [reflexivity|].
  unfold failure_count. simpl. rewrite lookup_insert_eq. reflexivity.
Qed.

(** A probe that is answered, whatever the status, records the time and
    then blocks in the handler: [checkBackend] still holds [c.mu] when it
    calls [handleSuccess] or [handleFailure]. The counters and the
    backend are as before, and the lock stays held. *)
Lemma checkBackend_response_blocks c b now now' status :
  mu c = false → probed now c b = true →
  checkBackend now now' (Response status) (mkState c b) =
  Deadlock (mkState (set_mu true (set_lastCheck (<[URL b := now']> (lastCheck c)) c)) b).
Proof.
  intros Hmu Hp. unfold probed in Hp. apply negb_true_iff in Hp.
  destruct c as [th ri f lc m]. simpl in *. subst m.
  run_checker. unfold IsHealthy in *. rewrite Hp.
  destruct (status =? StatusOK); reflexivity.
Qed.

(** Once the lock is left held, every later probe blocks at once. *)
Lemma checkBackend_blocked_for_ever c b now now' p :
  mu c = true → checkBackend now now' p (mkState c b) = Deadlock (mkState c b).
Proof. intros Hmu. run_checker. rewrite Hmu. reflexivity. Qed.

End HealthFacts.

(** C3, at a failing input. With a threshold of one failure, a healthy
    backend whose probe is answered with status 500 should count one
    failure and be taken out; a backend that is out and answers 200
    should come back. In both cases [checkBackend] blocks in the handler
    with the counter and the backend unchanged; only a probe that ends
    in a transport error is counted. *)
Theorem checker_blocks_on_response :
  let c := Health.NewChecker 1 15000000000 in
  let up := NewBackend "http://a" 1 in
  let down := SetHealthy false up in
  (∃ st, Health.checkBackend 100 101 (Health.Response 500) (Health.mkState c up)
         = Health.Deadlock st ∧
         Health.failure_count (Health.chk st) "http://a" = 0 ∧
         IsHealthy (Health.be st) = true ∧ Health.mu (Health.chk st) = true) ∧
  (∃ st, Health.checkBackend 100 101 (Health.Response 200) (Health.mkState c down)
         = Health.Deadlock st ∧
         IsHealthy (Health.be st) = false ∧ Health.mu (Health.chk st) = true) ∧
  (∃ st, Health.checkBackend 100 101 Health.TransportError (Health.mkState c up)
         = Health.Returns tt st ∧
         Health.failure_count (Health.chk st) "http://a" = 1 ∧
         IsHealthy (Health.be st) = false ∧ Health.mu (Health.chk st) = false).
Proof.
  intros c up down. split; [|split].
  - rewrite checkBackend_response_blocks by reflexivity.
    eexists. split; [reflexivity|]. repeat split.
  - rewrite checkBackend_response_blocks by reflexivity.
    eexists. split; [reflexivity|]. repeat split.
  - rewrite checkBackend_error, handleFailure_spec by auto.
    eexists. split; [reflexivity|]. repeat split.
Qed.

(** C5, at a failing input. A probe that ends in a transport error
    leaves [last_check] of the backend as it was (here: never set),
    while a probe that is answered records the time. *)
Theorem lastCheck_skipped_on_transport_error :
  let c := Health.NewChecker 3 15000000000 in
  let b := NewBackend "http://a" 1 in
  (∃ st, Health.checkBackend 100 101 Health.TransportError (Health.mkState c b)
         = Health.Returns tt st ∧
         Health.lastCheck (Health.chk st) !! "http://a" = None) ∧
  (∃ st, Health.checkBackend 100 101 Health.RequestError (Health.mkState c b)
         = Health.Returns tt st ∧
         Health.lastCheck (Health.chk st) !! "http://a" = None) ∧
  (∃ st, Health.checkBackend 100 101 (Health.Response 500) (Health.mkState c b)
         = Health.Deadlock st ∧
         Health.lastCheck (Health.chk st) !! "http://a" = Some 101).
Proof.
  intros c b. split; [|split].
  - rewrite checkBackend_error, handleFailure_spec by auto.
    eexists. split; [reflexivity|]. reflexivity.
  - rewrite checkBackend_error, handleFailure_spec by auto.
    eexists. split; [reflexivity|]. reflexivity.
  - rewrite checkBackend_response_blocks by reflexivity.
    eexists. split; [reflexivity|]. simpl. apply lookup_insert_eq.
Qed.

(** ** Sweeping a map while ranging over it *)

Section Sweep.
Context {A : Type} (dead : A → bool).

(** Ranging over [m] and deleting from [m0]: the count is the number of
    dead entries of [m], and [m0] has lost exactly their keys. *)
Lemma sweep_inv (m0 m : gmap string A) :
  let r := map_fold (sweep_step dead) (O, m0) m in
  fst r = size (filter (λ kv, dead kv.2 = true) m) ∧
  ∀ k, snd r !! k =
       match m !! k with
       | Some x => if dead x then None else m0 !! k
       | None => m0 !! k
       end.
Proof.
  apply (map_fold_weak_ind
    (λ r m, fst r = size (filter (λ kv, dead kv.2 = true) m) ∧
            ∀ k, snd r !! k = match m !! k with
                              | Some x => if dead x then None else m0 !! k
                              | None => m0 !! k
                              end)).
  - split; [rewrite map_filter_empty, map_size_empty; reflexivity|].
    intros k. rewrite lookup_empty. reflexivity.
  - intros i x m' r Hi [Hcount Hmap]. unfold sweep_step.
    destruct (dead x) eqn:Hx; simpl.
    + split.
      * rewrite map_filter_insert_True by exact Hx.
        rewrite map_size_insert_None; [congruence|].
        apply map_lookup_filter_None. left. exact Hi.
      * intros k. destruct (decide (i = k)) as [->|Hne].
        -- rewrite lookup_delete_eq, lookup_insert_eq, Hx. reflexivity.
        -- rewrite lookup_delete_ne, lookup_insert_ne by exact Hne. apply Hmap.
    + split.
      * rewrite map_filter_insert_False by (simpl; congruence).
        rewrite delete_id by exact Hi. exact Hcount.
      * intros k. destruct (decide (i = k)) as [->|Hne].
        -- rewrite lookup_insert_eq, Hx, Hmap, Hi. reflexivity.
        -- rewrite lookup_insert_ne by exact Hne. apply Hmap.
Qed.

(** The loop over the map itself: the dead entries are removed and
    counted, the others stay. *)
Lemma sweep_spec (m : gmap string A) :
  map_fold (sweep_step dead) (O, m) m =
  (size (filter (λ kv, dead kv.2 = true) m), filter (λ kv, dead kv.2 = false) m).
Proof.
  destruct (sweep_inv m m) as [Hcount Hmap].
  destruct (map_fold (sweep_step dead) (O, m) m) as [n m'] eqn:E. simpl in *.
  f_equal; [exact Hcount|].
  apply map_eq. intros k. rewrite Hmap, map_lookup_filter.
  destruct (m !! k) as [x|]; simpl; [|reflexivity].
  destruct (dead x) eqn:Hx.
  - rewrite option_guard_False by (simpl; congruence). reflexivity.
  - rewrite option_guard_True by reflexivity. reflexivity.
Qed.

(** Go visits the entries of a map in an order that is not specified;
    the outcome of the loop is the same for every order. *)
Lemma sweep_step_comm k1 x1 k2 x2 (st : nat * gmap string A) :
  sweep_step dead k1 x1 (sweep_step dead k2 x2 st) =
  sweep_step dead k2 x2 (sweep_step dead k1 x1 st).
Proof.
  unfold sweep_step. destruct (dead x1), (dead x2); simpl; try reflexivity.
  rewrite delete_delete. reflexivity.
Qed.

Lemma sweep_any_order (m0 m : gmap string A) (order : list (string * A)) :
  order ≡ₚ map_to_list m →
  foldr (uncurry (sweep_step dead)) (O, m0) order = map_fold (sweep_step dead) (O, m0) m.
Proof.
  intros Hp. rewrite map_fold_foldr.
  apply (foldr_permutation_proper eq (uncurry (sweep_step dead)) (O, m0)); [|exact Hp].
  intros [k1 x1] [k2 x2] st. apply sweep_step_comm.
Qed.

Lemma sweep_sizes (m : gmap string A) :
  size m = (size (filter (λ kv, dead kv.2 = true) m) +
            size (filter (λ kv, dead kv.2 = false) m))%nat.
Proof.
  rewrite <- (map_filter_union_complement (λ kv, dead kv.2 = true) m) at 1.
  rewrite map_size_disj_union by apply map_disjoint_filter_complement.
  f_equal. f_equal. apply map_filter_ext. intros k x _. simpl.
  destruct (dead x); split; congruence.
Qed.

End Sweep.

(** ** The response cache *)

Section CacheFacts.
Import Cache.

Lemma Get_spec now c key :
  Get now c key =
  match entries c !! key with
  | Some e => if ExpiresAt e <? now then None else Some (Value e, Header e)
  | None => None
  end.
Proof. reflexivity. Qed.

Lemma CleanupExpired_spec now c :
  CleanupExpired now c =
  (size (filter (λ kv, IsExpired now kv.2 = true) (entries c)),
   {| entries := filter (λ kv, IsExpired now kv.2 = false) (entries c);
      ttl := ttl c |}).
Proof.
  unfold CleanupExpired.
  change (cleanup_step now) with (sweep_step (IsExpired now)).
  rewrite sweep_spec. reflexivity.
Qed.

End CacheFacts.

(** C4, as the code has it. [Get] returns the stored body and headers
    when an entry exists and [now ≤ created_at + ttl], and a miss when
    [now > created_at + ttl] or when there is no entry: at the very
    instant of its expiry an entry is still returned. The entries of the
    cache are those made by [Set], for which [expires_at] is
    [created_at + ttl]. *)
Theorem Get_ttl (c : Cache.Cache) (key : string) (now : Z) :
  (∀ e, Cache.entries c !! key = Some e →
        (now <= Cache.ExpiresAt e →
         Cache.Get now c key = Some (Cache.Value e, Cache.Header e)) ∧
        (Cache.ExpiresAt e < now → Cache.Get now c key = None)) ∧
  (Cache.entries c !! key = None → Cache.Get now c key = None) ∧
  (∀ created value header,
      ∃ e, Cache.entries (Cache.Set_ created c key value header) !! key = Some e ∧
           Cache.Value e = value ∧ Cache.Header e = header ∧
           Cache.CreatedAt e = created ∧
           Cache.ExpiresAt e = Cache.CreatedAt e + Cache.ttl c).
Proof.
  rewrite Get_spec. split; [|split].
  - intros e ->. split; intros Hn.
    + destruct (Z.ltb_spec (Cache.ExpiresAt e) now); [lia|reflexivity].
    + destruct (Z.ltb_spec (Cache.ExpiresAt e) now); [reflexivity|lia].
  - intros ->. reflexivity.
  - intros created value header. eexists. split; [apply lookup_insert_eq|].
    simpl. auto.
Qed.

Lemma Get_ttl_witness :
  let c := Cache.Set_ 0 (Cache.NewCache 60) "GET:/x" [] ∅ in
  Cache.Get 59 c "GET:/x" = Some ([], ∅) ∧ Cache.Get 60 c "GET:/x" = Some ([], ∅) ∧
  Cache.Get 61 c "GET:/x" = None ∧ Cache.Get 61 c "GET:/y" = None.
Proof.
  intros c.
  assert (He : Cache.entries c !! "GET:/x" = Some (Cache.NewEntry 0 "GET:/x" [] ∅ 60))
    by reflexivity.
  split; [|split; [|split]].
  - apply (proj1 (proj1 (Get_ttl c "GET:/x" 59) _ He)). simpl. lia.
  - apply (proj1 (proj1 (Get_ttl c "GET:/x" 60) _ He)). simpl. lia.
  - apply (proj2 (proj1 (Get_ttl c "GET:/x" 61) _ He)). simpl. lia.
  - apply (proj1 (proj2 (Get_ttl c "GET:/y" 61))). reflexivity.
Defined.

(** An entry created at 0 with a ttl of 60 is returned at 60. *)
Lemma Get_ttl_counterexample :
  let c := Cache.Set_ 0 (Cache.NewCache 60) "GET:/x" [] ∅ in
  ∃ e, Cache.entries c !! "GET:/x" = Some e ∧
       60 >= Cache.CreatedAt e + Cache.ttl c ∧
       Cache.Get 60 c "GET:/x" ≠ None.
Proof.
  eexists. split; [apply lookup_insert_eq|]. split; [simpl; lia|].
  rewrite Get_spec. simpl. rewrite lookup_insert_eq. discriminate.
Qed.

(** C7. One call of [CleanupExpired] removes every entry whose expiry
    instant has passed and returns their number; the other entries stay
    as they are, and no entry of the cache is expired afterwards. The
    order in which the loop visits the entries does not matter. *)
Theorem CleanupExpired_post (now : Z) (c : Cache.Cache) :
  let count := fst (Cache.CleanupExpired now c) in
  let c' := snd (Cache.CleanupExpired now c) in
  (∀ k, Cache.entries c' !! k =
        match Cache.entries c !! k with
        | Some e => if Cache.IsExpired now e then None else Some e
        | None => None
        end) ∧
  count = size (filter (λ kv, Cache.IsExpired now kv.2 = true) (Cache.entries c)) ∧
  (Cache.Size c = count + Cache.Size c')%nat ∧
  (∀ k e, Cache.entries c' !! k = Some e → Cache.IsExpired now e = false) ∧
  Cache.ttl c' = Cache.ttl c ∧
  (∀ order, order ≡ₚ map_to_list (Cache.entries c) →
     foldr (uncurry (Cache.cleanup_step now)) (O, Cache.entries c) order
     = (count, Cache.entries c')).
Proof.
  assert (Horder : ∀ order, order ≡ₚ map_to_list (Cache.entries c) →
     foldr (uncurry (Cache.cleanup_step now)) (O, Cache.entries c) order
     = (fst (Cache.CleanupExpired now c), Cache.entries (snd (Cache.CleanupExpired now c)))).
  { intros order Hp.
    change (Cache.cleanup_step now) with (sweep_step (Cache.IsExpired now)).
    rewrite (sweep_any_order _ _ _ _ Hp). unfold Cache.CleanupExpired.
    change (Cache.cleanup_step now) with (sweep_step (Cache.IsExpired now)).
    destruct (map_fold _ _ _) as [n m]. reflexivity. }
  revert Horder. rewrite CleanupExpired_spec. simpl. intros Horder.
  assert (Hl : ∀ k, filter (λ kv, Cache.IsExpired now kv.2 = false) (Cache.entries c) !! k =
               match Cache.entries c !! k with
               | Some e => if Cache.IsExpired now e then None else Some e
               | None => None
               end).
  { intros k. rewrite map_lookup_filter.
    destruct (Cache.entries c !! k) as [e|]; simpl; [|reflexivity].
    destruct (Cache.IsExpired now e) eqn:He.
    - rewrite option_guard_False by (simpl; congruence). reflexivity.
    - rewrite option_guard_True by (simpl; congruence). reflexivity. }
  split; [exact Hl|]. split; [reflexivity|].
  split; [|split; [|split; [reflexivity|exact Horder]]].
  - unfold Cache.Size. simpl. apply sweep_sizes.
  - intros k e He. apply map_lookup_filter_Some in He as [_ He]. exact He.
Qed.

Lemma CleanupExpired_post_witness :
  let c := Cache.Set_ 50 (Cache.Set_ 0 (Cache.NewCache 60) "GET:/x" [] ∅) "GET:/y" [] ∅ in
  fst (Cache.CleanupExpired 100 c) = 1%nat ∧
  Cache.Size (snd (Cache.CleanupExpired 100 c)) = 1%nat ∧
  Cache.Get 100 (snd (Cache.CleanupExpired 100 c)) "GET:/y" = Some ([], ∅).
Proof.
  intros c.
  destruct (CleanupExpired_post 100 c) as (Hl & Hcount & Hsize & _).
  assert (H1 : fst (Cache.CleanupExpired 100 c) = 1%nat).
  { rewrite Hcount. vm_compute. reflexivity. }
  split; [exact H1|]. split.
  - rewrite H1 in Hsize. change (Cache.Size c) with 2%nat in Hsize. lia.
  - rewrite Get_spec, Hl. reflexivity.
Defined.

(** ** The rate limiter *)

Section LimiterFacts.
Import RateLimit.
Context {B : Type} `{TokenBucket B}.

Lemma CleanupStale_spec now idle (r : Limiter B) :
  CleanupStale now idle r =
  (size (filter (λ kv, stale now idle kv.2 = true) (limiters r)),
   with_limiters r (filter (λ kv, stale now idle kv.2 = false) (limiters r))).
Proof.
  unfold CleanupStale.
  change (stale_step now idle) with (sweep_step (stale (B:=B) now idle)).
  rewrite sweep_spec. reflexivity.
Qed.

(** [now.Sub(lastSeen)] is the plain difference as long as that is a
    Duration, which it is for two readings of the clock of one process. *)
Lemma stale_plain now idle (l : clientLimiter B) :
  GoInt.in_range (now - lastSeen l) →
  stale now idle l = (idle <? now - lastSeen l).
Proof. intros Hr. unfold stale. rewrite saturate_in_range by exact Hr. reflexivity. Qed.

(** The first [Allow] for an address without a bucket: one bucket is
    made for it, asked once and stored; nothing else changes. *)
Lemma Allow_unseen now (r : Limiter B) ip :
  limiters r !! ip = None →
  let fresh := rate_Allow now (rate_NewLimiter (limit r) (burst r)) in
  Allow now r ip =
  (fst fresh,
   with_limiters r (<[ip := {| limiter := snd fresh; lastSeen := now |}]> (limiters r))).
Proof.
  intros Hip. unfold Allow, createNewLimiter. rewrite Hip. unfold touch. simpl.
  destruct (rate_Allow now (rate_NewLimiter (limit r) (burst r))) as [ok b]. simpl.
  unfold with_limiters. simpl. rewrite insert_insert_eq. reflexivity.
Qed.

End LimiterFacts.

(** A full bucket of capacity at least one grants the first request. *)
Lemma fresh_bucket_allows (rate : Q) (burst now : Z) :
  1 <= burst → fst (RateLimit.bucket_allow now (RateLimit.bucket_new rate burst)) = true.
Proof.
  intros Hb. unfold RateLimit.bucket_allow, RateLimit.advance, RateLimit.elapsed. simpl.
  assert (H1 : (1 <= inject_Z burst)%Q).
  { change 1%Q with (inject_Z 1). rewrite <- Zle_Qle. exact Hb. }
  destruct (Qle_bool (inject_Z burst) (inject_Z burst + rate * 0)).
  - apply Qle_bool_iff in H1. rewrite H1. reflexivity.
  - assert (H2 : (1 <= inject_Z burst + rate * 0)%Q) by lra.
    apply Qle_bool_iff in H2. rewrite H2. reflexivity.
Qed.

(** C8. [CleanupStale] removes exactly the buckets with
    [now.Sub(lastSeen) > idleTimeout] and returns their number; the
    others stay in place, in whatever order the loop visits them. Hence
    when 5 buckets are held and all of them are idle for longer than
    [idleTimeout], it returns 5 and [Size] is 0 afterwards. *)
Theorem CleanupStale_post {B : Type} `{RateLimit.TokenBucket B}
    (now idleTimeout : Z) (r : RateLimit.Limiter B) :
  let count := fst (RateLimit.CleanupStale now idleTimeout r) in
  let r' := snd (RateLimit.CleanupStale now idleTimeout r) in
  (∀ ip, RateLimit.limiters r' !! ip =
         match RateLimit.limiters r !! ip with
         | Some l => if idleTimeout <? GoInt.saturate (now - RateLimit.lastSeen l)
                     then None else Some l
         | None => None
         end) ∧
  count = size (filter (λ kv, RateLimit.stale now idleTimeout kv.2 = true)
                  (RateLimit.limiters r)) ∧
  (RateLimit.Size r = count + RateLimit.Size r')%nat ∧
  (∀ ip l, RateLimit.limiters r !! ip = Some l →
           GoInt.in_range (now - RateLimit.lastSeen l) →
           (RateLimit.limiters r' !! ip = None ↔
            idleTimeout < now - RateLimit.lastSeen l)) ∧
  (∀ order, order ≡ₚ map_to_list (RateLimit.limiters r) →
     foldr (uncurry (RateLimit.stale_step now idleTimeout)) (O, RateLimit.limiters r) order
     = (count, RateLimit.limiters r')) ∧
  (map_Forall (λ _ l, RateLimit.stale now idleTimeout l = true) (RateLimit.limiters r) →
   RateLimit.Size r = 5%nat → count = 5%nat ∧ RateLimit.Size r' = O).
Proof.
  assert (Horder : ∀ order, order ≡ₚ map_to_list (RateLimit.limiters r) →
     foldr (uncurry (RateLimit.stale_step now idleTimeout)) (O, RateLimit.limiters r) order
     = (fst (RateLimit.CleanupStale now idleTimeout r),
        RateLimit.limiters (snd (RateLimit.CleanupStale now idleTimeout r)))).
  { intros order Hp.
    change (RateLimit.stale_step now idleTimeout)
      with (sweep_step (RateLimit.stale (B:=B) now idleTimeout)).
    rewrite (sweep_any_order _ _ _ _ Hp). unfold RateLimit.CleanupStale.
    change (RateLimit.stale_step now idleTimeout)
      with (sweep_step (RateLimit.stale (B:=B) now idleTimeout)).
    destruct (map_fold _ _ _) as [n m]. reflexivity. }
  revert Horder. rewrite CleanupStale_spec. simpl. intros Horder.
  assert (Hl : ∀ ip, filter (λ kv, RateLimit.stale now idleTimeout kv.2 = false)
                       (RateLimit.limiters r) !! ip =
               match RateLimit.limiters r !! ip with
               | Some l => if idleTimeout <? GoInt.saturate (now - RateLimit.lastSeen l)
                           then None else Some l
               | None => None
               end).
  { intros ip. rewrite map_lookup_filter.
    destruct (RateLimit.limiters r !! ip) as [l|]; simpl; [|reflexivity].
    fold (RateLimit.stale now idleTimeout l).
    destruct (RateLimit.stale now idleTimeout l) eqn:Hs.
    - rewrite option_guard_False by (simpl; congruence). reflexivity.
    - rewrite option_guard_True by (simpl; congruence). reflexivity. }
  split; [exact Hl|]. split; [reflexivity|]. split; [|split; [|split; [exact Horder|]]].
  - unfold RateLimit.Size. simpl. apply sweep_sizes.
  - intros ip l Hip Hr. rewrite Hl, Hip, saturate_in_range by exact Hr.
    destruct (Z.ltb_spec idleTimeout (now - RateLimit.lastSeen l)); split;
      intros; (reflexivity || discriminate || lia).
  - intros Hall Hsize. unfold RateLimit.Size in *. simpl.
    rewrite (map_filter_id _ (RateLimit.limiters r)) by (intros ip l Hip; exact (Hall ip l Hip)).
    split; [exact Hsize|].
    apply map_size_empty_iff, map_empty. intros ip.
    apply map_lookup_filter_None. destruct (RateLimit.limiters r !! ip) as [l|] eqn:Hip.
    + right. intros l' [= <-]. simpl. rewrite (Hall ip l Hip). discriminate.
    + left. reflexivity.
Qed.

(** Five minutes and a nanosecond later all five buckets are reaped. *)
Lemma CleanupStale_post_witness :
  fst (RateLimit.CleanupStale 300000000001 300000000000 RateLimit.five_clients) = 5%nat ∧
  RateLimit.Size
    (snd (RateLimit.CleanupStale 300000000001 300000000000 RateLimit.five_clients)) = O.
Proof.
  apply (proj2 (proj2 (proj2 (proj2 (proj2
    (CleanupStale_post 300000000001 300000000000 RateLimit.five_clients)))))).
  - apply (bool_decide_unpack _). vm_compute. reflexivity.
  - vm_compute. reflexivity.
Defined.

(** C10. For a limiter with [burst ≥ 1], the first [Allow] for an
    address that has no bucket returns [true] and creates the bucket of
    that address and no other: a fresh bucket starts full. *)
Theorem Allow_first_request (now : Z) (r : RateLimit.Limiter RateLimit.bucket)
    (ip : string) :
  1 <= RateLimit.burst r → RateLimit.limiters r !! ip = None →
  fst (RateLimit.Allow now r ip) = true ∧
  (∃ l, RateLimit.limiters (snd (RateLimit.Allow now r ip)) !! ip = Some l ∧
        RateLimit.lastSeen l = now) ∧
  (∀ ip', ip' ≠ ip →
      RateLimit.limiters (snd (RateLimit.Allow now r ip)) !! ip'
      = RateLimit.limiters r !! ip') ∧
  RateLimit.Size (snd (RateLimit.Allow now r ip)) = S (RateLimit.Size r).
Proof.
  intros Hburst Hip. rewrite (Allow_unseen now r ip Hip). simpl.
  split; [|split; [|split]].
  - apply fresh_bucket_allows, Hburst.
  - eexists. split; [apply lookup_insert_eq|reflexivity].
  - intros ip' Hne. apply lookup_insert_ne. congruence.
  - unfold RateLimit.Size. simpl. apply map_size_insert_None, Hip.
Qed.

Lemma Allow_first_request_witness :
  let r := RateLimit.NewLimiter 60 10 in
  fst (RateLimit.Allow 0 r "192.168.1.1") = true ∧
  RateLimit.Size (snd (RateLimit.Allow 0 r "192.168.1.1")) = 1%nat.
Proof.
  intros r.
  destruct (Allow_first_request 0 r "192.168.1.1") as (Hok & _ & _ & Hsize).
  - simpl. lia.
  - reflexivity.
  - split; [exact Hok|exact Hsize].
Defined.

(** * Further properties of the balancer *)

Section BalancerMore.
Import GoInt.

Lemma backend_eq (b b' : Backend) :
  URL b = URL b' → Weight b = Weight b' → CurrentWeight b = CurrentWeight b' →
  Healthy b = Healthy b' → b = b'.
Proof. destruct b, b'. simpl. intros -> -> -> ->. reflexivity. Qed.

(** The second loop keeps a best that is strictly better than the one it
    replaces. *)
Lemma pick_best_strict bs i best k v :
  pick_best bs i best = Some (k, v) →
  best = Some (k, v) ∨ ((i ≤ k)%nat ∧ ∀ k0 v0, best = Some (k0, v0) → v0 < v).
Proof.
  revert i best. induction bs as [|b rest IH]; intros i best; simpl.
  - intros ->. left. reflexivity.
  - destruct (IsHealthy b); simpl.
    + destruct best as [[k0 v0]|].
      * destruct (Z.ltb_spec v0 (CurrentWeight b)) as [Hlt|Hge]; intros H;
          apply IH in H as [H|[Hle H]].
        -- injection H as <- <-. right. split; [lia|]. intros ? ? [= <- <-]. exact Hlt.
        -- right. split; [lia|]. intros ? ? [= <- <-].
           specialize (H _ _ eq_refl). lia.
        -- left. exact H.
        -- right. split; [lia|]. exact H.
      * intros H. apply IH in H as [H|[Hle H]].
        -- injection H as <- <-. right. split; [lia|]. intros ? ? [=].
        -- right. split; [lia|]. intros ? ? [=].
    + intros H. apply IH in H as [H|[Hle H]]; [left; exact H|].
      right. split; [lia|]. exact H.
Qed.

Lemma pick_best_first bs i best k v :
  (∀ k0 v0, best = Some (k0, v0) → (k0 < i)%nat) →
  pick_best bs i best = Some (k, v) →
  ∀ j b, bs !! j = Some b → IsHealthy b = true → (i + j < k)%nat → CurrentWeight b < v.
Proof.
  revert i best. induction bs as [|b0 rest IH]; intros i best Hold; simpl.
  - intros _ j b Hj. discriminate.
  - destruct (IsHealthy b0) eqn:Hb0; simpl.
    + destruct best as [[k0 v0]|].
      * destruct (Z.ltb_spec v0 (CurrentWeight b0)) as [Hlt|Hge]; intros H [|j] b Hj Hh Hlt'.
        -- injection Hj as <-.
           apply pick_best_strict in H as [H|[_ H]]; [injection H as <- <-; lia|].
           apply (H _ _ eq_refl).
        -- eapply (IH (S i)); [| exact H | exact Hj | exact Hh | lia].
           intros ? ? [= <- <-]. lia.
        -- injection Hj as <-.
           apply pick_best_strict in H as [H|[_ H]].
           ++ injection H as <- <-. specialize (Hold _ _ eq_refl). lia.
           ++ specialize (H _ _ eq_refl). lia.
        -- eapply (IH (S i)); [| exact H | exact Hj | exact Hh | lia].
           intros ? ? [= <- <-]. specialize (Hold _ _ eq_refl). lia.
      * intros H [|j] b Hj Hh Hlt'.
        -- injection Hj as <-.
           apply pick_best_strict in H as [H|[_ H]]; [injection H as <- <-; lia|].
           apply (H _ _ eq_refl).
        -- eapply (IH (S i)); [| exact H | exact Hj | exact Hh | lia].
           intros ? ? [= <- <-]. lia.
    + intros H [|j] b Hj Hh Hlt'.
      * injection Hj as <-. unfold IsHealthy in *. congruence.
      * eapply (IH (S i)); [| exact H | exact Hj | exact Hh | lia].
        intros ? ? Hbest. specialize (Hold _ _ Hbest). lia.
Qed.

Lemma bump_healthy_frame (s : SRR) :
  URL <$> (bump_healthy <$> s) = URL <$> s ∧
  Weight <$> (bump_healthy <$> s) = Weight <$> s ∧
  IsHealthy <$> (bump_healthy <$> s) = IsHealthy <$> s.
Proof.
  rewrite <- !list_fmap_compose. repeat split; apply list_fmap_ext; intros i b _; simpl;
    destruct (bump_healthy_fields b) as (H1 & H2 & H3); assumption.
Qed.

Lemma NextBackend_frame (s : SRR) :
  URL <$> snd (NextBackend s) = URL <$> s ∧
  Weight <$> snd (NextBackend s) = Weight <$> s ∧
  IsHealthy <$> snd (NextBackend s) = IsHealthy <$> s.
Proof.
  destruct (bump_healthy_frame s) as (H1 & H2 & H3).
  destruct (NextBackend s) as [[k|e] s'] eqn:E; simpl.
  - apply NextBackend_Selected in E as (_ & -> & _).
    rewrite !fmap_alter_frame by reflexivity. auto.
  - apply NextBackend_Failed in E as (_ & -> & _). auto.
Qed.

Lemma calls_frame n : ∀ s : SRR,
  URL <$> snd (calls n s) = URL <$> s ∧
  Weight <$> snd (calls n s) = Weight <$> s ∧
  IsHealthy <$> snd (calls n s) = IsHealthy <$> s.
Proof.
  induction n as [|n IH]; intros s; simpl; [auto|].
  destruct (NextBackend_frame s) as (H1 & H2 & H3).
  destruct (NextBackend s) as [r s1]. simpl in *.
  destruct (IH s1) as (I1 & I2 & I3). destruct (calls n s1) as [rs s2]. simpl in *.
  rewrite I1, I2, I3. auto.
Qed.

End BalancerMore.

Section BalancerOps.
Import GoInt.

Lemma RemoveBackend_none (s : SRR) url :
  Forall (λ x, URL x ≠ url) s → RemoveBackend s url = (false, s).
Proof.
  induction 1 as [|b rest Hb _ IH]; simpl; [reflexivity|].
  destruct (String.eqb_spec (URL b) url); [contradiction|]. rewrite IH. reflexivity.
Qed.

Lemma RemoveBackend_at (pre post : SRR) b url :
  Forall (λ x, URL x ≠ url) pre → URL b = url →
  RemoveBackend (pre ++ b :: post) url = (true, pre ++ post).
Proof.
  intros Hpre Hb. induction Hpre as [|x pre Hx _ IH]; simpl.
  - destruct (String.eqb_spec (URL b) url); [reflexivity|contradiction].
  - destruct (String.eqb_spec (URL x) url); [contradiction|]. rewrite IH. reflexivity.
Qed.

Lemma SRR_SetHealthy_none (s : SRR) url h :
  Forall (λ x, URL x ≠ url) s → SRR_SetHealthy s url h = (false, s).
Proof.
  induction 1 as [|b rest Hb _ IH]; simpl; [reflexivity|].
  destruct (String.eqb_spec (URL b) url); [contradiction|]. rewrite IH. reflexivity.
Qed.

Lemma SRR_SetHealthy_at (pre post : SRR) b url h :
  Forall (λ x, URL x ≠ url) pre → URL b = url →
  SRR_SetHealthy (pre ++ b :: post) url h = (true, pre ++ SetHealthy h b :: post).
Proof.
  intros Hpre Hb. induction Hpre as [|x pre Hx _ IH]; simpl.
  - destruct (String.eqb_spec (URL b) url); [reflexivity|contradiction].
  - destruct (String.eqb_spec (URL x) url); [contradiction|]. rewrite IH. reflexivity.
Qed.

(** Every pool splits at the first backend with a given URL, if any. *)
Lemma first_match_split (s : SRR) url :
  Forall (λ x, URL x ≠ url) s ∨
  ∃ pre b post, s = pre ++ b :: post ∧ Forall (λ x, URL x ≠ url) pre ∧ URL b = url.
Proof.
  induction s as [|x rest IH]; [left; constructor|].
  destruct (decide (URL x = url)) as [Hx|Hx].
  - right. exists [], x, rest. repeat split; [constructor|exact Hx].
  - destruct IH as [IH|(pre & b & post & -> & Hpre & Hb)].
    + left. constructor; assumption.
    + right. exists (x :: pre), b, post. repeat split; [constructor; assumption|exact Hb].
Qed.

Lemma HealthyCount_flags (s : SRR) :
  HealthyCount s = length (filter (λ x, x = true) (IsHealthy <$> s)).
Proof.
  unfold HealthyCount. induction s as [|b rest IH]; [reflexivity|].
  rewrite fmap_cons, !filter_cons.
  destruct (decide (IsHealthy b = true)); simpl; rewrite IH; reflexivity.
Qed.

Lemma HealthyCount_zero (s : SRR) :
  HealthyCount s = O ↔ Forall (λ b, IsHealthy b = false) s.
Proof.
  unfold HealthyCount. induction s as [|b rest IH]; [split; [constructor|reflexivity]|].
  rewrite filter_cons. destruct (decide (IsHealthy b = true)) as [Hb|Hb]; simpl.
  - split; [discriminate|]. intros H. inversion H; congruence.
  - rewrite IH. split; intros H.
    + constructor; [apply not_true_is_false, Hb|exact H].
    + inversion H; assumption.
Qed.

Lemma calls_nil n : calls n [] = (replicate n (Failed ErrNoHealthyBackends), []).
Proof. induction n as [|n IH]; simpl; [reflexivity|]. rewrite IH. reflexivity. Qed.

End BalancerOps.

(** X1. [RemoveBackend] cuts out the first backend with the given URL
    and returns [true]; the backends before and after it, later ones
    with the same URL included, stay in their order. When no backend has
    that URL it returns [false] and the pool is unchanged. *)
Theorem RemoveBackend_first_match (s : SRR) (url : string) :
  (Forall (λ x, URL x ≠ url) s → RemoveBackend s url = (false, s)) ∧
  (∀ pre b post, s = pre ++ b :: post → Forall (λ x, URL x ≠ url) pre → URL b = url →
     RemoveBackend s url = (true, pre ++ post)) ∧
  (fst (RemoveBackend s url) = true ↔ ∃ b, b ∈ s ∧ URL b = url).
Proof.
  split; [apply RemoveBackend_none|]. split.
  - intros pre b post -> Hpre Hb. apply RemoveBackend_at; assumption.
  - destruct (first_match_split s url) as [Hn|(pre & b & post & -> & Hpre & Hb)].
    + rewrite RemoveBackend_none by exact Hn. simpl. split; [discriminate|].
      intros (b & Hin & Hb). rewrite Forall_forall in Hn. destruct (Hn b Hin Hb).
    + rewrite RemoveBackend_at by assumption. simpl. split; [|reflexivity].
      intros _. exists b. split; [|exact Hb]. apply elem_of_app. right. left.
Qed.

Lemma RemoveBackend_first_match_witness :
  RemoveBackend [NewBackend "a" 1; NewBackend "b" 2; NewBackend "a" 3] "a"
  = (true, [NewBackend "b" 2; NewBackend "a" 3]) ∧
  RemoveBackend [NewBackend "a" 1] "c" = (false, [NewBackend "a" 1]).
Proof.
  split.
  - apply (proj1 (proj2 (RemoveBackend_first_match _ "a")) [] (NewBackend "a" 1)
             [NewBackend "b" 2; NewBackend "a" 3]); [reflexivity|constructor|reflexivity].
  - apply (proj1 (RemoveBackend_first_match _ "c")). repeat constructor. discriminate.
Defined.

(** X2. The balancer's [SetHealthy] sets the flag of the first backend
    with the given URL, leaves every other backend (later ones with the
    same URL included) as it is, and returns [true]; when no backend has
    that URL it returns [false] and changes nothing. *)
Theorem SRR_SetHealthy_first_match (s : SRR) (url : string) (h : bool) :
  (Forall (λ x, URL x ≠ url) s → SRR_SetHealthy s url h = (false, s)) ∧
  (∀ pre b post, s = pre ++ b :: post → Forall (λ x, URL x ≠ url) pre → URL b = url →
     SRR_SetHealthy s url h = (true, pre ++ SetHealthy h b :: post)) ∧
  (fst (SRR_SetHealthy s url h) = true ↔ ∃ b, b ∈ s ∧ URL b = url).
Proof.
  split; [apply SRR_SetHealthy_none|]. split.
  - intros pre b post -> Hpre Hb. apply SRR_SetHealthy_at; assumption.
  - destruct (first_match_split s url) as [Hn|(pre & b & post & -> & Hpre & Hb)].
    + rewrite SRR_SetHealthy_none by exact Hn. simpl. split; [discriminate|].
      intros (b & Hin & Hb). rewrite Forall_forall in Hn. destruct (Hn b Hin Hb).
    + rewrite SRR_SetHealthy_at by assumption. simpl. split; [|reflexivity].
      intros _. exists b. split; [|exact Hb]. apply elem_of_app. right. left.
Qed.

Lemma SRR_SetHealthy_first_match_witness :
  SRR_SetHealthy [NewBackend "a" 1; NewBackend "b" 2; NewBackend "b" 3] "b" false
  = (true, [NewBackend "a" 1; SetHealthy false (NewBackend "b" 2); NewBackend "b" 3]) ∧
  SRR_SetHealthy [NewBackend "a" 1] "c" false = (false, [NewBackend "a" 1]).
Proof.
  split.
  - apply (proj1 (proj2 (SRR_SetHealthy_first_match _ "b" false)) [NewBackend "a" 1]
             (NewBackend "b" 2) [NewBackend "b" 3]);
      [reflexivity|repeat constructor; discriminate|reflexivity].
  - apply (proj1 (SRR_SetHealthy_first_match _ "c" false)). repeat constructor. discriminate.
Defined.

(** X3. Ties are broken by position: the backend that [NextBackend]
    returns has, after the first loop, a current weight that is at least
    that of every healthy backend and strictly greater than that of
    every healthy backend before it in the slice. *)
Theorem NextBackend_first_maximum (s s' : SRR) (k : nat) :
  NextBackend s = (Selected k, s') →
  ∃ bk, (bump_healthy <$> s) !! k = Some bk ∧ IsHealthy bk = true ∧
        ∀ j b, (bump_healthy <$> s) !! j = Some b → IsHealthy b = true →
               CurrentWeight b <= CurrentWeight bk ∧
               ((j < k)%nat → CurrentWeight b < CurrentWeight bk).
Proof.
  unfold NextBackend. destruct s as [|b0 rest]; [discriminate|].
  rewrite accumulate_spec.
  destruct (healthy_total (b0 :: rest) 0 =? 0); [discriminate|].
  destruct (pick_best _ _ _) as [[i v]|] eqn:Hp; [|discriminate].
  intros H. injection H as <- <-.
  assert (Hnone : ∀ k0 v0, @None (nat * Z) = Some (k0, v0) → (k0 < 0)%nat)
    by (intros ? ? ?; discriminate).
  pose proof (pick_best_first _ _ _ _ _ Hnone Hp) as Hfirst.
  apply pick_best_Some in Hp as (Hsrc & Hmax & _).
  destruct Hsrc as [|(bk & _ & Hl & Hh & Hv)]; [discriminate|].
  rewrite Nat.sub_0_r in Hl. exists bk. subst v. split; [exact Hl|]. split; [exact Hh|].
  intros j b Hj Hb. split.
  - apply Hmax; [|exact Hb]. eapply list_elem_of_lookup_2. exact Hj.
  - intros Hjk. eapply Hfirst; [exact Hj|exact Hb|lia].
Qed.

(** Two backends of equal weight: the first one is returned, and the
    second one is not strictly better. *)
Lemma NextBackend_first_maximum_witness :
  fst (NextBackend [NewBackend "A" 2; NewBackend "B" 2]) = Selected 0 ∧
  CurrentWeight (bump_healthy (NewBackend "B" 2)) <= 2.
Proof.
  split; [reflexivity|].
  destruct (NextBackend_first_maximum [NewBackend "A" 2; NewBackend "B" 2] _ 0 eq_refl)
    as (bk & Hk & _ & Hall).
  injection Hk as <-.
  exact (proj1 (Hall 1%nat (bump_healthy (NewBackend "B" 2)) eq_refl eq_refl)).
Defined.

Section BalancerRuns.
Import GoInt.

Lemma Selected_is_healthy (s s' : SRR) k :
  NextBackend s = (Selected k, s') → ∃ b, s !! k = Some b ∧ IsHealthy b = true.
Proof.
  intros E. apply NextBackend_Selected in E as (_ & _ & b1 & Hk & Hh & _).
  rewrite list_lookup_fmap in Hk.
  destruct (s !! k) as [b|]; [|discriminate]. injection Hk as <-.
  exists b. split; [reflexivity|].
  destruct (bump_healthy_fields b) as (_ & _ & <-). exact Hh.
Qed.

Lemma healthy_lookup_transfer (s s' : SRR) i b' :
  IsHealthy <$> s' = IsHealthy <$> s → s' !! i = Some b' →
  ∃ b, s !! i = Some b ∧ IsHealthy b = IsHealthy b'.
Proof.
  intros Heq Hi.
  assert (H : (IsHealthy <$> s') !! i = (IsHealthy <$> s) !! i) by (rewrite Heq; reflexivity).
  rewrite !list_lookup_fmap, Hi in H. destruct (s !! i) as [b|]; [|discriminate].
  injection H as H. exists b. auto.
Qed.

Lemma calls_select_healthy n : ∀ (s : SRR) i,
  Selected i ∈ fst (calls n s) → ∃ b, s !! i = Some b ∧ IsHealthy b = true.
Proof.
  induction n as [|n IH]; intros s i; simpl; [intros H; inversion H|].
  destruct (NextBackend_frame s) as (_ & _ & Hfr).
  destruct (NextBackend s) as [r s1] eqn:E. simpl in Hfr.
  specialize (IH s1 i). destruct (calls n s1) as [rs s2]. simpl in *.
  intros Hin. apply elem_of_cons in Hin as [<-|Hin].
  - eapply Selected_is_healthy. exact E.
  - destruct (IH Hin) as (b1 & Hb1 & Hh1).
    destruct (healthy_lookup_transfer s s1 i b1 Hfr Hb1) as (b & Hb & Hhb).
    exists b. split; [exact Hb|congruence].
Qed.

(** The state of the pool after any number of calls from the zero state. *)
Lemma fair_run (s : SRR) (n : nat) :
  s ≠ [] →
  Forall (λ b, IsHealthy b = true ∧ 0 < Weight b ∧ CurrentWeight b = 0) s →
  Z.of_nat (length s) * sumZ (Weight <$> s) <= max_int →
  fair_state (Weight <$> s) (Z.of_nat n)
    (λ j, Z.of_nat (selections j (fst (calls n s)))) (snd (calls n s)).
Proof.
  intros Hne Hinit Hmax.
  assert (Hpos : Forall (λ b, 0 < Weight b) s).
  { eapply Forall_impl; [exact Hinit|]. intros x (_ & H & _). exact H. }
  assert (HW : 0 < sumZ (Weight <$> s)).
  { destruct s as [|b rest]; [congruence|].
    pose proof (weight_le_total (b :: rest) b Hpos ltac:(left)). lia. }
  assert (Hfair0 : fair_state (Weight <$> s) 0 (λ _, 0) s).
  { split; [reflexivity|]. split; [|split].
    - eapply Forall_impl; [exact Hinit|]. intros x (Hh & Hw & Hc).
      split; [exact Hh|]. split; [exact Hw|]. lia.
    - apply sumZ_zeros, Forall_fmap. eapply Forall_impl; [exact Hinit|].
      intros x (_ & _ & Hc). exact Hc.
    - intros j x Hj. rewrite Forall_forall in Hinit.
      destruct (Hinit x (list_elem_of_lookup_2 _ _ _ Hj)) as (_ & _ & ->). lia. }
  assert (Hws : Weight <$> s ≠ []) by (destruct s; [congruence|discriminate]).
  rewrite <- (length_fmap Weight) in Hmax.
  pose proof (fair_calls _ n 0 (λ _, 0) s Hws Hmax Hfair0) as H.
  eapply fair_state_ext; [| |exact H]; [lia|]. intros j. simpl. lia.
Qed.

End BalancerRuns.

(** X4. [NextBackend] changes current weights only: after any number of
    calls the pool has the same backends with the same URLs, weights and
    liveness flags in the same order, and every backend that one of the
    calls returned is a healthy backend of the pool. *)
Theorem NextBackend_changes_only_CurrentWeight (s : SRR) (n : nat) :
  URL <$> snd (calls n s) = URL <$> s ∧
  Weight <$> snd (calls n s) = Weight <$> s ∧
  IsHealthy <$> snd (calls n s) = IsHealthy <$> s ∧
  ∀ i, Selected i ∈ fst (calls n s) → ∃ b, s !! i = Some b ∧ IsHealthy b = true.
Proof.
  destruct (calls_frame n s) as (H1 & H2 & H3). repeat split; try assumption.
  apply calls_select_healthy.
Qed.

Lemma NextBackend_changes_only_CurrentWeight_witness :
  ∃ b, [NewBackend "A" 1; SetHealthy false (NewBackend "B" 5)] !! 0%nat = Some b ∧
       IsHealthy b = true.
Proof.
  apply (proj2 (proj2 (proj2 (NextBackend_changes_only_CurrentWeight
           [NewBackend "A" 1; SetHealthy false (NewBackend "B" 5)] 3)))).
  vm_compute. left.
Defined.

(** X5. The balancer is periodic: in a pool of healthy backends with
    positive weights and current weights zero (and [n · Σw] an [int]),
    every [Σw] calls bring the pool back to exactly the state it started
    from. *)
Theorem SWRR_period (s : SRR) (k : nat) :
  Forall (λ b, IsHealthy b = true ∧ 0 < Weight b ∧ CurrentWeight b = 0) s →
  Z.of_nat (length s) * sumZ (Weight <$> s) <= GoInt.max_int →
  snd (calls (k * Z.to_nat (sumZ (Weight <$> s))) s) = s.
Proof.
  intros Hinit Hmax. destruct (decide (s = [])) as [->|Hne].
  { rewrite calls_nil. reflexivity. }
  set (W := sumZ (Weight <$> s)) in *.
  assert (HW : 0 < W).
  { destruct s as [|b rest]; [congruence|].
    assert (Hpos : Forall (λ b, 0 < Weight b) (b :: rest)).
    { eapply Forall_impl; [exact Hinit|]. intros x (_ & H & _). exact H. }
    pose proof (weight_le_total (b :: rest) b Hpos ltac:(left)). unfold W. lia. }
  destruct (fair_run s (k * Z.to_nat W) Hne Hinit Hmax) as (_ & Hall & Hsum & Hcnt).
  destruct (calls_frame (k * Z.to_nat W) s) as (Hu & Hw & Hh).
  destruct (calls (k * Z.to_nat W) s) as [rs s'] eqn:E. simpl in *. fold W in Hall, Hcnt.
  replace (Z.of_nat (k * Z.to_nat W)) with (Z.of_nat k * W) in Hcnt by lia.
  assert (Hnn : Forall (λ x, 0 <= x) (CurrentWeight <$> s')).
  { apply Forall_fmap, Forall_lookup. intros j x Hj. simpl.
    rewrite Forall_forall in Hall.
    destruct (Hall x (list_elem_of_lookup_2 _ _ _ Hj)) as (_ & _ & Hlo).
    specialize (Hcnt j x Hj).
    assert (0 <= Z.of_nat k * Weight x - Z.of_nat (selections j rs)) by nia.
    nia. }
  pose proof (sumZ_zero_nonneg _ Hnn Hsum) as Hzero.
  rewrite Forall_fmap, Forall_lookup in Hzero.
  apply list_eq. intros i.
  assert (Hui : (URL <$> s') !! i = (URL <$> s) !! i) by (rewrite Hu; reflexivity).
  assert (Hwi : (Weight <$> s') !! i = (Weight <$> s) !! i) by (rewrite Hw; reflexivity).
  assert (Hhi : (IsHealthy <$> s') !! i = (IsHealthy <$> s) !! i) by (rewrite Hh; reflexivity).
  rewrite !list_lookup_fmap in Hui. rewrite !list_lookup_fmap in Hwi.
  rewrite !list_lookup_fmap in Hhi.
  destruct (s' !! i) as [b'|] eqn:Hb', (s !! i) as [b|] eqn:Hb; try discriminate;
    [|reflexivity].
  f_equal. injection Hui as Hui. injection Hwi as Hwi. injection Hhi as Hhi.
  apply backend_eq; try assumption.
  specialize (Hzero i b' Hb'). simpl in Hzero. rewrite Hzero.
  rewrite Forall_forall in Hinit.
  destruct (Hinit b (list_elem_of_lookup_2 _ _ _ Hb)) as (_ & _ & ->). reflexivity.
Qed.

Lemma SWRR_period_witness : snd (calls 12 poolABC) = poolABC.
Proof.
  apply (SWRR_period poolABC 2).
  - repeat constructor.
  - vm_compute. discriminate.
Defined.

(** X6. In such a pool the current weights stay bounded for ever: after
    any number of calls every current weight lies above [−Σw] and is at
    most [(n − 1)·(Σw − 1)], and the current weights add up to zero. *)
Theorem SWRR_current_weight_bounds (s : SRR) (n : nat) :
  Forall (λ b, IsHealthy b = true ∧ 0 < Weight b ∧ CurrentWeight b = 0) s →
  Z.of_nat (length s) * sumZ (Weight <$> s) <= GoInt.max_int →
  sumZ (CurrentWeight <$> snd (calls n s)) = 0 ∧
  Forall (λ b, - sumZ (Weight <$> s) < CurrentWeight b <=
               (Z.of_nat (length s) - 1) * (sumZ (Weight <$> s) - 1))
         (snd (calls n s)).
Proof.
  intros Hinit Hmax. destruct (decide (s = [])) as [->|Hne].
  { rewrite calls_nil. simpl. split; [reflexivity|constructor]. }
  destruct (fair_run s n Hne Hinit Hmax) as (Hws & Hall & Hsum & _).
  split; [exact Hsum|].
  set (W := sumZ (Weight <$> s)) in *.
  assert (Hlen : length (snd (calls n s)) = length s).
  { rewrite <- (length_fmap Weight), Hws, length_fmap. reflexivity. }
  assert (Hlow : Forall (λ x, 1 - W <= x) (CurrentWeight <$> snd (calls n s))).
  { apply Forall_fmap. eapply Forall_impl; [exact Hall|]. intros x (_ & _ & H). simpl. lia. }
  rewrite Forall_forall. intros b Hb. rewrite Forall_forall in Hall.
  destruct (Hall b Hb) as (_ & _ & Hlo). split; [exact Hlo|].
  pose proof (sumZ_elem_upper (1 - W) _ (CurrentWeight b) Hlow
                (list_elem_of_fmap_2 CurrentWeight _ b Hb)) as Hup.
  rewrite Hsum, length_fmap, Hlen in Hup. nia.
Qed.

Lemma SWRR_current_weight_bounds_witness :
  sumZ (CurrentWeight <$> snd (calls 4 poolABC)) = 0.
Proof.
  apply (SWRR_current_weight_bounds poolABC 4).
  - repeat constructor.
  - vm_compute. discriminate.
Defined.

(** X7. [HealthyCount] is the number of backends whose flag is set; it
    is zero exactly when no backend is healthy, and then [NextBackend]
    fails and leaves the pool as it is. [NextBackend] never changes it. *)
Theorem HealthyCount_NextBackend (s : SRR) :
  (HealthyCount s <= length s)%nat ∧
  (HealthyCount s = O ↔ Forall (λ b, IsHealthy b = false) s) ∧
  (HealthyCount s = O → NextBackend s = (Failed ErrNoHealthyBackends, s)) ∧
  HealthyCount (snd (NextBackend s)) = HealthyCount s.
Proof.
  split; [apply length_filter|]. split; [apply HealthyCount_zero|]. split.
  - intros Hz. apply HealthyCount_zero in Hz.
    pose proof (NextBackend_fails s (or_intror Hz)) as Hf.
    destruct (NextBackend s) as [r s'] eqn:E. simpl in Hf. subst r.
    apply NextBackend_Failed in E as (_ & -> & _). f_equal.
    apply list_eq. intros i. rewrite list_lookup_fmap.
    destruct (s !! i) as [b|] eqn:Hb; [|reflexivity]. simpl. f_equal.
    apply bump_healthy_unhealthy. rewrite Forall_forall in Hz.
    apply Hz. eapply list_elem_of_lookup_2. exact Hb.
  - rewrite !HealthyCount_flags. destruct (NextBackend_frame s) as (_ & _ & ->). reflexivity.
Qed.

Lemma HealthyCount_NextBackend_witness :
  NextBackend [SetHealthy false (NewBackend "A" 1)]
  = (Failed ErrNoHealthyBackends, [SetHealthy false (NewBackend "A" 1)]).
Proof.
  apply (proj1 (proj2 (proj2 (HealthyCount_NextBackend _)))). reflexivity.
Defined.

(** X8. Adding a new backend whose URL no backend of the pool has, and
    removing that URL again, gives back the pool; [GetBackends] has one
    more element in between. *)
Theorem AddBackend_RemoveBackend (s : SRR) (url : string) (weight : Z) :
  Forall (λ x, URL x ≠ url) s →
  RemoveBackend (AddBackend s (NewBackend url weight)) url = (true, s) ∧
  length (GetBackends (AddBackend s (NewBackend url weight))) = S (length s) ∧
  GetBackends (AddBackend s (NewBackend url weight)) !! length s
  = Some (NewBackend url weight).
Proof.
  intros Hfresh. unfold AddBackend, GetBackends. split; [|split].
  - rewrite (RemoveBackend_at s [] (NewBackend url weight) url Hfresh eq_refl).
    rewrite app_nil_r. reflexivity.
  - rewrite length_app. simpl. lia.
  - rewrite lookup_app_r by lia. rewrite Nat.sub_diag. reflexivity.
Qed.

Lemma AddBackend_RemoveBackend_witness :
  RemoveBackend (AddBackend poolABC (NewBackend "D" 4)) "D" = (true, poolABC).
Proof.
  apply (AddBackend_RemoveBackend poolABC "D" 4). repeat constructor; discriminate.
Defined.

(** * Further properties of the cache *)

Section CacheMore.
Import Cache.

Lemma cache_eq (c c' : Cache) : entries c = entries c' → ttl c = ttl c' → c = c'.
Proof. destruct c, c'. simpl. intros -> ->. reflexivity. Qed.

Lemma filter_live_id now (m : gmap string Entry) :
  filter (λ kv, IsExpired now kv.2 = false)
    (filter (λ kv : string * Entry, IsExpired now kv.2 = false) m)
  = filter (λ kv, IsExpired now kv.2 = false) m.
Proof.
  apply map_filter_id. intros k e He.
  apply map_lookup_filter_Some in He as [_ He]. exact He.
Qed.

Lemma filter_dead_live_empty now (m : gmap string Entry) :
  filter (λ kv, IsExpired now kv.2 = true)
    (filter (λ kv : string * Entry, IsExpired now kv.2 = false) m) = ∅.
Proof.
  apply map_empty. intros k. apply map_lookup_filter_None.
  destruct (filter (λ kv : string * Entry, IsExpired now kv.2 = false) m !! k) as [e|] eqn:He;
    [right|left; reflexivity].
  intros e' [= <-]. apply map_lookup_filter_Some in He as [_ He]. simpl in *. congruence.
Qed.

End CacheMore.

(** X9. [Set] stores under one key only: a [Get] of any other key
    answers as before; a second [Set] of the same key replaces the first
    entry altogether, its expiry included, so the cache is as if the
    first [Set] had not happened; the size grows by one for a key that
    had no entry and stays the same otherwise. *)
Theorem Set_isolated_overwrite (c : Cache.Cache) (key : string)
    (v v' : list Byte.byte) (h h' : Cache.http_Header) (t t' now : Z) :
  (∀ key', key' ≠ key →
     Cache.Get now (Cache.Set_ t c key v h) key' = Cache.Get now c key') ∧
  Cache.Set_ t' (Cache.Set_ t c key v h) key v' h' = Cache.Set_ t' c key v' h' ∧
  (now <= t' + Cache.ttl c →
     Cache.Get now (Cache.Set_ t' (Cache.Set_ t c key v h) key v' h') key = Some (v', h')) ∧
  Cache.Size (Cache.Set_ t c key v h)
  = match Cache.entries c !! key with
    | Some _ => Cache.Size c
    | None => S (Cache.Size c)
    end ∧
  Cache.ttl (Cache.Set_ t c key v h) = Cache.ttl c.
Proof.
  split; [|split; [|split; [|split]]].
  - intros key' Hne. rewrite !Get_spec. simpl. rewrite lookup_insert_ne by congruence.
    reflexivity.
  - apply cache_eq; [|reflexivity]. simpl. apply insert_insert_eq.
  - intros Hnow. rewrite Get_spec. simpl. rewrite lookup_insert_eq. simpl.
    destruct (Z.ltb_spec (t' + Cache.ttl c) now); [lia|reflexivity].
  - unfold Cache.Size. simpl. destruct (Cache.entries c !! key) as [e|] eqn:He.
    + apply map_size_insert_Some. eauto.
    + apply map_size_insert_None, He.
  - reflexivity.
Qed.

Lemma Set_isolated_overwrite_witness :
  let c := Cache.Set_ 0 (Cache.NewCache 60) "GET:/a" [] ∅ in
  Cache.Get 100 (Cache.Set_ 50 c "GET:/a" [] ∅) "GET:/a" = Some ([], ∅) ∧
  Cache.Get 10 (Cache.Set_ 5 c "GET:/b" [] ∅) "GET:/a" = Cache.Get 10 c "GET:/a".
Proof.
  intros c. split.
  - apply (proj1 (proj2 (proj2 (Set_isolated_overwrite (Cache.NewCache 60) "GET:/a"
                                  [] [] ∅ ∅ 0 50 100)))). simpl. lia.
  - apply (proj1 (Set_isolated_overwrite c "GET:/b" [] [] ∅ ∅ 5 5 10)). discriminate.
Defined.

(** X10. After [Delete] the key is a miss and every other key answers
    as before; deleting a key that has no entry changes nothing. After
    [Clear] the cache is empty, every key is a miss, and the ttl is
    kept. *)
Theorem Delete_Clear (c : Cache.Cache) (key : string) (now : Z) :
  Cache.Get now (Cache.Delete c key) key = None ∧
  (∀ key', key' ≠ key → Cache.Get now (Cache.Delete c key) key' = Cache.Get now c key') ∧
  (Cache.entries c !! key = None → Cache.Delete c key = c) ∧
  (∀ e, Cache.entries c !! key = Some e →
        S (Cache.Size (Cache.Delete c key)) = Cache.Size c) ∧
  Cache.Size (Cache.Clear c) = O ∧ Cache.Get now (Cache.Clear c) key = None ∧
  Cache.Clear c = Cache.NewCache (Cache.ttl c).
Proof.
  split; [|split; [|split; [|split; [|split; [|split]]]]].
  - rewrite Get_spec. simpl. rewrite lookup_delete_eq. reflexivity.
  - intros key' Hne. rewrite !Get_spec. simpl. rewrite lookup_delete_ne by congruence.
    reflexivity.
  - intros Hnone. apply cache_eq; [|reflexivity]. simpl. apply delete_id, Hnone.
  - intros e He. unfold Cache.Size. simpl.
    rewrite (map_size_delete_Some key (Cache.entries c)) by eauto.
    assert (size (Cache.entries c) ≠ O).
    { apply map_size_ne_0_lookup_2 with key. eauto. }
    lia.
  - unfold Cache.Size. simpl. apply map_size_empty.
  - rewrite Get_spec. simpl. rewrite lookup_empty. reflexivity.
  - reflexivity.
Qed.

Lemma Delete_Clear_witness :
  let c := Cache.Set_ 0 (Cache.NewCache 60) "GET:/a" [] ∅ in
  Cache.Delete c "GET:/b" = c ∧ S (Cache.Size (Cache.Delete c "GET:/a")) = Cache.Size c.
Proof.
  intros c. split.
  - apply (proj1 (proj2 (proj2 (Delete_Clear c "GET:/b" 0)))). reflexivity.
  - apply (proj1 (proj2 (proj2 (proj2 (Delete_Clear c "GET:/a" 0))))
             (Cache.NewEntry 0 "GET:/a" [] ∅ 60)). reflexivity.
Defined.

(** X11. [CleanupExpired] is invisible to readers: at the time of the
    sweep and at any later time, [Get] answers for every key as it
    would have without the sweep. A second sweep at the same time
    removes nothing. *)
Theorem CleanupExpired_transparent (c : Cache.Cache) (now now' : Z) (key : string) :
  (now <= now' →
   Cache.Get now' (snd (Cache.CleanupExpired now c)) key = Cache.Get now' c key) ∧
  Cache.CleanupExpired now (snd (Cache.CleanupExpired now c))
  = (O, snd (Cache.CleanupExpired now c)).
Proof.
  rewrite (CleanupExpired_spec now c). simpl. split.
  - intros Hle. rewrite !Get_spec. simpl. rewrite map_lookup_filter.
    destruct (Cache.entries c !! key) as [e|]; simpl; [|reflexivity].
    unfold Cache.IsExpired.
    destruct (Z.ltb_spec (Cache.ExpiresAt e) now) as [Hdead|Hlive].
    + rewrite option_guard_False by (simpl; congruence). simpl.
      destruct (Z.ltb_spec (Cache.ExpiresAt e) now'); [reflexivity|lia].
    + rewrite option_guard_True by reflexivity. reflexivity.
  - rewrite CleanupExpired_spec. simpl.
    rewrite filter_dead_live_empty, filter_live_id, map_size_empty. reflexivity.
Qed.

Lemma CleanupExpired_transparent_witness :
  let c := Cache.Set_ 50 (Cache.Set_ 0 (Cache.NewCache 60) "GET:/x" [] ∅) "GET:/y" [] ∅ in
  Cache.Get 105 (snd (Cache.CleanupExpired 100 c)) "GET:/y" = Cache.Get 105 c "GET:/y".
Proof.
  intros c. apply (proj1 (CleanupExpired_transparent c 100 105 "GET:/y")). lia.
Defined.

(** * Further properties of the rate limiter *)

Section LimiterMore.
Import RateLimit.
Context {B : Type} `{TokenBucket B}.

Lemma limiter_eq (r r' : Limiter B) :
  limiters r = limiters r' → limit r = limit r' → burst r = burst r' → r = r'.
Proof. destruct r, r'. simpl. intros -> -> ->. reflexivity. Qed.

Lemma Allow_known now (r : Limiter B) ip l :
  limiters r !! ip = Some l →
  Allow now r ip =
  (fst (rate_Allow now (limiter l)),
   with_limiters r (<[ip := {| limiter := snd (rate_Allow now (limiter l));
                               lastSeen := now |}]> (limiters r))).
Proof.
  intros Hip. unfold Allow. rewrite Hip. unfold touch.
  destruct (rate_Allow now (limiter l)) as [ok b]. reflexivity.
Qed.

Lemma Allow_dom now (r : Limiter B) ip :
  dom (limiters (snd (Allow now r ip))) = {[ip]} ∪ dom (limiters r).
Proof.
  destruct (limiters r !! ip) as [l|] eqn:Hip.
  - rewrite (Allow_known now r ip l Hip). simpl. apply dom_insert_L.
  - rewrite (Allow_unseen now r ip Hip). simpl. apply dom_insert_L.
Qed.

Lemma allow_all_dom reqs : ∀ r : Limiter B,
  dom (limiters (Runs.allow_all reqs r)) = list_to_set reqs.*2 ∪ dom (limiters r).
Proof.
  induction reqs as [|[t ip] reqs IH]; intros r.
  - simpl. rewrite (left_id_L ∅ (∪)). reflexivity.
  - unfold Runs.allow_all in *. simpl. rewrite IH, Allow_dom.
    rewrite (assoc_L (∪)), (comm_L (∪) (list_to_set reqs.*2)). reflexivity.
Qed.

End LimiterMore.

(** X12. [Allow] for a client that has a bucket asks that bucket and
    sets its [lastSeen] to the time of the call, whether the request is
    granted or not; no bucket is created, and the buckets of the other
    clients are not touched. *)
Theorem Allow_known_client {B : Type} `{RateLimit.TokenBucket B}
    (now : Z) (r : RateLimit.Limiter B) (ip : string) (l : RateLimit.clientLimiter B) :
  RateLimit.limiters r !! ip = Some l →
  let answer := RateLimit.rate_Allow now (RateLimit.limiter l) in
  let r' := snd (RateLimit.Allow now r ip) in
  fst (RateLimit.Allow now r ip) = fst answer ∧
  RateLimit.limiters r' !! ip
  = Some {| RateLimit.limiter := snd answer; RateLimit.lastSeen := now |} ∧
  (∀ ip', ip' ≠ ip → RateLimit.limiters r' !! ip' = RateLimit.limiters r !! ip') ∧
  RateLimit.Size r' = RateLimit.Size r ∧
  RateLimit.limit r' = RateLimit.limit r ∧ RateLimit.burst r' = RateLimit.burst r.
Proof.
  intros Hip. simpl. rewrite (Allow_known now r ip l Hip). simpl.
  split; [reflexivity|]. split; [apply lookup_insert_eq|]. split.
  - intros ip' Hne. apply lookup_insert_ne. congruence.
  - split; [|split; reflexivity]. unfold RateLimit.Size. simpl.
    apply map_size_insert_Some. eauto.
Qed.

Lemma Allow_known_client_witness :
  let r := snd (RateLimit.Allow 0 (RateLimit.NewLimiter 60 1) "10.0.0.1") in
  RateLimit.Size (snd (RateLimit.Allow 5 r "10.0.0.1")) = RateLimit.Size r.
Proof.
  intros r.
  destruct (Allow_known_client 5 r "10.0.0.1"
              {| RateLimit.limiter :=
                   snd (RateLimit.bucket_allow 0 (RateLimit.bucket_new (60 / 60) 1));
                 RateLimit.lastSeen := 0 |}) as (_ & _ & _ & Hsize & _).
  - reflexivity.
  - exact Hsize.
Defined.

(** X13. The limiter holds exactly one bucket for each address it has
    seen: after any run of [Allow] calls the addresses with a bucket are
    those of the run together with those that had one before, and
    [Size] of a limiter that started empty is the number of distinct
    addresses of the run. *)
Theorem one_bucket_per_address {B : Type} `{RateLimit.TokenBucket B}
    (reqs : list (Z * string)) (r : RateLimit.Limiter B) :
  dom (RateLimit.limiters (Runs.allow_all reqs r))
  = list_to_set reqs.*2 ∪ dom (RateLimit.limiters r) ∧
  (RateLimit.limiters r = ∅ →
   RateLimit.Size (Runs.allow_all reqs r) = size (list_to_set reqs.*2 : gset string)).
Proof.
  split; [apply allow_all_dom|].
  intros Hempty. unfold RateLimit.Size. rewrite <- size_dom, allow_all_dom, Hempty.
  rewrite dom_empty_L, (right_id_L ∅ (∪)). reflexivity.
Qed.

Lemma one_bucket_per_address_witness :
  RateLimit.Size
    (Runs.allow_all [(0, "10.0.0.1"); (1, "10.0.0.2"); (2, "10.0.0.1")]
       (RateLimit.NewLimiter 60 10)) = 2%nat.
Proof.
  rewrite (proj2 (one_bucket_per_address
                    [(0, "10.0.0.1"); (1, "10.0.0.2"); (2, "10.0.0.1")]
                    (RateLimit.NewLimiter 60 10)) eq_refl).
  vm_compute. reflexivity.
Defined.

(** X14. The reaper and [Allow] together: a bucket that [Allow] has
    just touched survives a sweep at the same time for every idle
    timeout that is not negative; and a client whose bucket was reaped
    is treated as a new client, its next request being answered by a
    fresh bucket. *)
Theorem reaper_and_Allow {B : Type} `{RateLimit.TokenBucket B}
    (now now' idleTimeout : Z) (r : RateLimit.Limiter B) (ip : string) :
  (0 <= idleTimeout →
   let r1 := snd (RateLimit.Allow now r ip) in
   RateLimit.limiters (snd (RateLimit.CleanupStale now idleTimeout r1)) !! ip
   = RateLimit.limiters r1 !! ip ∧
   is_Some (RateLimit.limiters r1 !! ip)) ∧
  (∀ l, RateLimit.limiters r !! ip = Some l → RateLimit.stale now idleTimeout l = true →
     let r2 := snd (RateLimit.CleanupStale now idleTimeout r) in
     RateLimit.limiters r2 !! ip = None ∧
     fst (RateLimit.Allow now' r2 ip)
     = fst (RateLimit.rate_Allow now'
              (RateLimit.rate_NewLimiter (RateLimit.limit r) (RateLimit.burst r)))).
Proof.
  split.
  - intros Hidle r1.
    assert (Hl : ∃ b, RateLimit.limiters r1 !! ip
                      = Some {| RateLimit.limiter := b; RateLimit.lastSeen := now |}).
    { unfold r1. destruct (RateLimit.limiters r !! ip) as [l|] eqn:Hip.
      - rewrite (Allow_known now r ip l Hip). simpl. eexists. apply lookup_insert_eq.
      - rewrite (Allow_unseen now r ip Hip). simpl. eexists. apply lookup_insert_eq. }
    destruct Hl as [b Hl]. rewrite Hl. split; [|eauto].
    rewrite CleanupStale_spec. simpl. apply map_lookup_filter_Some. split; [exact Hl|].
    simpl. unfold RateLimit.stale. simpl. rewrite Z.sub_diag.
    change (GoInt.saturate 0) with 0. apply Z.ltb_ge. exact Hidle.
  - intros l Hip Hstale r2.
    assert (Hgone : RateLimit.limiters r2 !! ip = None).
    { unfold r2. rewrite CleanupStale_spec. simpl. apply map_lookup_filter_None.
      right. intros l' Hl'. rewrite Hip in Hl'. injection Hl' as <-. simpl. congruence. }
    split; [exact Hgone|].
    rewrite (Allow_unseen now' r2 ip Hgone). simpl.
    unfold r2. rewrite CleanupStale_spec. reflexivity.
Qed.

Lemma reaper_and_Allow_witness :
  let r := snd (RateLimit.Allow 0 (RateLimit.NewLimiter 60 1) "10.0.0.1") in
  is_Some (RateLimit.limiters (snd (RateLimit.CleanupStale 7 0
                                     (snd (RateLimit.Allow 7 r "10.0.0.1"))))
             !! "10.0.0.1") ∧
  RateLimit.limiters (snd (RateLimit.CleanupStale 7 5 r)) !! "10.0.0.1" = None.
Proof.
  intros r. split.
  - destruct (proj1 (reaper_and_Allow 7 7 0 r "10.0.0.1") ltac:(lia)) as [-> Hs]. exact Hs.
  - apply (proj2 (reaper_and_Allow 7 7 5 r "10.0.0.1")
             {| RateLimit.limiter :=
                  snd (RateLimit.bucket_allow 0 (RateLimit.bucket_new (60 / 60) 1));
                RateLimit.lastSeen := 0 |}); reflexivity.
Defined.

(** A second sweep with the same clock and the same idle timeout
    removes nothing: [CleanupStale] returns 0 and leaves the limiter as
    the first sweep left it. *)
Lemma CleanupStale_idempotent {B : Type} `{RateLimit.TokenBucket B}
    (now idleTimeout : Z) (r : RateLimit.Limiter B) :
  RateLimit.CleanupStale now idleTimeout (snd (RateLimit.CleanupStale now idleTimeout r))
  = (O, snd (RateLimit.CleanupStale now idleTimeout r)).
Proof.
  rewrite (CleanupStale_spec now idleTimeout r). simpl.
  rewrite CleanupStale_spec. simpl. f_equal.
  - apply map_size_empty_iff, map_empty. intros k. apply map_lookup_filter_None.
    destruct (filter (λ kv : string * RateLimit.clientLimiter B,
                        RateLimit.stale now idleTimeout kv.2 = false)
                (RateLimit.limiters r) !! k) as [l|] eqn:Hl; [right|left; reflexivity].
    intros l' [= <-]. apply map_lookup_filter_Some in Hl as [_ Hl]. simpl in *. congruence.
  - apply limiter_eq; try reflexivity. simpl.
    apply map_filter_id. intros k l Hl.
    apply map_lookup_filter_Some in Hl as [_ Hl]. exact Hl.
Qed.

(** * Further properties of the health checker *)

Section HealthMore.
Import Health Specs.

Lemma state_relock c b :
  mu c = false → mkState (set_mu false (set_mu true c)) b = mkState c b.
Proof. destruct c. simpl. intros ->. reflexivity. Qed.

Lemma checkBackend_skipped c b now now' p :
  mu c = false → probed now c b = false →
  checkBackend now now' p (mkState c b) = Returns tt (mkState c b).
Proof.
  intros Hmu Hp. unfold probed in Hp. apply negb_false_iff in Hp.
  destruct c as [th ri f lc m]. simpl in *. subst m.
  unfold checkBackend, mbind, M_bind, bind, Lock, Unlock, get, ret. simpl.
  unfold IsHealthy in *. rewrite Hp. reflexivity.
Qed.

Lemma error_probe_step th ri url n st now now' p :
  ri <= GoInt.max_int → 0 <= n < GoInt.max_int →
  p = RequestError ∨ p = TransportError →
  after_errors th ri url n st →
  ∃ st', checkBackend now now' p st = Returns tt st' ∧ after_errors th ri url (n + 1) st'.
Proof.
  intros Hri Hn Hp (Hmu & Hth & Hri' & Hlc & Hurl & Hcount & Hhealthy).
  destruct st as [c b]. simpl in *.
  assert (Hprobed : probed now c b = true).
  { unfold probed. rewrite Hlc, lookup_empty. simpl.
    destruct (IsHealthy b); simpl; [reflexivity|].
    apply negb_true_iff, Z.ltb_ge. lia. }
  rewrite (checkBackend_error c b now now' p Hmu Hprobed Hp).
  rewrite (handleFailure_spec c b Hmu). eexists. split; [reflexivity|].
  rewrite Hurl, Hcount.
  assert (Hadd : GoInt.add n 1 = n + 1).
  { apply wrap_in_range. unfold GoInt.in_range, GoInt.min_int, GoInt.max_int in *. lia. }
  rewrite Hadd. unfold after_errors. simpl.
  split; [destruct c; exact Hmu|]. split; [exact Hth|]. split; [exact Hri'|].
  split; [exact Hlc|].
  assert (Hurl' : URL (if (failureThreshold c <=? n + 1) && IsHealthy b
                       then SetHealthy false b else b) = url).
  { destruct ((failureThreshold c <=? n + 1) && IsHealthy b); exact Hurl. }
  split; [exact Hurl'|]. split.
  - unfold failure_count. simpl. rewrite lookup_insert_eq. reflexivity.
  - rewrite Hth. destruct (Z.leb_spec th (n + 1)) as [Hle|Hgt]; simpl.
    + destruct (IsHealthy b) eqn:Hb; simpl.
      * split; [discriminate|lia].
      * rewrite Hb. split; [discriminate|lia].
    + split; [lia|]. intros _. apply Hhealthy. lia.
Qed.

Lemma error_probes ps : ∀ th ri url n st,
  ri <= GoInt.max_int → 0 <= n → n + Z.of_nat (length ps) <= GoInt.max_int →
  Forall (λ x, x.2 = RequestError ∨ x.2 = TransportError) ps →
  after_errors th ri url n st →
  ∃ st', Runs.probes ps st = Returns tt st' ∧
         after_errors th ri url (n + Z.of_nat (length ps)) st'.
Proof.
  induction ps as [|[[now now'] p] ps IH]; intros th ri url n st Hri Hn Hmax Hall Hinv.
  - simpl. exists st. split; [reflexivity|]. rewrite Z.add_0_r. exact Hinv.
  - inversion Hall as [|x l Hp Hrest]; subst. simpl in Hp. simpl length in *.
    destruct (error_probe_step th ri url n st now now' p Hri ltac:(lia) Hp Hinv)
      as (st1 & E & Hinv1).
    destruct (IH th ri url (n + 1) st1 Hri ltac:(lia) ltac:(lia) Hrest Hinv1)
      as (st' & E' & Hinv').
    exists st'. simpl. rewrite E. split; [exact E'|].
    replace (n + Z.of_nat (S (length ps))) with (n + 1 + Z.of_nat (length ps)) by lia.
    exact Hinv'.
Qed.

Lemma status_loop_free (bs : list Backend) c b :
  mu c = false →
  Monitor.status_loop bs (mkState c b) =
  Returns ((λ x, Monitor.mkBackendStatus (URL x) (IsHealthy x) (failure_count c (URL x)))
             <$> bs) (mkState c b).
Proof.
  intros Hmu. induction bs as [|x rest IH]; [reflexivity|].
  simpl. unfold mbind, M_bind, bind, Monitor.GetFailureCount, Monitor.RLock,
    Monitor.RUnlock, mbind, M_bind, bind, get, ret in *. simpl.
  rewrite Hmu. rewrite IH. reflexivity.
Qed.

Lemma status_loop_blocked (bs : list Backend) c b :
  mu c = true → bs ≠ [] → Monitor.status_loop bs (mkState c b) = Deadlock (mkState c b).
Proof.
  intros Hmu Hne. destruct bs as [|x rest]; [congruence|].
  simpl. unfold mbind, M_bind, bind, Monitor.GetFailureCount, Monitor.RLock,
    mbind, M_bind, bind. simpl. rewrite Hmu. reflexivity.
Qed.

Lemma probed_without_record c b now :
  lastCheck c = ∅ → recoveryInterval c <= GoInt.max_int → probed now c b = true.
Proof.
  intros Hlc Hri. unfold probed. rewrite Hlc, lookup_empty. simpl.
  destruct (IsHealthy b); simpl; [reflexivity|].
  apply negb_true_iff, Z.ltb_ge. exact Hri.
Qed.

(** A probe that returns, made in a state without recorded check: it
    was not answered, and no check is recorded afterwards. *)
Lemma returning_probe c b now now' p st :
  mu c = false → lastCheck c = ∅ → recoveryInterval c <= GoInt.max_int →
  checkBackend now now' p (mkState c b) = Returns tt st →
  (p = RequestError ∨ p = TransportError) ∧
  mu (chk st) = false ∧ lastCheck (chk st) = ∅ ∧
  recoveryInterval (chk st) = recoveryInterval c.
Proof.
  intros Hmu Hlc Hri Hrun.
  pose proof (probed_without_record c b now Hlc Hri) as Hp.
  destruct p as [| |status].
  - rewrite (checkBackend_error c b now now' _ Hmu Hp (or_introl eq_refl)) in Hrun.
    rewrite (handleFailure_spec c b Hmu) in Hrun. injection Hrun as <-.
    split; [left; reflexivity|]. destruct c. simpl in *. auto.
  - rewrite (checkBackend_error c b now now' _ Hmu Hp (or_intror eq_refl)) in Hrun.
    rewrite (handleFailure_spec c b Hmu) in Hrun. injection Hrun as <-.
    split; [right; reflexivity|]. destruct c. simpl in *. auto.
  - rewrite (checkBackend_response_blocks c b now now' status Hmu Hp) in Hrun.
    discriminate.
Qed.

Lemma returning_probes ps : ∀ st0 st,
  recoveryInterval (chk st0) <= GoInt.max_int →
  mu (chk st0) = false → lastCheck (chk st0) = ∅ →
  Runs.probes ps st0 = Returns tt st →
  lastCheck (chk st) = ∅ ∧ mu (chk st) = false ∧
  recoveryInterval (chk st) = recoveryInterval (chk st0) ∧
  Forall (λ x, x.2 = RequestError ∨ x.2 = TransportError) ps.
Proof.
  induction ps as [|[[now now'] p] ps IH]; intros st0 st Hri Hmu Hlc Hrun.
  - simpl in Hrun. injection Hrun as <-. auto.
  - simpl in Hrun. destruct st0 as [c b]. simpl in *.
    destruct (checkBackend now now' p (mkState c b)) as [[] st1|st1] eqn:E; [|discriminate].
    destruct (returning_probe c b now now' p st1 Hmu Hlc Hri E) as (Hp & Hmu1 & Hlc1 & Hri1).
    destruct (IH st1 st ltac:(rewrite Hri1; exact Hri) Hmu1 Hlc1 Hrun)
      as (Hlc' & Hmu' & Hri' & Hall).
    split; [exact Hlc'|]. split; [exact Hmu'|]. split; [congruence|].
    constructor; [exact Hp|exact Hall].
Qed.

End HealthMore.

(** X16. The recovery interval never takes effect. However a checker
    made by [NewChecker] got to its state through probes that returned,
    no check time is recorded in it and its lock is free; none of these
    probes was answered by the backend; and the next probe is made
    whether the backend is healthy or out and whatever the time is: an
    answer blocks the checker, an error is counted as one more
    failure. *)
Theorem recovery_interval_never_applies (th ri : Z) (b : Backend)
    (ps : list (Z * Z * Health.probe)) (st : Health.State) :
  ri <= GoInt.max_int →
  Runs.probes ps (Health.mkState (Health.NewChecker th ri) b) = Health.Returns tt st →
  Health.lastCheck (Health.chk st) = ∅ ∧ Health.mu (Health.chk st) = false ∧
  Forall (λ x, x.2 = Health.RequestError ∨ x.2 = Health.TransportError) ps ∧
  ∀ now now',
    (∀ status, ∃ st', Health.checkBackend now now' (Health.Response status) st
                      = Health.Deadlock st') ∧
    (∀ p, p = Health.RequestError ∨ p = Health.TransportError →
       ∃ st', Health.checkBackend now now' p st = Health.Returns tt st' ∧
              Health.failure_count (Health.chk st') (URL (Health.be st))
              = GoInt.add (Health.failure_count (Health.chk st) (URL (Health.be st))) 1).
Proof.
  intros Hri Hrun.
  destruct (returning_probes ps (Health.mkState (Health.NewChecker th ri) b) st
              Hri eq_refl eq_refl Hrun) as (Hlc & Hmu & Hri' & Hall).
  split; [exact Hlc|]. split; [exact Hmu|]. split; [exact Hall|].
  intros now now'. destruct st as [c b']. simpl in *.
  assert (Hp : Health.probed now c b' = true).
  { apply probed_without_record; [exact Hlc|]. rewrite Hri'. exact Hri. }
  split.
  - intros status. rewrite (checkBackend_response_blocks c b' now now' status Hmu Hp).
    eexists. reflexivity.
  - intros p Hperr. rewrite (checkBackend_error c b' now now' p Hmu Hp Hperr).
    rewrite (handleFailure_spec c b' Hmu). eexists. split; [reflexivity|].
    unfold Health.failure_count. simpl. rewrite lookup_insert_eq. reflexivity.
Qed.

Lemma recovery_interval_never_applies_witness :
  ∃ st', Health.checkBackend 12 12 (Health.Response 200)
           (Health.mkState
              (Health.mkChecker 3 15 {["http://a" := 3]} ∅ false)
              (SetHealthy false (NewBackend "http://a" 1)))
         = Health.Deadlock st'.
Proof.
  destruct (recovery_interval_never_applies 3 15 (NewBackend "http://a" 1)
              [(0, 0, Health.TransportError); (5, 5, Health.TransportError);
               (10, 10, Health.RequestError)]
              (Health.mkState
                 (Health.mkChecker 3 15 {["http://a" := 3]} ∅ false)
                 (SetHealthy false (NewBackend "http://a" 1))))
    as (_ & _ & _ & Hnext).
  - vm_compute. discriminate.
  - vm_compute. reflexivity.
  - exact (proj1 (Hnext 12 12) 200).
Defined.

(** X17. Probes that fail before any response are counted one by one:
    after [n] of them in a row on a new checker, the failure counter of
    the backend is [n], no check time has been recorded, and the backend
    is still healthy exactly when [n] is below the failure threshold. *)
Theorem failures_until_threshold (th ri : Z) (url : string) (weight : Z)
    (ps : list (Z * Z * Health.probe)) :
  1 <= th → ri <= GoInt.max_int → Z.of_nat (length ps) <= GoInt.max_int →
  Forall (λ x, x.2 = Health.RequestError ∨ x.2 = Health.TransportError) ps →
  ∃ st, Runs.probes ps (Health.mkState (Health.NewChecker th ri) (NewBackend url weight))
        = Health.Returns tt st ∧
        Health.failure_count (Health.chk st) url = Z.of_nat (length ps) ∧
        (IsHealthy (Health.be st) = true ↔ Z.of_nat (length ps) < th) ∧
        Health.lastCheck (Health.chk st) = ∅ ∧ Health.mu (Health.chk st) = false.
Proof.
  intros Hth Hri Hlen Hall.
  destruct (error_probes ps th ri url 0
              (Health.mkState (Health.NewChecker th ri) (NewBackend url weight))
              Hri ltac:(lia) ltac:(lia) Hall) as (st & E & Hinv).
  - unfold Specs.after_errors. simpl. repeat split; try reflexivity; lia.
  - simpl in Hinv. destruct Hinv as (Hmu & _ & _ & Hlc & _ & Hcount & Hhealthy).
    exists st. auto.
Qed.

Lemma failures_until_threshold_witness :
  ∃ st, Runs.probes [(0, 0, Health.TransportError); (5, 5, Health.TransportError);
                     (10, 10, Health.RequestError)]
          (Health.mkState (Health.NewChecker 3 15) (NewBackend "http://a" 1))
        = Health.Returns tt st ∧
        Health.failure_count (Health.chk st) "http://a" = 3.
Proof.
  destruct (failures_until_threshold 3 15 "http://a" 1
              [(0, 0, Health.TransportError); (5, 5, Health.TransportError);
               (10, 10, Health.RequestError)]) as (st & E & Hc & _).
  - lia.
  - vm_compute. discriminate.
  - vm_compute. discriminate.
  - repeat (apply Forall_cons_2; [simpl; auto|]). apply Forall_nil_2.
  - exists st. split; [exact E|exact Hc].
Defined.

(** X18. While [c.mu] is free, [GetStatus] returns one record for each
    backend of the balancer, in the order of the pool, with its URL, its
    liveness flag and the failure counter of its URL; the number of
    records is [TotalCount] and the number of healthy ones is
    [HealthyCount]. Nothing is changed. *)
Theorem GetStatus_lists_pool (c : Health.Checker) (b : Backend) (s : SRR) :
  Health.mu c = false →
  ∃ status, Monitor.GetStatus s (Health.mkState c b)
            = Health.Returns status (Health.mkState c b) ∧
    status = (λ x, Monitor.mkBackendStatus (URL x) (IsHealthy x)
                     (Health.failure_count c (URL x))) <$> s ∧
    length status = Monitor.TotalCount s ∧
    length (filter (λ x, Monitor.StatusHealthy x = true) status) = Monitor.HealthyCount s.
Proof.
  intros Hmu. eexists. split; [apply status_loop_free, Hmu|].
  split; [reflexivity|]. split; [apply length_fmap|].
  unfold Monitor.HealthyCount, HealthyCount, GetBackends.
  induction s as [|x rest IH]; [reflexivity|].
  rewrite fmap_cons, !filter_cons. simpl.
  destruct (decide (IsHealthy x = true)); simpl; rewrite IH; reflexivity.
Qed.

Lemma GetStatus_lists_pool_witness :
  ∃ status, Monitor.GetStatus [NewBackend "http://a" 1; SetHealthy false (NewBackend "http://b" 2)]
              (Health.mkState (Health.NewChecker 3 15) (NewBackend "http://a" 1))
            = Health.Returns status
                (Health.mkState (Health.NewChecker 3 15) (NewBackend "http://a" 1)) ∧
            length status = 2%nat.
Proof.
  destruct (GetStatus_lists_pool (Health.NewChecker 3 15) (NewBackend "http://a" 1)
              [NewBackend "http://a" 1; SetHealthy false (NewBackend "http://b" 2)] eq_refl)
    as (status & E & _ & Hlen & _).
  exists status. split; [exact E|exact Hlen].
Defined.

(** X19. Once a probe has been answered, the checker is frozen: the
    goroutine of that probe holds [c.mu] for ever, so every later probe
    of any backend blocks, and so do [GetFailureCount] and, for a pool
    that is not empty, [GetStatus]. *)
Theorem checker_frozen_after_response (c : Health.Checker) (b b' : Backend)
    (now now' t t' : Z) (status : Z) (p : Health.probe) (url : string) (s : SRR) :
  Health.mu c = false → Health.probed now c b = true →
  ∃ st, Health.checkBackend now now' (Health.Response status) (Health.mkState c b)
        = Health.Deadlock st ∧
        Health.checkBackend t t' p (Health.mkState (Health.chk st) b')
        = Health.Deadlock (Health.mkState (Health.chk st) b') ∧
        Monitor.GetFailureCount url (Health.mkState (Health.chk st) b')
        = Health.Deadlock (Health.mkState (Health.chk st) b') ∧
        (s ≠ [] → Monitor.GetStatus s (Health.mkState (Health.chk st) b')
                  = Health.Deadlock (Health.mkState (Health.chk st) b')).
Proof.
  intros Hmu Hp. rewrite (checkBackend_response_blocks c b now now' status Hmu Hp).
  eexists. split; [reflexivity|]. simpl. split; [|split].
  - apply checkBackend_blocked_for_ever. reflexivity.
  - reflexivity.
  - intros Hne. apply status_loop_blocked; [reflexivity|exact Hne].
Qed.

Lemma checker_frozen_after_response_witness :
  ∃ st, Health.checkBackend 0 1 (Health.Response 200)
          (Health.mkState (Health.NewChecker 3 15) (NewBackend "http://a" 1))
        = Health.Deadlock st ∧
        Monitor.GetFailureCount "http://a" (Health.mkState (Health.chk st) (NewBackend "http://b" 1))
        = Health.Deadlock (Health.mkState (Health.chk st) (NewBackend "http://b" 1)).
Proof.
  destruct (checker_frozen_after_response (Health.NewChecker 3 15) (NewBackend "http://a" 1)
              (NewBackend "http://b" 1) 0 1 2 3 200 Health.TransportError "http://a" []
              eq_refl eq_refl) as (st & E & _ & Hg & _).
  exists st. split; [exact E|exact Hg].
Defined.

(** * The configuration *)

Section ConfigFacts.
Import Config Specs.

Lemma or_default_nonzero x d : x ≠ 0 → or_default x d = x.
Proof. intros H. unfold or_default. apply Z.eqb_neq in H. rewrite H. reflexivity. Qed.

Lemma or_default_not_zero x d : d ≠ 0 → or_default x d ≠ 0.
Proof. intros H. unfold or_default. destruct (Z.eqb_spec x 0); congruence. Qed.

Lemma or_default_string_not_empty x d : d ≠ "" → or_default_string x d ≠ "".
Proof.
  intros H. unfold or_default_string.
  destruct (String.eqb_spec x ""); congruence.
Qed.

Lemma or_default_idem x d : d ≠ 0 → or_default (or_default x d) d = or_default x d.
Proof. intros H. apply or_default_nonzero, or_default_not_zero, H. Qed.

Lemma or_default_string_idem x d :
  d ≠ "" → or_default_string (or_default_string x d) d = or_default_string x d.
Proof.
  intros H. unfold or_default_string at 1.
  destruct (String.eqb_spec (or_default_string x d) "") as [E|E]; [|reflexivity].
  exfalso. exact (or_default_string_not_empty x d H E).
Qed.

(** The loop over the backends stops at the first backend that is not
    acceptable and names its index. *)
Lemma check_backends_spec bs : ∀ k,
  match check_backends k bs with
  | None => Forall backend_ok bs
  | Some e =>
      ∃ j b, bs !! j = Some b ∧ Forall backend_ok (take j bs) ∧
        ((e = ErrBackendURL (k + j) ∧ BackendURL b = "") ∨
         (e = ErrBackendWeight (k + j) ∧ BackendURL b ≠ "" ∧ BackendWeight b <= 0))
  end.
Proof.
  induction bs as [|b rest IH]; intros k; simpl.
  - constructor.
  - destruct (String.eqb_spec (BackendURL b) "") as [Hu|Hu].
    { exists 0%nat, b. rewrite Nat.add_0_r. simpl.
      split; [reflexivity|]. split; [constructor|]. left. split; [reflexivity|exact Hu]. }
    destruct (Z.leb_spec (BackendWeight b) 0) as [Hw|Hw].
    { exists 0%nat, b. rewrite Nat.add_0_r. simpl.
      split; [reflexivity|]. split; [constructor|]. right. auto. }
    specialize (IH (S k)). destruct (check_backends (S k) rest) as [e|].
    + destruct IH as (j & b' & Hj & Hpre & He).
      exists (S j), b'. simpl. split; [exact Hj|]. split.
      * constructor; [split; assumption|exact Hpre].
      * replace (k + S j)%nat with (S k + j)%nat by lia. exact He.
    + constructor; [split; assumption|exact IH].
Qed.

Lemma check_tls_spec missing t : check_tls missing t = None ↔ tls_ok missing t.
Proof.
  unfold check_tls, tls_ok. destruct (TLSEnabled t).
  - destruct (String.eqb_spec (CertFile t) "") as [Hc|Hc].
    { split; [discriminate|]. intros H. destruct (H eq_refl) as (? & _). contradiction. }
    destruct (String.eqb_spec (KeyFile t) "") as [Hk|Hk].
    { split; [discriminate|]. intros H. destruct (H eq_refl) as (_ & ? & _). contradiction. }
    destruct (missing (CertFile t)) eqn:Hmc.
    { split; [discriminate|]. intros H. destruct (H eq_refl) as (_ & _ & ? & _). discriminate. }
    destruct (missing (KeyFile t)) eqn:Hmk.
    { split; [discriminate|]. intros H. destruct (H eq_refl) as (_ & _ & _ & ?). discriminate. }
    split; auto.
  - split; [intros _ H; discriminate|reflexivity].
Qed.

Lemma check_rest_spec c :
  check_rest c = None ↔
  0 < Interval (HealthCheck c) ∧ 0 < Timeout (HealthCheck c) ∧
  0 < FailureThreshold (HealthCheck c) ∧ 0 < RecoveryInterval (HealthCheck c) ∧
  0 <= TTL (CacheCfg c) ∧ 0 < RequestsPerMinute (RateLimitCfg c) ∧
  0 < Burst (RateLimitCfg c).
Proof.
  unfold check_rest.
  repeat match goal with
  | |- context [if ?x <=? ?y then _ else _] => destruct (Z.leb_spec x y)
  | |- context [if ?x <? ?y then _ else _] => destruct (Z.ltb_spec x y)
  end; (split; [try discriminate; intros _; lia | try reflexivity; intros; lia]).
Qed.

Lemma Validate_None_iff missing c : Validate missing c = None ↔ valid missing c.
Proof.
  unfold Validate, valid.
  destruct (String.eqb_spec (Host (Server c)) "") as [Hh|Hh].
  { split; [discriminate|]. intros (? & _). contradiction. }
  destruct (Z.leb_spec (HTTPPort (Server c)) 0) as [H1|H1]; simpl.
  { split; [discriminate|]. intros (_ & ? & _). lia. }
  destruct (Z.ltb_spec 65535 (HTTPPort (Server c))) as [H2|H2]; simpl.
  { split; [discriminate|]. intros (_ & ? & _). lia. }
  destruct (Z.leb_spec (HTTPSPort (Server c)) 0) as [H3|H3]; simpl.
  { split; [discriminate|]. intros (_ & _ & ? & _). lia. }
  destruct (Z.ltb_spec 65535 (HTTPSPort (Server c))) as [H4|H4]; simpl.
  { split; [discriminate|]. intros (_ & _ & ? & _). lia. }
  destruct (TLSEnabled (TLS c) && (HTTPPort (Server c) =? HTTPSPort (Server c))) eqn:Hp.
  { split; [discriminate|]. intros (_ & _ & _ & Hd & _).
    apply andb_true_iff in Hp as [Ht He]. apply Z.eqb_eq in He. destruct (Hd Ht He). }
  destruct (Backends c) as [|b0 rest] eqn:Hbs; simpl Nat.eqb; cbv iota.
  { split; [discriminate|]. intros (_ & _ & _ & _ & ? & _). congruence. }
  pose proof (check_backends_spec (b0 :: rest) 0) as Hcb.
  destruct (check_backends 0 (b0 :: rest)) as [e|].
  { split; [discriminate|]. intros (_ & _ & _ & _ & _ & Hall & _).
    destruct Hcb as (j & b & Hj & _ & Hbad).
    pose proof (proj1 (Forall_lookup _ _) Hall j b Hj) as [Hu Hw].
    destruct Hbad as [[_ ?]|(_ & _ & ?)]; [contradiction|lia]. }
  pose proof (check_tls_spec missing (TLS c)) as Htls.
  destruct (check_tls missing (TLS c)) as [e|].
  { split; [discriminate|]. intros (_ & _ & _ & _ & _ & _ & Ht & _).
    apply Htls in Ht. discriminate. }
  rewrite check_rest_spec. split.
  - intros Hrest. split; [exact Hh|]. split; [lia|]. split; [lia|]. split.
    { intros Ht He. rewrite Ht in Hp. apply Z.eqb_eq in He. rewrite He in Hp. discriminate. }
    split; [discriminate|]. split; [exact Hcb|]. split; [apply Htls; reflexivity|exact Hrest].
  - intros (_ & _ & _ & _ & _ & _ & _ & Hrest). exact Hrest.
Qed.

Lemma setDefaults_valid missing c : valid missing c → valid missing (setDefaults c).
Proof.
  unfold valid. intros (Hh & Hp & Hs & Hd & Hne & Hall & Ht & Hi & Hto & Hf & Hr & Httl & Hq & Hb).
  simpl.
  rewrite (or_default_nonzero (HTTPPort (Server c))), (or_default_nonzero (HTTPSPort (Server c))),
    (or_default_nonzero (Interval (HealthCheck c))), (or_default_nonzero (Timeout (HealthCheck c))),
    (or_default_nonzero (FailureThreshold (HealthCheck c))),
    (or_default_nonzero (RecoveryInterval (HealthCheck c))),
    (or_default_nonzero (RequestsPerMinute (RateLimitCfg c))),
    (or_default_nonzero (Burst (RateLimitCfg c))) by lia.
  split; [exact Hh|]. split; [exact Hp|]. split; [exact Hs|]. split; [exact Hd|].
  split; [exact Hne|]. split; [exact Hall|]. split; [exact Ht|]. split; [exact Hi|].
  split; [exact Hto|]. split; [exact Hf|]. split; [exact Hr|]. split; [|split; assumption].
  unfold or_default. destruct (Z.eqb_spec (TTL (CacheCfg c)) 0); unfold second; lia.
Qed.

Lemma setDefaults_idem c : setDefaults (setDefaults c) = setDefaults c.
Proof.
  unfold setDefaults. simpl. unfold second.
  rewrite !or_default_idem by lia.
  rewrite !or_default_string_idem by discriminate.
  reflexivity.
Qed.

End ConfigFacts.

(** X20. [Validate] returns no error exactly when the configuration has
    a host, both ports in 1..65535 (and different when TLS is on), at
    least one backend, every backend a URL and a positive weight, with
    TLS on both files named and present, positive health check numbers,
    a TTL that is not negative and positive rate limit numbers. *)
Theorem Validate_accepts_iff (missing : string → bool) (c : Config.Config) :
  Config.Validate missing c = None ↔ Specs.valid missing c.
Proof. apply Validate_None_iff. Qed.

Section ConfigErrors.
Import Config Specs.

Lemma Validate_backend_error missing c e i :
  e = ErrBackendURL i ∨ e = ErrBackendWeight i →
  Validate missing c = Some e → check_backends 0 (Backends c) = Some e.
Proof.
  intros He. unfold Validate, check_tls, check_rest.
  repeat match goal with
  | |- context [if ?b then _ else _] => destruct b
  end;
  try (intros [= <-]; destruct He; discriminate);
  destruct (check_backends 0 (Backends c)); try exact id;
  repeat match goal with
  | |- context [if ?b then _ else _] => destruct b
  end;
  try (intros [= <-]; destruct He; discriminate); discriminate.
Qed.

Lemma Validate_zero_rejected missing c :
  HTTPPort (Server c) = 0 ∨ HTTPSPort (Server c) = 0 ∨
  Interval (HealthCheck c) = 0 ∨ Timeout (HealthCheck c) = 0 ∨
  FailureThreshold (HealthCheck c) = 0 ∨ RecoveryInterval (HealthCheck c) = 0 ∨
  RequestsPerMinute (RateLimitCfg c) = 0 ∨ Burst (RateLimitCfg c) = 0 →
  ∃ e, Validate missing c = Some e.
Proof.
  intros Hz. destruct (Validate missing c) as [e|] eqn:E; [exists e; reflexivity|].
  apply Validate_None_iff in E.
  destruct E as (_ & ? & ? & _ & _ & _ & _ & ? & ? & ? & ? & _ & ? & ?). lia.
Qed.

End ConfigErrors.

(** X21. When [Validate] reports a backend, the index in the message is
    that of the first backend of the list with an empty URL or a weight
    that is not positive: the backend at that index has the reported
    defect (an empty URL is reported before the weight is looked at) and
    every backend before it is acceptable. *)
Theorem Validate_reports_first_bad_backend (missing : string → bool) (c : Config.Config)
    (e : Config.error) (i : nat) :
  e = Config.ErrBackendURL i ∨ e = Config.ErrBackendWeight i →
  Config.Validate missing c = Some e →
  ∃ b, Config.Backends c !! i = Some b ∧
       Forall Specs.backend_ok (take i (Config.Backends c)) ∧
       ((e = Config.ErrBackendURL i ∧ Config.BackendURL b = "") ∨
        (e = Config.ErrBackendWeight i ∧ Config.BackendURL b ≠ "" ∧
         Config.BackendWeight b <= 0)).
Proof.
  intros He Hv. apply (Validate_backend_error missing c e i He) in Hv.
  pose proof (check_backends_spec (Config.Backends c) 0) as Hcb.
  rewrite Hv in Hcb. destruct Hcb as (j & b & Hj & Hpre & Hbad). simpl in Hbad.
  assert (j = i) as ->.
  { destruct He as [-> | ->]; destruct Hbad as [[Hx _] | [Hx _]]; congruence. }
  exists b. split; [exact Hj|]. split; [exact Hpre|exact Hbad].
Qed.

Lemma Validate_reports_first_bad_backend_witness :
  ∃ b, [Config.mkBackendConfig "http://a" 1; Config.mkBackendConfig "http://b" 0;
        Config.mkBackendConfig "" 1] !! 1%nat = Some b ∧ Config.BackendWeight b <= 0.
Proof.
  destruct (Validate_reports_first_bad_backend (λ _, false)
    (Config.mkConfig (Config.Server Specs.sample_config) (Config.TLS Specs.sample_config)
       [Config.mkBackendConfig "http://a" 1; Config.mkBackendConfig "http://b" 0;
        Config.mkBackendConfig "" 1]
       (Config.HealthCheck Specs.sample_config) (Config.CacheCfg Specs.sample_config)
       (Config.RateLimitCfg Specs.sample_config) (Config.Logging Specs.sample_config))
    (Config.ErrBackendWeight 1) 1 (or_intror eq_refl) eq_refl)
    as (b & Hb & _ & [[Hx _] | (_ & _ & Hw)]); [discriminate Hx|].
  exists b. split; [exact Hb|exact Hw].
Defined.

(** X22. [Load] validates before it sets defaults, so the defaults of
    the fields that [Validate] wants positive are never used: a file
    that leaves a port, a health check number or a rate limit number at
    zero is rejected, and in a configuration that [Load] returns these
    eight fields are the ones of the file. *)
Theorem Load_defaults_never_used (missing : string → bool) (cfg : Config.Config) :
  (Config.HTTPPort (Config.Server cfg) = 0 ∨ Config.HTTPSPort (Config.Server cfg) = 0 ∨
   Config.Interval (Config.HealthCheck cfg) = 0 ∨ Config.Timeout (Config.HealthCheck cfg) = 0 ∨
   Config.FailureThreshold (Config.HealthCheck cfg) = 0 ∨
   Config.RecoveryInterval (Config.HealthCheck cfg) = 0 ∨
   Config.RequestsPerMinute (Config.RateLimitCfg cfg) = 0 ∨
   Config.Burst (Config.RateLimitCfg cfg) = 0 →
   ∃ e, Config.Load missing (Some (Some cfg)) = Config.LoadFailed (Config.ErrValidation e)) ∧
  (∀ c, Config.Load missing (Some (Some cfg)) = Config.Loaded c →
   Config.HTTPPort (Config.Server c) = Config.HTTPPort (Config.Server cfg) ∧
   Config.HTTPSPort (Config.Server c) = Config.HTTPSPort (Config.Server cfg) ∧
   Config.Interval (Config.HealthCheck c) = Config.Interval (Config.HealthCheck cfg) ∧
   Config.Timeout (Config.HealthCheck c) = Config.Timeout (Config.HealthCheck cfg) ∧
   Config.FailureThreshold (Config.HealthCheck c)
   = Config.FailureThreshold (Config.HealthCheck cfg) ∧
   Config.RecoveryInterval (Config.HealthCheck c)
   = Config.RecoveryInterval (Config.HealthCheck cfg) ∧
   Config.RequestsPerMinute (Config.RateLimitCfg c)
   = Config.RequestsPerMinute (Config.RateLimitCfg cfg) ∧
   Config.Burst (Config.RateLimitCfg c) = Config.Burst (Config.RateLimitCfg cfg)).
Proof.
  split.
  - intros Hz. destruct (Validate_zero_rejected missing cfg Hz) as (e & E).
    exists e. simpl. rewrite E. reflexivity.
  - intros c. simpl. destruct (Config.Validate missing cfg) eqn:E; [discriminate|].
    intros [= <-]. apply Validate_None_iff in E.
    destruct E as (_ & ? & ? & _ & _ & _ & _ & ? & ? & ? & ? & _ & ? & ?).
    simpl. rewrite !or_default_nonzero by lia. repeat split; reflexivity.
Qed.

Lemma Load_defaults_never_used_witness :
  ∃ e, Config.Load (λ _, false)
         (Some (Some (Config.mkConfig
            (Config.mkServerConfig 0 "0.0.0.0" 0 8443 0 0)
            (Config.TLS Specs.sample_config) (Config.Backends Specs.sample_config)
            (Config.HealthCheck Specs.sample_config) (Config.CacheCfg Specs.sample_config)
            (Config.RateLimitCfg Specs.sample_config) (Config.Logging Specs.sample_config))))
       = Config.LoadFailed (Config.ErrValidation e).
Proof.
  apply (proj1 (Load_defaults_never_used (λ _, false) _)). left. reflexivity.
Defined.

(** X23. What [Load] returns: the file was read and parsed and its
    configuration passed [Validate]; the returned configuration is that
    one with the defaults filled in, has the same backends, still passes
    [Validate], is not changed by [setDefaults] again, and has a
    positive TTL, an endpoint, a log level and a log format that are not
    empty, and read and write timeouts that are not zero. *)
Theorem Load_result (missing : string → bool) (file : option (option Config.Config))
    (c : Config.Config) :
  Config.Load missing file = Config.Loaded c →
  ∃ cfg, file = Some (Some cfg) ∧ Config.Validate missing cfg = None ∧
    c = Config.setDefaults cfg ∧
    Config.Backends c = Config.Backends cfg ∧
    Config.Validate missing c = None ∧
    Config.setDefaults c = c ∧
    0 < Config.TTL (Config.CacheCfg c) ∧
    Config.Endpoint (Config.HealthCheck c) ≠ "" ∧
    Config.Level (Config.Logging c) ≠ "" ∧ Config.Format (Config.Logging c) ≠ "" ∧
    Config.ReadTimeout (Config.Server c) ≠ 0 ∧ Config.WriteTimeout (Config.Server c) ≠ 0.
Proof.
  destruct file as [[cfg|]|]; simpl; try discriminate.
  destruct (Config.Validate missing cfg) eqn:E; [discriminate|].
  intros [= <-]. exists cfg. split; [reflexivity|]. split; [exact E|].
  split; [reflexivity|]. split; [reflexivity|].
  pose proof (proj1 (Validate_None_iff missing cfg) E) as Hv.
  split; [apply Validate_None_iff, setDefaults_valid, Hv|].
  split; [apply setDefaults_idem|].
  pose proof (setDefaults_valid missing cfg Hv) as Hv'.
  destruct Hv as (_ & _ & _ & _ & _ & _ & _ & _ & _ & _ & _ & Httl & _).
  simpl. split.
  { unfold Config.or_default, Config.second.
    destruct (Z.eqb_spec (Config.TTL (Config.CacheCfg cfg)) 0); lia. }
  split; [apply or_default_string_not_empty; discriminate|].
  split; [apply or_default_string_not_empty; discriminate|].
  split; [apply or_default_string_not_empty; discriminate|].
  split; apply or_default_not_zero; unfold Config.second; lia.
Qed.

Lemma Load_result_witness :
  ∃ cfg, Some (Some Specs.sample_config) = Some (Some cfg) ∧
         Config.TTL (Config.CacheCfg (Config.setDefaults Specs.sample_config))
         = 60 * Config.second.
Proof.
  destruct (Load_result (λ _, false) (Some (Some Specs.sample_config))
              (Config.setDefaults Specs.sample_config) eq_refl) as (cfg & E & _).
  exists cfg. split; [exact E|reflexivity].
Defined.

(** * The server and the dispatcher *)

Section ServerFacts.
Import Balancer.

Lemma build_balancer_from (backends : list Config.BackendConfig) : ∀ acc : SRR,
  fold_left
    (λ b backendCfg,
       AddBackend b (NewBackend (Config.BackendURL backendCfg)
                                (Config.BackendWeight backendCfg)))
    backends acc
  = acc ++ ((λ backendCfg, NewBackend (Config.BackendURL backendCfg)
                                      (Config.BackendWeight backendCfg)) <$> backends).
Proof.
  induction backends as [|x rest IH]; intros acc; simpl.
  - rewrite app_nil_r. reflexivity.
  - rewrite IH. unfold AddBackend. rewrite <- app_assoc. reflexivity.
Qed.

Lemma build_balancer_spec (backends : list Config.BackendConfig) :
  Server.build_balancer backends
  = (λ backendCfg, NewBackend (Config.BackendURL backendCfg)
                              (Config.BackendWeight backendCfg)) <$> backends.
Proof. unfold Server.build_balancer. rewrite build_balancer_from. reflexivity. Qed.

Lemma filter_healthy_new (backends : list Config.BackendConfig) :
  filter (λ b, IsHealthy b = true) (Server.build_balancer backends)
  = Server.build_balancer backends.
Proof.
  rewrite build_balancer_spec. induction backends as [|x rest IH]; [reflexivity|].
  rewrite fmap_cons, filter_cons. simpl. rewrite IH. reflexivity.
Qed.

Lemma sumZ_pos_weights (backends : list Config.BackendConfig) :
  backends ≠ [] → Forall Specs.backend_ok backends →
  0 < sumZ (Config.BackendWeight <$> backends).
Proof.
  intros Hne Hall. destruct Hall as [|x rest [_ Hx] Hrest]; [congruence|].
  rewrite fmap_cons. simpl.
  assert (0 <= sumZ (Config.BackendWeight <$> rest)); [|lia].
  apply sumZ_nonneg. rewrite Forall_fmap. eapply Forall_impl; [exact Hrest|].
  intros b [_ Hb]. simpl. lia.
Qed.

End ServerFacts.

(** X24. The pool that [NewServer] builds from a configuration that
    passed [Validate]: one backend for each configured one, in the order
    of the file, with its URL and its weight, healthy, with current
    weight 0; the pool is not empty and every weight is positive. If the
    weights add up to an int, the first [NextBackend] returns a backend.
    The health checker is made with the configured threshold and
    recovery interval, and a limiter exists exactly when rate limiting
    is enabled. *)
Theorem NewServer_pool {B : Type} `{RateLimit.TokenBucket B}
    (missing : string → bool) (cfg : Config.Config) :
  Config.Validate missing cfg = None →
  let srv := Server.NewServer (B := B) cfg in
  let s := Proxy.balancer (Server.handler srv) in
  s = (λ c, NewBackend (Config.BackendURL c) (Config.BackendWeight c)) <$> Config.Backends cfg ∧
  s ≠ [] ∧
  Forall (λ b, IsHealthy b = true ∧ CurrentWeight b = 0 ∧ 0 < Weight b) s ∧
  (sumZ (Config.BackendWeight <$> Config.Backends cfg) <= GoInt.max_int →
   ∃ i b, fst (NextBackend s) = Selected i ∧ s !! i = Some b) ∧
  Server.healthChecker srv
  = Some (Health.NewChecker (Config.FailureThreshold (Config.HealthCheck cfg))
                            (Config.RecoveryInterval (Config.HealthCheck cfg))) ∧
  (is_Some (Middleware.limiter (Server.middleware srv))
   ↔ Config.RateLimitEnabled (Config.RateLimitCfg cfg) = true).
Proof.
  intros Hv srv s. apply Validate_None_iff in Hv.
  destruct Hv as (_ & _ & _ & _ & Hne & Hall & _ & Hi & _).
  assert (Hs : s = (λ c, NewBackend (Config.BackendURL c) (Config.BackendWeight c))
                   <$> Config.Backends cfg) by apply build_balancer_spec.
  assert (Hw : Weight <$> s = Config.BackendWeight <$> Config.Backends cfg).
  { rewrite Hs, <- list_fmap_compose. reflexivity. }
  split; [exact Hs|]. split.
  { rewrite Hs. destruct (Config.Backends cfg); [congruence|discriminate]. }
  split.
  { rewrite Hs, Forall_fmap. eapply Forall_impl; [exact Hall|].
    intros c [_ Hc]. simpl. auto. }
  split.
  { intros Hmax.
    pose proof (sumZ_pos_weights _ Hne Hall) as Hpos.
    assert (Hnn : Forall (λ b, 0 <= Weight b) s).
    { rewrite Hs, Forall_fmap. eapply Forall_impl; [exact Hall|].
      intros c [_ Hc]. simpl. lia. }
    assert (Hf : filter (λ b, IsHealthy b = true) s = s) by apply filter_healthy_new.
    pose proof (healthy_total_exact s 0 Hnn ltac:(lia)) as Ht.
    rewrite Hf, Hw in Ht. specialize (Ht ltac:(lia)).
    destruct (NextBackend_returns_healthy s) as (i & b & Hsel & Hb & _); [lia|].
    exists i, b. auto. }
  split.
  { unfold srv, Server.NewServer. simpl.
    destruct (Z.ltb_spec 0 (Config.Interval (Config.HealthCheck cfg))); [reflexivity|lia]. }
  unfold srv, Server.NewServer. simpl.
  destruct (Config.RateLimitEnabled (Config.RateLimitCfg cfg)); simpl.
  - split; [reflexivity|]. intros _. eexists. reflexivity.
  - split; [intros [? [=]]|discriminate].
Qed.

Lemma NewServer_pool_witness :
  Proxy.balancer (Server.handler
    (Server.NewServer (B := RateLimit.bucket) (Config.setDefaults Specs.sample_config)))
  = [NewBackend "http://a" 1; NewBackend "http://b" 2].
Proof.
  exact (proj1 (NewServer_pool (B := RateLimit.bucket) (λ _, false)
                  (Config.setDefaults Specs.sample_config) eq_refl)).
Defined.

Section DispatchFacts.
Import Balancer Proxy.

Lemma eqb_GET (r : Request) : Method r = "GET" → String.eqb (Method r) "GET" = true.
Proof. intros ->. reflexivity. Qed.

(** The cache after [ServeHTTP]. *)
Lemma ServeHTTP_cache now upstream h r :
  cache (snd (ServeHTTP now upstream h r)) =
  match fst (NextBackend (balancer h)) with
  | Selected i =>
      match upstream i with
      | Response code header (Some bytes) =>
          if cacheEnabled h && String.eqb (Method r) "GET" && (code =? StatusOK)
          then Cache.Set_ now (cache h) (getCacheKey r) bytes header
          else cache h
      | _ => cache h
      end
  | Failed _ => cache h
  end.
Proof.
  unfold ServeHTTP. destruct (NextBackend (balancer h)) as [[i|e] s]; simpl; [|reflexivity].
  destruct (upstream i) as [| | |code header [bytes|]]; reflexivity.
Qed.


End DispatchFacts.



(** X26. Whom [ServeHTTP] asks and what it replies. When the healthy
    weights add up to zero (as ints) no backend is contacted and the
    reply is 503 Service Unavailable, whatever the backends would have
    answered. Otherwise exactly one backend is asked, a healthy one of
    the pool: if the exchange with it fails the reply is 502 Bad Gateway
    and no other backend is tried; if it answers, its status code is
    passed on as it is (also 4xx and 5xx), with its body, or with no
    body when the body cannot be read. *)
Theorem ServeHTTP_reply (now : Z) (upstream : nat → Proxy.exchange)
    (h : Proxy.Handler) (r : Proxy.Request) :
  (healthy_total (Proxy.balancer h) 0 = 0 →
   fst (Proxy.ServeHTTP now upstream h r)
   = Proxy.http_Error "Service Unavailable" Proxy.StatusServiceUnavailable) ∧
  (healthy_total (Proxy.balancer h) 0 ≠ 0 →
   ∃ i b, fst (NextBackend (Proxy.balancer h)) = Selected i ∧
     Proxy.balancer h !! i = Some b ∧ IsHealthy b = true ∧
     (upstream i = Proxy.BadURL ∨ upstream i = Proxy.BadRequest ∨
      upstream i = Proxy.TransportError →
      fst (Proxy.ServeHTTP now upstream h r)
      = Proxy.http_Error "Bad Gateway" Proxy.StatusBadGateway) ∧
     (∀ code header body, 100 <= code <= 999 →
        upstream i = Proxy.Response code header body →
        fst (Proxy.ServeHTTP now upstream h r)
        = {| Proxy.status := code; Proxy.body := default [] body |})).
Proof.
  split.
  - intros Hz. pose proof (NextBackend_fails (Proxy.balancer h) (or_introl Hz)) as Hf.
    unfold Proxy.ServeHTTP. destruct (NextBackend (Proxy.balancer h)) as [[i|e] s];
      [discriminate|reflexivity].
  - intros Hne.
    destruct (NextBackend_returns_healthy (Proxy.balancer h) Hne) as (i & b & Hsel & Hb & Hh).
    exists i, b. split; [exact Hsel|]. split; [exact Hb|]. split; [exact Hh|].
    unfold Proxy.ServeHTTP. destruct (NextBackend (Proxy.balancer h)) as [[k|e] s];
      [|discriminate]. simpl in Hsel. injection Hsel as ->. split.
    + intros [-> | [-> | ->]]; reflexivity.
    + intros code header body _ ->. destruct body; reflexivity.
Qed.

Lemma ServeHTTP_reply_witness :
  fst (Proxy.ServeHTTP 0 (λ _, Proxy.Response 200 ∅ (Some []))
         (Proxy.mkHandler [SetHealthy false (NewBackend "http://a" 1)] (Cache.NewCache 60) true)
         (Proxy.mkRequest "GET" "/x"))
  = Proxy.http_Error "Service Unavailable" Proxy.StatusServiceUnavailable.
Proof.
  apply (proj1 (ServeHTTP_reply 0 (λ _, Proxy.Response 200 ∅ (Some []))
                  (Proxy.mkHandler [SetHealthy false (NewBackend "http://a" 1)]
                     (Cache.NewCache 60) true)
                  (Proxy.mkRequest "GET" "/x"))).
  reflexivity.
Defined.

(** * The middleware *)

Section ChainFacts.
Context {B : Type} `{RateLimit.TokenBucket B}.
Import Balancer Proxy.

(** [Chain] once the limiter has let the request through. *)
Lemma Chain_let_through tAllow tGet tSet ip upstream (m : Middleware.Middleware B) h r :
  Specs.lets_through tAllow ip m →
  ∃ m1, Middleware.cacheEnabled m1 = Middleware.cacheEnabled m ∧
    Middleware.Chain tAllow tGet tSet ip upstream m h r =
    match (if Middleware.cacheEnabled m && String.eqb (Method r) "GET"
           then Cache.Get tGet (cache h) (getCacheKey r) else None) with
    | Some (cachedData, _) => ({| status := StatusOK; body := cachedData |}, (m1, h))
    | None => (fst (ServeHTTP tSet upstream h r), (m1, snd (ServeHTTP tSet upstream h r)))
    end.
Proof.
  unfold Specs.lets_through, Middleware.Chain. intros Hok.
  destruct (Middleware.limiter m) as [l|].
  - destruct (RateLimit.Allow tAllow l ip) as [ok l']. simpl in Hok. subst ok. simpl.
    eexists. split; [|destruct (ServeHTTP tSet upstream h r); reflexivity]. reflexivity.
  - simpl. exists m. split; [reflexivity|].
    destruct (ServeHTTP tSet upstream h r); reflexivity.
Qed.

End ChainFacts.

(** X27. A request that the limiter refuses is answered 429 with the
    body [Rate limit exceeded] before anything else happens: the cache
    is not consulted, [NextBackend] is not called (the handler, and with
    it the rotation of the balancer, is as before), no backend is asked,
    and the only change is in the limiter, which keeps a bucket for the
    address. *)
Theorem Chain_rate_limited {B : Type} `{RateLimit.TokenBucket B}
    (tAllow tGet tSet : Z) (ip : string) (upstream : nat → Proxy.exchange)
    (m : Middleware.Middleware B) (h : Proxy.Handler) (r : Proxy.Request)
    (l : RateLimit.Limiter B) :
  Middleware.limiter m = Some l →
  fst (RateLimit.Allow tAllow l ip) = false →
  Middleware.Chain tAllow tGet tSet ip upstream m h r
  = ({| Proxy.status := Middleware.StatusTooManyRequests;
        Proxy.body := Proxy.text "Rate limit exceeded" |},
     ({| Middleware.limiter := Some (snd (RateLimit.Allow tAllow l ip));
         Middleware.cacheEnabled := Middleware.cacheEnabled m |}, h)) ∧
  ip ∈ dom (RateLimit.limiters (snd (RateLimit.Allow tAllow l ip))).
Proof.
  intros Hl Hno. split.
  - unfold Middleware.Chain. rewrite Hl.
    destruct (RateLimit.Allow tAllow l ip) as [ok l']. simpl in Hno. subst ok. reflexivity.
  - rewrite Allow_dom. apply elem_of_union_l, elem_of_singleton. reflexivity.
Qed.

Lemma Chain_rate_limited_witness :
  let l := snd (RateLimit.Allow 0 (RateLimit.NewLimiter 60 1) "10.0.0.1") in
  let m := Middleware.mkMiddleware (Some l) true in
  let h := Proxy.mkHandler [NewBackend "http://a" 1] (Cache.NewCache 60) true in
  fst (Middleware.Chain 0 0 0 "10.0.0.1" (λ _, Proxy.Response 200 ∅ (Some [])) m h
         (Proxy.mkRequest "GET" "/x"))
  = {| Proxy.status := 429; Proxy.body := Proxy.text "Rate limit exceeded" |}.
Proof.
  intros l m h.
  assert (Hno : fst (RateLimit.Allow 0 l "10.0.0.1") = false) by (vm_compute; reflexivity).
  rewrite (proj1 (Chain_rate_limited 0 0 0 "10.0.0.1" (λ _, Proxy.Response 200 ∅ (Some []))
                    m h (Proxy.mkRequest "GET" "/x") l eq_refl Hno)).
  reflexivity.
Defined.

(** X28. A GET request that the limiter lets through and whose key has
    an entry that has not expired is answered from the cache, with
    status 200 and the stored body: [NextBackend] is not called, so the
    request takes no turn of the rotation, and no backend is asked.
    With caching off, or for another method, the cache is not consulted
    and the dispatcher answers. *)
Theorem Chain_cache_hit {B : Type} `{RateLimit.TokenBucket B}
    (tAllow tGet tSet : Z) (ip : string) (upstream : nat → Proxy.exchange)
    (m : Middleware.Middleware B) (h : Proxy.Handler) (r : Proxy.Request) :
  Specs.lets_through tAllow ip m →
  (∀ e, Middleware.cacheEnabled m = true → Proxy.Method r = "GET" →
        Cache.entries (Proxy.cache h) !! Proxy.getCacheKey r = Some e →
        tGet <= Cache.ExpiresAt e →
        fst (Middleware.Chain tAllow tGet tSet ip upstream m h r)
        = {| Proxy.status := Proxy.StatusOK; Proxy.body := Cache.Value e |} ∧
        snd (snd (Middleware.Chain tAllow tGet tSet ip upstream m h r)) = h) ∧
  (Middleware.cacheEnabled m = false ∨ Proxy.Method r ≠ "GET" →
   fst (Middleware.Chain tAllow tGet tSet ip upstream m h r)
   = fst (Proxy.ServeHTTP tSet upstream h r) ∧
   snd (snd (Middleware.Chain tAllow tGet tSet ip upstream m h r))
   = snd (Proxy.ServeHTTP tSet upstream h r)).
Proof.
  intros Hok.
  destruct (Chain_let_through tAllow tGet tSet ip upstream m h r Hok) as (m1 & _ & ->).
  split.
  - intros e Hc Hm He Ht. rewrite Hc, (eqb_GET r Hm). simpl.
    rewrite Get_spec, He.
    destruct (Z.ltb_spec (Cache.ExpiresAt e) tGet); [lia|]. split; reflexivity.
  - intros Hoff.
    assert (Middleware.cacheEnabled m && String.eqb (Proxy.Method r) "GET" = false) as ->.
    { destruct Hoff as [-> | Hm]; [reflexivity|].
      apply andb_false_iff. right. apply String.eqb_neq. exact Hm. }
    split; reflexivity.
Qed.

Lemma Chain_cache_hit_witness :
  let c := Cache.Set_ 0 (Cache.NewCache 60) "GET:/x" [] ∅ in
  let h := Proxy.mkHandler [NewBackend "http://a" 1] c true in
  let m := Middleware.mkMiddleware (B := RateLimit.bucket) None true in
  snd (snd (Middleware.Chain 0 60 60 "10.0.0.1" (λ _, Proxy.TransportError) m h
              (Proxy.mkRequest "GET" "/x"))) = h.
Proof.
  intros c h m.
  apply (proj1 (Chain_cache_hit 0 60 60 "10.0.0.1" (λ _, Proxy.TransportError) m h
                  (Proxy.mkRequest "GET" "/x") I)
           (Cache.NewEntry 0 "GET:/x" [] ∅ 60)).
  - reflexivity.
  - reflexivity.
  - reflexivity.
  - simpl. lia.
Defined.

(** X29. The dispatcher and the middleware together: once [ServeHTTP]
    has relayed a 200 answer with its body to a GET request with caching
    on, every later request with the same method and URL that the
    limiter lets through, up to and including the instant [ttl] after
    the answer was stored, gets that body with status 200 from the
    middleware, without a backend being chosen or asked, whatever the
    state of the backends is by then. *)
Theorem cached_answer_served {B : Type} `{RateLimit.TokenBucket B}
    (tSet tAllow tGet tSet' : Z) (ip : string) (upstream upstream' : nat → Proxy.exchange)
    (m : Middleware.Middleware B) (h : Proxy.Handler) (r : Proxy.Request)
    (i : nat) (header : Cache.http_Header) (bytes : list Byte.byte) :
  Proxy.cacheEnabled h = true → Middleware.cacheEnabled m = true →
  Proxy.Method r = "GET" →
  fst (NextBackend (Proxy.balancer h)) = Selected i →
  upstream i = Proxy.Response Proxy.StatusOK header (Some bytes) →
  Specs.lets_through tAllow ip m →
  tGet <= tSet + Cache.ttl (Proxy.cache h) →
  let h' := snd (Proxy.ServeHTTP tSet upstream h r) in
  fst (Proxy.ServeHTTP tSet upstream h r)
  = {| Proxy.status := Proxy.StatusOK; Proxy.body := bytes |} ∧
  fst (Middleware.Chain tAllow tGet tSet' ip upstream' m h' r)
  = {| Proxy.status := Proxy.StatusOK; Proxy.body := bytes |} ∧
  snd (snd (Middleware.Chain tAllow tGet tSet' ip upstream' m h' r)) = h'.
Proof.
  intros Hc Hmc Hm Hsel Hup Hok Ht h'.
  assert (Hcache : Proxy.cache h'
                   = Cache.Set_ tSet (Proxy.cache h) (Proxy.getCacheKey r) bytes header).
  { unfold h'. rewrite ServeHTTP_cache, Hsel, Hup, Hc, (eqb_GET r Hm). reflexivity. }
  split.
  { unfold Proxy.ServeHTTP. destruct (NextBackend (Proxy.balancer h)) as [[k|e] s];
      [|discriminate]. simpl in Hsel. injection Hsel as ->. rewrite Hup. reflexivity. }
  destruct (Chain_let_through tAllow tGet tSet' ip upstream' m h' r Hok) as (m1 & _ & ->).
  rewrite Hmc, (eqb_GET r Hm). simpl. rewrite Get_spec, Hcache. simpl.
  rewrite lookup_insert_eq. simpl.
  destruct (Z.ltb_spec (tSet + Cache.ttl (Proxy.cache h)) tGet); [lia|].
  split; reflexivity.
Qed.

Lemma cached_answer_served_witness :
  let h := Proxy.mkHandler [NewBackend "http://a" 1] (Cache.NewCache 60) true in
  let m := Middleware.mkMiddleware (B := RateLimit.bucket) None true in
  let r := Proxy.mkRequest "GET" "/x" in
  let h' := snd (Proxy.ServeHTTP 0 (λ _, Proxy.Response 200 ∅ (Some [])) h r) in
  fst (Middleware.Chain 1 60 60 "10.0.0.1" (λ _, Proxy.TransportError) m h' r)
  = {| Proxy.status := 200; Proxy.body := [] |}.
Proof.
  intros h m r h'.
  apply (cached_answer_served 0 1 60 60 "10.0.0.1" (λ _, Proxy.Response 200 ∅ (Some []))
           (λ _, Proxy.TransportError) m h r 0%nat ∅ []).
  - reflexivity.
  - reflexivity.
  - reflexivity.
  - reflexivity.
  - reflexivity.
  - exact I.
  - simpl. lia.
Defined.

(** * The headers of the upstream request *)

Section ForwardFacts.
Import Forward Specs.

Lemma add_values_lookup k vv : ∀ (dst : Cache.http_Header) k',
  add_values k vv dst !! k' =
  if decide (k = k') then
    match vv with
    | [] => dst !! k'
    | _ => Some (default [] (dst !! k) ++ vv)
    end
  else dst !! k'.
Proof.
  unfold add_values. induction vv as [|v rest IH]; intros dst k'; simpl.
  - destruct (decide (k = k')); reflexivity.
  - rewrite IH. unfold header_Add. destruct (decide (k = k')) as [<-|Hne].
    + rewrite !lookup_insert_eq. simpl. destruct rest as [|v' rest'].
      * reflexivity.
      * rewrite <- app_assoc. reflexivity.
    + rewrite lookup_insert_ne by exact Hne. reflexivity.
Qed.

Lemma copyHeader_empty (src : Cache.http_Header) k :
  copyHeader ∅ src !! k = copied (src !! k).
Proof.
  unfold copyHeader. revert k.
  apply (map_fold_weak_ind
           (λ (r : Cache.http_Header) (m : Cache.http_Header),
              ∀ k, r !! k = copied (m !! k))).
  - intros k. rewrite !lookup_empty. reflexivity.
  - intros i x m r Hi IH k. rewrite add_values_lookup.
    destruct (decide (i = k)) as [<-|Hne].
    + rewrite lookup_insert_eq. rewrite (IH i), Hi. simpl.
      destruct x; reflexivity.
    + rewrite lookup_insert_ne by exact Hne. apply IH.
Qed.

End ForwardFacts.

(** X30. The headers of the upstream request. [X-Forwarded-For] holds
    the address of the client and nothing else, [X-Forwarded-Host] the
    host of the request and [X-Forwarded-Proto] [https] or [http]: what
    the client sent under these names is replaced, not extended.
    [X-Forwarded-Server] is set to the host when the host is not empty.
    Every other header of the client is passed on with all its values,
    except that a name without values is dropped. The raw path of the
    client replaces that of the upstream URL when it is not empty. *)
Theorem forwarded_headers (r : Forward.Incoming) (rawPath : string) :
  let out := Forward.OutHeader (Forward.forwarded r rawPath) in
  out !! "X-Forwarded-For" = Some [Forward.ClientIP r] ∧
  out !! "X-Forwarded-Host" = Some [Forward.Host r] ∧
  out !! "X-Forwarded-Proto" = Some [if Forward.TLS r then "https" else "http"] ∧
  (Forward.Host r ≠ "" → out !! "X-Forwarded-Server" = Some [Forward.Host r]) ∧
  (∀ k, k ≠ "X-Forwarded-For" → k ≠ "X-Forwarded-Host" → k ≠ "X-Forwarded-Proto" →
        k ≠ "X-Forwarded-Server" ∨ Forward.Host r = "" →
        out !! k = Specs.copied (Forward.Header r !! k)) ∧
  Forward.OutRawPath (Forward.forwarded r rawPath)
  = (if decide (Forward.RawPath r = "") then rawPath else Forward.RawPath r).
Proof.
  intros out. unfold out, Forward.forwarded, Forward.setProxyHeaders, Forward.header_Set,
    Forward.getScheme. simpl.
  destruct (String.eqb_spec (Forward.Host r) "") as [Hh|Hh]; simpl.
  - split; [rewrite lookup_insert_ne by discriminate;
            rewrite lookup_insert_ne by discriminate; apply lookup_insert_eq|].
    split; [rewrite lookup_insert_ne by discriminate; apply lookup_insert_eq|].
    split; [apply lookup_insert_eq|]. split; [contradiction|]. split.
    + intros k H1 H2 H3 _. rewrite !lookup_insert_ne by congruence.
      apply copyHeader_empty.
    + destruct (String.eqb_spec (Forward.RawPath r) "") as [Hp|Hp];
        destruct (decide (Forward.RawPath r = "")); simpl; congruence.
  - split; [rewrite !lookup_insert_ne by discriminate; apply lookup_insert_eq|].
    split; [rewrite !lookup_insert_ne by discriminate; apply lookup_insert_eq|].
    split; [rewrite lookup_insert_ne by discriminate; apply lookup_insert_eq|].
    split; [intros _; apply lookup_insert_eq|]. split.
    + intros k H1 H2 H3 [H4|H4]; [|contradiction].
      rewrite !lookup_insert_ne by congruence. apply copyHeader_empty.
    + destruct (String.eqb_spec (Forward.RawPath r) "") as [Hp|Hp];
        destruct (decide (Forward.RawPath r = "")); simpl; congruence.
Qed.

Lemma forwarded_headers_witness :
  let r := Forward.mkIncoming
             {["X-Forwarded-For" := ["1.2.3.4"]; "Accept" := ["text/html"; "*/*"]]}
             "example.org" false "10.0.0.1" "" in
  Forward.OutHeader (Forward.forwarded r "") !! "X-Forwarded-For" = Some ["10.0.0.1"] ∧
  Forward.OutHeader (Forward.forwarded r "") !! "X-Forwarded-Server" = Some ["example.org"].
Proof.
  intros r.
  destruct (forwarded_headers r "") as (Hfor & _ & _ & Hserver & _).
  split; [exact Hfor|]. apply Hserver. discriminate.
Defined.

(** * Fairness while some backends are out *)

Section Outage.
Import Balancer GoInt Specs.

Lemma healthy_part_cons b (s : SRR) :
  healthy_part (b :: s) = if IsHealthy b then b :: healthy_part s else healthy_part s.
Proof.
  unfold healthy_part. rewrite filter_cons.
  destruct (decide (IsHealthy b = true)) as [->|Hn]; [reflexivity|].
  apply not_true_is_false in Hn. rewrite Hn. reflexivity.
Qed.

Lemma rank_0 (s : SRR) : rank s 0 = 0%nat.
Proof. unfold rank. rewrite take_0. reflexivity. Qed.

Lemma rank_S b (s : SRR) i :
  rank (b :: s) (S i) = if IsHealthy b then S (rank s i) else rank s i.
Proof.
  unfold rank. rewrite firstn_cons, healthy_part_cons.
  destruct (IsHealthy b); reflexivity.
Qed.

Lemma healthy_total_part (s : SRR) : ∀ t, healthy_total s t = healthy_total (healthy_part s) t.
Proof.
  induction s as [|b rest IH]; intros t; [reflexivity|].
  rewrite healthy_part_cons. unfold healthy_total in *. simpl.
  destruct (IsHealthy b) eqn:Hb; simpl; [rewrite Hb|]; apply IH.
Qed.

Lemma healthy_part_bump (s : SRR) :
  healthy_part (bump_healthy <$> s) = bump_healthy <$> healthy_part s.
Proof.
  induction s as [|b rest IH]; [reflexivity|].
  rewrite fmap_cons, !healthy_part_cons.
  destruct (bump_healthy_fields b) as (_ & _ & ->).
  destruct (IsHealthy b); [rewrite fmap_cons|]; rewrite IH; reflexivity.
Qed.

Lemma rank_flags (s s' : SRR) i :
  IsHealthy <$> s = IsHealthy <$> s' → rank s i = rank s' i.
Proof.
  revert s' i. induction s as [|b rest IH]; intros [|b' rest'] i Hfl; try discriminate.
  - reflexivity.
  - rewrite !fmap_cons in Hfl. injection Hfl as Hb Hrest.
    destruct i as [|i]; [rewrite !rank_0; reflexivity|].
    rewrite !rank_S, Hb, (IH rest' i Hrest). reflexivity.
Qed.

Lemma lookup_rank (s : SRR) : ∀ i b,
  s !! i = Some b → IsHealthy b = true → healthy_part s !! rank s i = Some b.
Proof.
  induction s as [|a rest IH]; intros i b Hi Hb; [discriminate|].
  rewrite healthy_part_cons. destruct i as [|i]; simpl in Hi.
  - injection Hi as ->. rewrite rank_0, Hb. reflexivity.
  - rewrite rank_S. destruct (IsHealthy a); simpl; apply IH; assumption.
Qed.

Lemma rank_lt (s : SRR) : ∀ i j b,
  (i < j)%nat → s !! i = Some b → IsHealthy b = true → (rank s i < rank s j)%nat.
Proof.
  induction s as [|a rest IH]; intros i j b Hij Hi Hb; [discriminate|].
  destruct j as [|j]; [lia|]. destruct i as [|i]; simpl in Hi.
  - injection Hi as ->. rewrite rank_0, rank_S, Hb. lia.
  - rewrite !rank_S. pose proof (IH i j b ltac:(lia) Hi Hb).
    destruct (IsHealthy a); lia.
Qed.

Lemma rank_inj (s : SRR) i j bi bj :
  s !! i = Some bi → IsHealthy bi = true → s !! j = Some bj → IsHealthy bj = true →
  rank s i = rank s j → i = j.
Proof.
  intros Hi Hbi Hj Hbj Heq.
  destruct (Nat.lt_trichotomy i j) as [Hlt|[->|Hlt]]; [|reflexivity|].
  - pose proof (rank_lt s i j bi Hlt Hi Hbi). lia.
  - pose proof (rank_lt s j i bj Hlt Hj Hbj). lia.
Qed.

Lemma healthy_part_alter (g : Backend → Backend) (s : SRR) : ∀ k b,
  (∀ x, IsHealthy (g x) = IsHealthy x) →
  s !! k = Some b → IsHealthy b = true →
  healthy_part (alter g k s) = alter g (rank s k) (healthy_part s).
Proof.
  induction s as [|a rest IH]; intros k b Hg Hk Hb; [discriminate|].
  destruct k as [|k]; simpl in Hk.
  - injection Hk as ->. change (alter g 0%nat (b :: rest)) with (g b :: rest).
    rewrite rank_0, !healthy_part_cons, Hg, Hb. reflexivity.
  - change (alter g (S k) (a :: rest)) with (a :: alter g k rest).
    rewrite rank_S, !healthy_part_cons, (IH k b Hg Hk Hb).
    destruct (IsHealthy a); reflexivity.
Qed.

End Outage.

Section OutageRuns.
Import Balancer GoInt Specs.

Lemma pick_best_part (f : nat → nat) (bs : list Backend) : ∀ i i' best best',
  (∀ p, (p < length bs)%nat → f (i + p)%nat = (i' + length (healthy_part (take p bs)))%nat) →
  same_best f best best' →
  same_best f (pick_best bs i best) (pick_best (healthy_part bs) i' best').
Proof.
  induction bs as [|b rest IH]; intros i i' best best' Hf Hbest; [exact Hbest|].
  rewrite healthy_part_cons. simpl pick_best at 1.
  destruct (IsHealthy b) eqn:Hb; simpl negb; cbv iota.
  - assert (Hi : f i = i').
    { specialize (Hf 0%nat ltac:(simpl; lia)). rewrite take_0 in Hf. simpl in Hf.
      rewrite !Nat.add_0_r in Hf. exact Hf. }
    assert (Hnext : ∀ p, (p < length rest)%nat →
                      f (S i + p)%nat = (S i' + length (healthy_part (take p rest)))%nat).
    { intros p Hp. specialize (Hf (S p) ltac:(simpl; lia)).
      rewrite firstn_cons, healthy_part_cons, Hb in Hf. simpl in Hf.
      replace (S i + p)%nat with (i + S p)%nat by lia. rewrite Hf. lia. }
    simpl. rewrite Hb. simpl.
    destruct best as [[j v]|], best' as [[j' v']|]; simpl in Hbest; try contradiction.
    + destruct Hbest as [-> ->].
      destruct (v <? CurrentWeight b); apply IH; try exact Hnext; simpl; auto.
    + apply IH; [exact Hnext|]. simpl. auto.
  - apply IH; [|exact Hbest]. intros p Hp. specialize (Hf (S p) ltac:(simpl; lia)).
    rewrite firstn_cons, healthy_part_cons, Hb in Hf.
    replace (S i + p)%nat with (i + S p)%nat by lia. exact Hf.
Qed.

Lemma NextBackend_eq (s : SRR) :
  NextBackend s =
  if healthy_total s 0 =? 0 then (Failed ErrNoHealthyBackends, bump_healthy <$> s)
  else match pick_best (bump_healthy <$> s) 0%nat None with
       | None => (Failed ErrNoHealthyBackends, bump_healthy <$> s)
       | Some (i, _) =>
           (Selected i, alter (charge (healthy_total s 0)) i (bump_healthy <$> s))
       end.
Proof.
  unfold NextBackend. destruct s as [|b rest]; [reflexivity|].
  rewrite accumulate_spec. reflexivity.
Qed.

Lemma charge_healthy total x : IsHealthy (charge total x) = IsHealthy x.
Proof. reflexivity. Qed.

(** A call on the pool and a call on its healthy part do the same. *)
Lemma NextBackend_part (s : SRR) :
  NextBackend (healthy_part s)
  = (relabel (rank s) (fst (NextBackend s)), healthy_part (snd (NextBackend s))).
Proof.
  rewrite !NextBackend_eq, <- healthy_total_part, <- healthy_part_bump.
  destruct (healthy_total s 0 =? 0); [reflexivity|].
  assert (Hfl : IsHealthy <$> (bump_healthy <$> s) = IsHealthy <$> s).
  { destruct (bump_healthy_frame s) as (_ & _ & H). exact H. }
  pose proof (pick_best_part (rank (bump_healthy <$> s)) (bump_healthy <$> s)
                0 0 None None ltac:(intros p _; reflexivity) I) as Hsame.
  destruct (pick_best (bump_healthy <$> s) 0 None) as [[i v]|] eqn:Hp;
    destruct (pick_best (healthy_part (bump_healthy <$> s)) 0 None) as [[i' v']|];
    simpl in Hsame; try contradiction; [|reflexivity].
  destruct Hsame as [-> ->]. simpl.
  apply pick_best_Some in Hp as ([Hnone|(b & _ & Hl & Hh & _)] & _); [discriminate|].
  rewrite Nat.sub_0_r in Hl.
  rewrite (healthy_part_alter _ _ i b (charge_healthy _) Hl Hh).
  rewrite (rank_flags _ _ i Hfl). reflexivity.
Qed.

Lemma calls_part n : ∀ s : SRR,
  calls n (healthy_part s)
  = (relabel (rank s) <$> fst (calls n s), healthy_part (snd (calls n s))).
Proof.
  induction n as [|n IH]; intros s; [reflexivity|].
  simpl. rewrite NextBackend_part.
  destruct (NextBackend_frame s) as (_ & _ & Hfl).
  destruct (NextBackend s) as [r s1]. simpl in *.
  rewrite IH.
  assert (Hr : relabel (rank s1) <$> fst (calls n s1) = relabel (rank s) <$> fst (calls n s1)).
  { apply list_fmap_ext. intros j [k|e] _; simpl; [|reflexivity].
    rewrite (rank_flags s1 s k Hfl). reflexivity. }
  rewrite Hr. destruct (calls n s1) as [rs s2]. reflexivity.
Qed.

Lemma selections_relabel (s : SRR) i b (rs : list outcome) :
  s !! i = Some b → IsHealthy b = true →
  (∀ k, Selected k ∈ rs → ∃ x, s !! k = Some x ∧ IsHealthy x = true) →
  selections (rank s i) (relabel (rank s) <$> rs) = selections i rs.
Proof.
  intros Hi Hb. unfold selections.
  induction rs as [|r rest IH]; intros Hall; [reflexivity|].
  rewrite fmap_cons, !filter_cons.
  assert (IHrest : length (filter (λ r, r = Selected (rank s i)) (relabel (rank s) <$> rest))
                   = length (filter (λ r, r = Selected i) rest)).
  { apply IH. intros k Hk. apply Hall. right. exact Hk. }
  destruct r as [k|e]; simpl.
  - destruct (Hall k ltac:(left)) as (x & Hk & Hx).
    destruct (decide (Selected (rank s k) = Selected (rank s i))) as [E|E],
             (decide (Selected k = Selected i)) as [E'|E']; simpl; try (rewrite IHrest; reflexivity).
    + exfalso. apply E'. f_equal. injection E as E.
      exact (rank_inj s k i x b Hk Hx Hi Hb E).
    + exfalso. apply E. injection E' as ->. reflexivity.
  - destruct (decide (Failed e = Selected (rank s i))); [discriminate|].
    destruct (decide (Failed e = Selected i)); [discriminate|]. exact IHrest.
Qed.

Lemma selections_absent i (rs : list outcome) :
  Selected i ∉ rs → selections i rs = 0%nat.
Proof.
  unfold selections. induction rs as [|r rest IH]; intros Hn; [reflexivity|].
  rewrite filter_cons. destruct (decide (r = Selected i)) as [->|_].
  - exfalso. apply Hn. left.
  - apply IH. intros Hin. apply Hn. right. exact Hin.
Qed.

End OutageRuns.

(** X15. Fairness while some backends are out. In a pool whose healthy
    backends have positive weights and current weight 0, with [W] the
    sum of the healthy weights and nothing wrapping, [k · W] calls of
    [NextBackend] return every healthy backend exactly [k] times its
    weight and never a backend that is out, whatever the weights and the
    current weights of the backends that are out. *)
Theorem outage_fairness (s : SRR) (k : nat) :
  let hs := Specs.healthy_part s in
  let W := sumZ (Weight <$> hs) in
  Forall (λ b, IsHealthy b = true → 0 < Weight b ∧ CurrentWeight b = 0) s →
  Z.of_nat (length hs) * W <= GoInt.max_int →
  ∀ i b, s !! i = Some b →
    Z.of_nat (selections i (fst (calls (k * Z.to_nat W) s)))
    = if IsHealthy b then Z.of_nat k * Weight b else 0.
Proof.
  intros hs W Hinit Hmax i b Hi.
  destruct (IsHealthy b) eqn:Hb.
  2: { rewrite selections_absent; [reflexivity|]. intros Hin.
       apply calls_select_healthy in Hin as (b' & Hi' & Hb'). congruence. }
  rewrite <- (selections_relabel s i b _ Hi Hb (calls_select_healthy _ s)).
  pose proof (calls_part (k * Z.to_nat W) s) as Hpart. fold hs in Hpart.
  replace (Specs.relabel (Specs.rank s) <$> fst (calls (k * Z.to_nat W) s))
    with (fst (calls (k * Z.to_nat W) hs)) by (rewrite Hpart; reflexivity).
  pose proof (lookup_rank s i b Hi Hb) as Hr. fold hs in Hr.
  assert (Hne : hs ≠ []) by (intros E; rewrite E in Hr; discriminate).
  assert (Hinit' : Forall (λ b, IsHealthy b = true ∧ 0 < Weight b ∧ CurrentWeight b = 0) hs).
  { apply Forall_forall. intros x Hx. apply list_elem_of_filter in Hx as [Hh Hx].
    rewrite Forall_forall in Hinit. destruct (Hinit x Hx Hh). auto. }
  assert (Hpos : Forall (λ b, 0 < Weight b) hs).
  { eapply Forall_impl; [exact Hinit'|]. intros x (_ & H & _). exact H. }
  assert (HW : 0 < W).
  { pose proof (weight_le_total hs b Hpos (list_elem_of_lookup_2 _ _ _ Hr)).
    rewrite Forall_forall in Hpos.
    pose proof (Hpos b (list_elem_of_lookup_2 _ _ _ Hr)). unfold W. lia. }
  pose proof (fair_run hs (k * Z.to_nat W) Hne Hinit' Hmax) as (Hws & Hall & Hsum & Hcnt).
  destruct (calls (k * Z.to_nat W) hs) as [rs s'] eqn:E. simpl in *.
  replace (Z.of_nat (k * Z.to_nat W)) with (Z.of_nat k * W) in Hcnt by lia.
  fold W in Hall.
  assert (Hnn : Forall (λ x, 0 <= x) (CurrentWeight <$> s')).
  { apply Forall_fmap, Forall_lookup. intros j x Hj. simpl.
    rewrite Forall_forall in Hall.
    destruct (Hall x (list_elem_of_lookup_2 _ _ _ Hj)) as (_ & _ & Hlo).
    specialize (Hcnt j x Hj). fold W in Hcnt.
    assert (0 <= Z.of_nat k * Weight x - Z.of_nat (selections j rs)) by nia.
    nia. }
  pose proof (sumZ_zero_nonneg _ Hnn Hsum) as Hzero.
  assert (Hi' : ∃ b', s' !! Specs.rank s i = Some b' ∧ Weight b' = Weight b).
  { assert (Hw : (Weight <$> s') !! Specs.rank s i = (Weight <$> hs) !! Specs.rank s i)
      by (rewrite Hws; reflexivity).
    rewrite !list_lookup_fmap, Hr in Hw.
    destruct (s' !! Specs.rank s i) as [b'|]; [|discriminate]. injection Hw as Hw. eauto. }
  destruct Hi' as (b' & Hi' & Hwb).
  specialize (Hcnt _ b' Hi'). rewrite Hwb in Hcnt.
  rewrite Forall_fmap, Forall_forall in Hzero.
  specialize (Hzero b' (list_elem_of_lookup_2 _ _ _ Hi')). simpl in Hzero.
  fold W in Hcnt. nia.
Qed.

(** Weights 10, 10 and 10 with the second backend out: 20 calls return
    the first and the third 10 times each and the second never. *)
Lemma outage_fairness_witness :
  let s := [NewBackend "A" 10; SetHealthy false (NewBackend "B" 10); NewBackend "C" 10] in
  let rs := fst (calls 20 s) in
  Z.of_nat (selections 0 rs) = 10 ∧ Z.of_nat (selections 1 rs) = 0 ∧
  Z.of_nat (selections 2 rs) = 10.
Proof.
  intros s.
  assert (Hinit : Forall (λ b, IsHealthy b = true → 0 < Weight b ∧ CurrentWeight b = 0) s).
  { repeat constructor; discriminate. }
  assert (Hmax : Z.of_nat (length (Specs.healthy_part s))
                 * sumZ (Weight <$> Specs.healthy_part s) <= GoInt.max_int).
  { vm_compute. discriminate. }
  split; [|split].
  - exact (outage_fairness s 1 Hinit Hmax 0%nat _ eq_refl).
  - exact (outage_fairness s 1 Hinit Hmax 1%nat _ eq_refl).
  - exact (outage_fairness s 1 Hinit Hmax 2%nat _ eq_refl).
Defined.
